(** * ModelArena: matcher, compositor, batch export, transport and setup

    A shallow embedding of the TypeScript sources
    ([BulkUploadZone], [SetupScreen], [ComparisonArena], [videoStitcher.ts],
    [App.tsx], [constants.ts], [types.ts]) and the properties of the
    cross-variant matching, compositing and export pipeline.

    Conventions of the embedding.
    - A JS string is a [string] holding its UTF-8 encoding; the default
      [Array.prototype.sort] order compares the UTF-16 code units the bytes
      stand for ([codeUnits], [compareStrings]).
    - A [Record<string, File[]>] is a [gmap string (list File)];
      [Object.keys(r).length] is [size r].
    - A function that can raise returns a [completion]; a promise settles as
      an [outcome] (resolved, rejected, or never settled).
    - Browser behaviour the code depends on (decoding, canvas context,
      encoding, recorder state, [Math.random]) is an explicit environment
      argument. *)

From Stdlib Require Import QArith Ascii.
From stdpp Require Import gmap strings list sorting pretty.

(** ** types.ts *)

Record ModelConfig := {
  model_id : string;
  model_name : string;
  model_color : string;
}.

Inductive MediaType := video | image.

(** A browser [File]: its [name], its MIME [type], and a handle standing for
    the object's identity (two files of one folder tree may share a name). *)
Record File := {
  file_name : string;
  file_type : string;
  file_handle : nat;
}.

Record VideoSource := {
  src_modelId : string;
  src_file : option File;
  src_url : option string;
  src_name : string;
}.

Record TestCase := {
  case_id : string;
  case_name : string;
  case_sources : list VideoSource;
}.

Record VoteResult := {
  vote_caseId : string;
  vote_caseName : string;
  vote_isRepresentative : bool;
}.

Global Instance ModelConfig_eq_dec : EqDecision ModelConfig.
Proof. solve_decision. Defined.
Global Instance File_eq_dec : EqDecision File.
Proof. solve_decision. Defined.

(** ** constants.ts *)

Definition MAX_MODELS : nat := 5.
Definition MIN_MODELS : nat := 2.

Definition MODEL_COLORS : list string :=
  ["#6366f1"; "#ec4899"; "#10b981"; "#f59e0b"; "#3b82f6"].

(** ** Completions *)

Inductive JSError :=
  | TypeError
  | Error (message : string)
  | DOMException (name : string).

Inductive completion (A : Type) :=
  | Normal (a : A)
  | Throw (e : JSError).
Arguments Normal {A} a.
Arguments Throw {A} e.

Global Instance completion_ret : MRet completion := @Normal.
Global Instance completion_bind : MBind completion := fun A B k c =>
  match c with
  | Normal a => k a
  | Throw e => Throw e
  end.

(** [l.map(f)] for an [f] that may raise: the first exception aborts. *)
Fixpoint mapC {A B} (f : A -> completion B) (l : list A) : completion (list B) :=
  match l with
  | [] => Normal []
  | a :: l' => b ← f a; bs ← mapC f l'; Normal (b :: bs)
  end.

(** ** BulkUploadZone: the case matcher *)

(** [/[^/.]+$/] anchored at the head of [s]: one or more characters, none of
    them a slash or a dot, up to the end of the string. *)
Fixpoint ext_tail (s : string) : bool :=
  match s with
  | EmptyString => false
  | String c rest =>
      negb (Ascii.eqb c "/"%char) && negb (Ascii.eqb c "."%char) &&
      match rest with
      | EmptyString => true
      | _ => ext_tail rest
      end
  end.

(** [filename.replace(/\.[^/.]+$/, "")]: the leftmost position where the
    pattern matches is cut off together with everything after it. *)
Fixpoint getBaseName (filename : string) : string :=
  match filename with
  | EmptyString => EmptyString
  | String c rest =>
      if Ascii.eqb c "."%char && ext_tail rest then EmptyString
      else String c (getBaseName rest)
  end.

(** ASCII lower-casing, for the [i] flag of the extension patterns. *)
Definition lower (c : ascii) : ascii :=
  let n := Ascii.N_of_ascii c in
  if ((65 <=? n) && (n <=? 90))%N then Ascii.ascii_of_N (n + 32) else c.

Fixpoint lowercase (s : string) : string :=
  match s with
  | EmptyString => EmptyString
  | String c rest => String (lower c) (lowercase rest)
  end.

Definition endsWith (s suffix : string) : bool :=
  String.prefix (String.rev suffix) (String.rev s).

(** [/\.(e1|e2|...)$/i.test(name)] *)
Definition has_extension (exts : list string) (name : string) : bool :=
  existsb (fun e => endsWith (lowercase name) ("." +:+ e)) exts.

Definition validFile (mediaType : MediaType) (f : File) : bool :=
  let mimePrefix := match mediaType with video => "video/" | image => "image/" end in
  if negb (String.eqb (file_type f) "") && String.prefix mimePrefix (file_type f) then true
  else match mediaType with
       | video => has_extension ["mp4"; "webm"; "mov"; "mkv"; "avi"] (file_name f)
       | image => has_extension ["jpg"; "jpeg"; "png"; "webp"; "gif"; "bmp"] (file_name f)
       end.

(** The component state [modelFiles]. *)
Abbreviation ModelFiles := (gmap string (list File)).

Definition handleFolderSelect (mediaType : MediaType) (modelId : string)
    (fileList : list File) (modelFiles : ModelFiles) : ModelFiles :=
  <[modelId := filter (fun f => validFile mediaType f = true) fileList]> modelFiles.

Definition removeFiles (modelId : string) (modelFiles : ModelFiles) : ModelFiles :=
  delete modelId modelFiles.

(** [modelFiles[m.id]?.some(f => getBaseName(f.name) === baseName)];
    [undefined] is falsy for [every]. *)
Definition someHasBase (modelFiles : ModelFiles) (modelId baseName : string) : bool :=
  match modelFiles !! modelId with
  | None => false
  | Some fs => existsb (fun f => String.eqb (getBaseName (file_name f)) baseName) fs
  end.

Definition existsInAll (modelFiles : ModelFiles) (models : list ModelConfig)
    (firstId baseName : string) : bool :=
  forallb (fun m =>
    if String.eqb (model_id m) firstId then true
    else someHasBase modelFiles (model_id m) baseName) models.

(** One iteration of [firstModelFiles.forEach]; the accumulator is
    [(processedBaseNames, commonBaseNames)]. *)
Definition matchStep (modelFiles : ModelFiles) (models : list ModelConfig)
    (firstId : string) (acc : gset string * list string) (file : File)
    : gset string * list string :=
  let '(processedBaseNames, commonBaseNames) := acc in
  let baseName := getBaseName (file_name file) in
  if decide (baseName ∈ processedBaseNames) then acc
  else
    let processed' := processedBaseNames ∪ {[ baseName ]} in
    if existsInAll modelFiles models firstId baseName
    then (processed', commonBaseNames ++ [baseName])
    else (processed', commonBaseNames).

(** *** The order of [Array.prototype.sort]

    Without a comparator [sort()] orders strings by [x < y], which compares
    them code unit by code unit (UTF-16). The names are held as UTF-8, so
    the bytes are decoded to code points and these written as code units. *)

(** The payload of a continuation byte [10xxxxxx]. *)
Definition continuation (c : ascii) : option N :=
  let b := Ascii.N_of_ascii c in
  if ((128 <=? b) && (b <? 192))%N then Some (b - 128)%N else None.

(** A code point as UTF-16: itself in the basic plane, a surrogate pair
    above it. *)
Definition utf16 (cp : N) : list N :=
  if (cp <? 65536)%N then [cp]
  else [(55296 + (cp - 65536) / 1024)%N; (56320 + (cp - 65536) mod 1024)%N].

(** A decoded value is accepted when it needs the length it was written in
    ([lo] is the least value of that length), is at most U+10FFFF and is no
    surrogate. *)
Definition scalar (lo cp : N) : bool :=
  ((lo <=? cp) && (cp <=? 1114111) && negb ((55296 <=? cp) && (cp <=? 57343)))%N.

(** The code units of a name. A byte that starts no well-formed sequence
    stands for no character of a JS string; it is read as U+FFFD so that
    the function is total. *)
Fixpoint codeUnits (s : string) : list N :=
  match s with
  | EmptyString => []
  | String c0 r0 =>
      let b0 := Ascii.N_of_ascii c0 in
      let replaced := 65533%N :: codeUnits r0 in
      if (b0 <? 128)%N then b0 :: codeUnits r0
      else
        match r0 with
        | String c1 r1 =>
            match continuation c1 with
            | Some x1 =>
                if (b0 <? 224)%N then
                  let cp := ((b0 - 192) * 64 + x1)%N in
                  if (192 <=? b0)%N && scalar 128 cp then cp :: codeUnits r1
                  else replaced
                else
                  match r1 with
                  | String c2 r2 =>
                      match continuation c2 with
                      | Some x2 =>
                          if (b0 <? 240)%N then
                            let cp := ((b0 - 224) * 4096 + x1 * 64 + x2)%N in
                            if scalar 2048 cp then cp :: codeUnits r2
                            else replaced
                          else
                            match r2 with
                            | String c3 r3 =>
                                match continuation c3 with
                                | Some x3 =>
                                    let cp := ((b0 - 240) * 262144 + x1 * 4096
                                               + x2 * 64 + x3)%N in
                                    if scalar 65536 cp
                                    then utf16 cp ++ codeUnits r3
                                    else replaced
                                | None => replaced
                                end
                            | EmptyString => replaced
                            end
                      | None => replaced
                      end
                  | EmptyString => replaced
                  end
            | None => replaced
            end
        | EmptyString => replaced
        end
  end.

Definition bytes (s : string) : list N :=
  Ascii.N_of_ascii <$> String.list_ascii_of_string s.

(** Lexicographic comparison: the first position that differs decides, and
    a proper prefix comes first. *)
Fixpoint lexCompare (l1 l2 : list N) : comparison :=
  match l1, l2 with
  | [], [] => Eq
  | [], _ :: _ => Lt
  | _ :: _, [] => Gt
  | x :: l1, y :: l2 =>
      match (x ?= y)%N with
      | Eq => lexCompare l1 l2
      | c => c
      end
  end.

(** The comparison [sort()] makes. Two names with the same code units are
    the same JS string; only byte strings that are not well-formed UTF-8
    can differ and yet decode alike, and those are told apart by their
    bytes, so that the comparison is an order on every [string]. On the
    encodings of JS strings the bytes play no part
    (lemma [compareStrings_exact]). *)
Definition compareStrings (s t : string) : comparison :=
  match lexCompare (codeUnits s) (codeUnits t) with
  | Eq => lexCompare (bytes s) (bytes t)
  | c => c
  end.

Definition sortLe (s t : string) : Prop := compareStrings s t ≠ Gt.

Global Instance sortLe_dec s t : Decision (sortLe s t).
Proof. unfold sortLe. apply _. Defined.

(** [commonBaseNames.sort()] *)
Definition sortStrings (l : list string) : list string := merge_sort sortLe l.

Definition matches (modelFiles : ModelFiles) (models : list ModelConfig)
    : completion (list string) :=
  if size modelFiles <? length models then Normal []
  else
    match models with
    | [] => Throw TypeError
    | m0 :: _ =>
        let firstModelFiles := default [] (modelFiles !! model_id m0) in
        let '(_, commonBaseNames) :=
          fold_left (matchStep modelFiles models (model_id m0)) firstModelFiles (∅, []) in
        Normal (sortStrings commonBaseNames)
    end.

Definition isReady (modelFiles : ModelFiles) (models : list ModelConfig)
    : completion bool :=
  ms ← matches modelFiles models;
  Normal ((0 <? length ms) && (size modelFiles =? length models)).

Definition mkSource (modelFiles : ModelFiles) (baseName : string) (m : ModelConfig)
    : completion VideoSource :=
  match modelFiles !! model_id m with
  | None => Throw TypeError
  | Some fs =>
      let file := List.find (fun f => String.eqb (getBaseName (file_name f)) baseName) fs in
      Normal {| src_modelId := model_id m;
                src_file := file;
                src_url := None;
                src_name := match file with Some f => file_name f | None => baseName end |}
  end.

Definition mkCase (modelFiles : ModelFiles) (models : list ModelConfig)
    (idx : nat) (baseName : string) : completion TestCase :=
  sources ← mapC (mkSource modelFiles baseName) models;
  Normal {| case_id := "case-" +:+ pretty (N.of_nat idx);
            case_name := baseName;
            case_sources := sources |}.

Fixpoint mkQueue (modelFiles : ModelFiles) (models : list ModelConfig)
    (idx : nat) (names : list string) : completion (list TestCase) :=
  match names with
  | [] => Normal []
  | b :: rest =>
      tc ← mkCase modelFiles models idx b;
      tcs ← mkQueue modelFiles models (S idx) rest;
      Normal (tc :: tcs)
  end.

(** [handleStart]: [None] when the guard returns early, otherwise the queue
    handed to [onStartEvaluation]. *)
Definition handleStart (modelFiles : ModelFiles) (models : list ModelConfig)
    : completion (option (list TestCase)) :=
  ms ← matches modelFiles models;
  match ms with
  | [] => Normal None
  | _ => queue ← mkQueue modelFiles models 0 ms; Normal (Some queue)
  end.

(** Specification vocabulary for the matcher. *)

(** [hasBase mf m b]: variant [m] has a loaded list that holds a file whose
    extension-stripped name is [b]. *)
Definition hasBase (modelFiles : ModelFiles) (m : ModelConfig) (b : string) : Prop :=
  ∃ fs f, modelFiles !! model_id m = Some fs ∧ f ∈ fs ∧ getBaseName (file_name f) = b.

(** [firstWithBase fs b f]: [f] is the first file of [fs] whose base name is [b]. *)
Definition firstWithBase (fs : list File) (b : string) (f : File) : Prop :=
  ∃ pre post, fs = pre ++ f :: post ∧ getBaseName (file_name f) = b ∧
    Forall (fun g => getBaseName (file_name g) ≠ b) pre.

(** [caseFor mf models b tc]: [tc] is named [b] and holds, for each variant
    in configuration order, the first file of that variant's list whose base
    name is [b]. *)
Definition caseFor (modelFiles : ModelFiles) (models : list ModelConfig)
    (b : string) (tc : TestCase) : Prop :=
  case_name tc = b ∧
  Forall2 (fun m src =>
    src_modelId src = model_id m ∧
    ∃ fs f, modelFiles !! model_id m = Some fs ∧ src_file src = Some f ∧
            src_name src = file_name f ∧ firstWithBase fs b f)
    models (case_sources tc).

(** The states of [modelFiles] the component can reach: it starts empty, and
    each card of the upload grid (one per configured model) offers
    [handleFolderSelect(model.id, e)] and [removeFiles(model.id)]. *)
Inductive reachable (mediaType : MediaType) (models : list ModelConfig)
    : ModelFiles → Prop :=
  | reach_init : reachable mediaType models ∅
  | reach_select mf m fileList :
      reachable mediaType models mf → m ∈ models →
      reachable mediaType models (handleFolderSelect mediaType (model_id m) fileList mf)
  | reach_remove mf m :
      reachable mediaType models mf → m ∈ models →
      reachable mediaType models (removeFiles (model_id m) mf).

(** ** videoStitcher.ts *)

(** Promise settlement. [Running] is a render loop cut off by the fuel of the
    model; [Pending] is a promise that nothing will ever settle. *)
Inductive outcome (A : Type) :=
  | Resolved (a : A)
  | Rejected (e : JSError)
  | Pending
  | Running.
Arguments Resolved {A} a.
Arguments Rejected {A} e.
Arguments Pending {A}.
Arguments Running {A}.

(** An encoded artifact: what [canvas.toBlob] or the recorder produced, with
    the pixel size of the canvas it was taken from. *)
Inductive Blob :=
  | ImageBlob (width height : N)
  | VideoBlob (mimeType : string) (width height : N) (frames : nat).

Record Artifact := { blob : Blob; extension : string }.

Inductive Event :=
  | CreateObjectURL (url : string)
  | RevokeObjectURL (url : string)
  | OnProgress (msg : string)
  | SetIsProcessingZip (b : bool)
  | SetZipProgress (msg : string)
  | StitchCall (caseName : string)
  | ZipFile (name : string) (b : Blob)
  | GenerateZip (entries : list (string * Blob))
  | Download (filename : string) (entries : list (string * Blob))
  | ConsoleError (msg : string)
  | Alert (msg : string).

(** The browser state the pipeline touches: the counter behind
    [URL.createObjectURL] and the log of observable effects, oldest first. *)
Record Browser := { next_url : nat; log : list Event }.

Definition emit (e : Event) (st : Browser) : Browser :=
  {| next_url := next_url st; log := log st ++ [e] |}.

Definition createObjectURL (st : Browser) : string * Browser :=
  let url := "blob:" +:+ pretty (N.of_nat (next_url st)) in
  (url, {| next_url := S (next_url st); log := log st ++ [CreateObjectURL url] |}).

Definition revokeObjectURL (url : string) (st : Browser) : Browser :=
  emit (RevokeObjectURL url) st.

(** How one media element's load ends: decoded with its natural size, failed
    (the [onerror] handler ran, at the given instant), or never answered. *)
Inductive LoadResult :=
  | Loaded (width height : N)
  | LoadFailed (time : nat)
  | LoadStalled.

Inductive RecorderState := recording | inactive.

(** What the stitcher asks of the browser. Frames of the render loop are
    numbered from 0 within one call. *)
Record Env := {
  env_load : VideoSource → LoadResult;
  env_getContext : N → N → bool;
  env_toBlob : N → N → bool;
  env_isTypeSupported : string → bool;
  env_ended : VideoSource → nat → bool;
  env_recorderState : list VideoSource → nat → RecorderState;
  env_generateAsync : list (string * Blob) → bool;
}.

(** A decoded [HTMLImageElement] or [HTMLVideoElement]: its [src] and its
    [naturalWidth]/[naturalHeight] (resp. [videoWidth]/[videoHeight]). *)
Record Media := {
  media_source : VideoSource;
  media_src : string;
  media_width : N;
  media_height : N;
}.

(** [src.file ? URL.createObjectURL(src.file) : (src.url || '')] *)
Definition sourceUrl (src : VideoSource) (st : Browser) : string * Browser :=
  match src_file src with
  | Some _ => createObjectURL st
  | None => (default "" (src_url src), st)
  end.

(** [sources.map(src => new Promise(...))]: every element is created, and
    every object URL allocated, before any load settles. *)
Fixpoint createElements (sources : list VideoSource) (st : Browser)
    : list (VideoSource * string) * Browser :=
  match sources with
  | [] => ([], st)
  | src :: rest =>
      let '(url, st1) := sourceUrl src st in
      let '(els, st2) := createElements rest st1 in
      ((src, url) :: els, st2)
  end.

(** The rejection [Promise.all] settles with: the earliest one. *)
Fixpoint firstFailure (env : Env) (els : list (VideoSource * string))
    : option (nat * VideoSource) :=
  match els with
  | [] => None
  | (src, _) :: rest =>
      let later := firstFailure env rest in
      match env_load env src with
      | LoadFailed t =>
          match later with
          | Some (t', src') => if t' <? t then Some (t', src') else Some (t, src)
          | None => Some (t, src)
          end
      | _ => later
      end
  end.

Fixpoint loadedMedia (env : Env) (els : list (VideoSource * string))
    : option (list Media) :=
  match els with
  | [] => Some []
  | (src, url) :: rest =>
      match env_load env src with
      | Loaded w h =>
          ms ← loadedMedia env rest;
          Some ({| media_source := src; media_src := url;
                   media_width := w; media_height := h |} :: ms)
      | _ => None
      end
  end.

(** [await Promise.all(loadPromises)] *)
Definition promiseAll (env : Env) (what : string) (els : list (VideoSource * string))
    : outcome (list Media) :=
  match firstFailure env els with
  | Some (_, src) => Rejected (Error ("Failed to load " +:+ what +:+ ": " +:+ src_name src))
  | None =>
      match loadedMedia env els with
      | Some ms => Resolved ms
      | None => Pending
      end
  end.

(** [images.reduce((acc, img) => acc + img.naturalWidth, 0)] *)
Definition totalWidth (ms : list Media) : N :=
  fold_left (fun acc m => (acc + media_width m)%N) ms 0%N.

(** [Math.max(...heights)] on a non-empty list of natural sizes. *)
Definition mathMax (ns : list N) : N := fold_right N.max 0%N ns.

(** [Math.max(...images.map(img => img.naturalHeight)) || 720] *)
Definition maxHeight (ms : list Media) : N :=
  let h := mathMax (media_height <$> ms) in
  if (h =? 0)%N then 720%N else h.

(** [images.forEach(img => { if (img.src.startsWith('blob:')) URL.revokeObjectURL(img.src) })] *)
Definition revokeAll (ms : list Media) (st : Browser) : Browser :=
  fold_left (fun st m =>
    if String.prefix "blob:" (media_src m) then revokeObjectURL (media_src m) st else st)
    ms st.

Definition progress (onProgress : option (string → list Event)) (msg : string)
    (st : Browser) : Browser :=
  match onProgress with
  | Some cb => {| next_url := next_url st; log := log st ++ cb msg |}
  | None => st
  end.

Definition stitchImages (env : Env) (sources : list VideoSource)
    (onProgress : option (string → list Event)) (st : Browser)
    : outcome Artifact * Browser :=
  let st := progress onProgress "Loading images..." st in
  let '(els, st) := createElements sources st in
  match promiseAll env "image" els with
  | Rejected e => (Rejected e, st)
  | Pending => (Pending, st)
  | Running => (Running, st)
  | Resolved images =>
      let width := totalWidth images in
      let height := maxHeight images in
      if negb (env_getContext env width height)
      then (Rejected (Error "Canvas context failed"), st)
      else if env_toBlob env width height
      then (Resolved {| blob := ImageBlob width height; extension := "png" |},
            revokeAll images st)
      else (Rejected (Error "Failed to create image blob"), st)
  end.

(** Video mode. *)

Definition mimeTypes : list string :=
  ["video/mp4"; "video/mp4;codecs=avc1"; "video/mp4;codecs=h264";
   "video/webm;codecs=h264"; "video/webm;codecs=vp9"; "video/webm"].

(** The [for ... break] over [mimeTypes], then the ['video/webm'] fallback. *)
Definition selectMimeType (env : Env) : string :=
  default "video/webm" (List.find (env_isTypeSupported env) mimeTypes).

(** [haystack.includes(needle)] *)
Fixpoint includes (needle haystack : string) : bool :=
  String.prefix needle haystack ||
  match haystack with
  | EmptyString => false
  | String _ rest => includes needle rest
  end.

Definition extensionOf (mimeType : string) : string :=
  if includes "mp4" mimeType then "mp4" else "webm".

(** What one run of [drawFrame] does after drawing. *)
Inductive FrameAction :=
  | Reschedule        (* requestAnimationFrame(drawFrame) *)
  | StopRecorder      (* recorder.stop(); return *)
  | Idle.             (* neither: the recorder is not recording *)

(** The tail of [drawFrame], at frame [n]:
    [if (recorder.state === 'recording') { if (videos.every(v => v.ended)) {...} ... }] *)
Definition drawFrame (env : Env) (sources : list VideoSource) (videos : list Media)
    (n : nat) : FrameAction :=
  match env_recorderState env sources n with
  | recording =>
      if forallb (fun v => env_ended env (media_source v) n) videos
      then StopRecorder
      else Reschedule
  | inactive => Idle
  end.

Inductive LoopResult :=
  | Stopped (frame : nat)     (* the code called [recorder.stop()] at this frame *)
  | Halted (frame : nat)      (* the loop ended without rescheduling or stopping *)
  | OutOfFuel.

(** The frame loop from frame [n] on, for at most [fuel] frames. *)
Fixpoint renderLoop (env : Env) (sources : list VideoSource) (videos : list Media)
    (fuel n : nat) : LoopResult :=
  match fuel with
  | 0 => OutOfFuel
  | S fuel' =>
      match drawFrame env sources videos n with
      | StopRecorder => Stopped n
      | Idle => Halted n
      | Reschedule => renderLoop env sources videos fuel' (S n)
      end
  end.

(** [recorder.onstop]: build the blob, revoke the object URLs, resolve. A
    recorder leaves the recording state only by being stopped, by the code or
    by the browser, and either way its [stop] event runs this handler. *)
Definition onstop (mimeType : string) (width height : N) (frames : nat)
    (videos : list Media) (st : Browser) : outcome Artifact * Browser :=
  (Resolved {| blob := VideoBlob mimeType width height frames;
               extension := extensionOf mimeType |},
   revokeAll videos st).

Definition stitchVideos (env : Env) (fuel : nat) (sources : list VideoSource)
    (onProgress : option (string → list Event)) (st : Browser)
    : outcome Artifact * Browser :=
  let '(els, st) := createElements sources st in
  let st := progress onProgress "Loading videos..." st in
  match promiseAll env "video" els with
  | Rejected e => (Rejected e, st)
  | Pending => (Pending, st)
  | Running => (Running, st)
  | Resolved videos =>
      let width := totalWidth videos in
      let height := maxHeight videos in
      if negb (env_getContext env width height)
      then (Rejected (Error "Could not get canvas context"), st)
      else
        let selectedMimeType := selectMimeType env in
        if negb (env_isTypeSupported env selectedMimeType)
        then (Rejected (DOMException "NotSupportedError"), st)
        else
          let st := progress onProgress "Rendering video..." st in
          match renderLoop env sources videos fuel 0 with
          | Stopped k => onstop selectedMimeType width height (S k) videos st
          | Halted k => onstop selectedMimeType width height k videos st
          | OutOfFuel => (Running, st)
          end
  end.

(** [stitchMedia(sources, models, mediaType, onProgress)]; [models] only
    decides the text of the labels drawn on the tiles. *)
Definition stitchMedia (env : Env) (fuel : nat) (sources : list VideoSource)
    (models : list ModelConfig) (mediaType : MediaType)
    (onProgress : option (string → list Event)) (st : Browser)
    : outcome Artifact * Browser :=
  match sources with
  | [] => (Rejected (Error "No sources provided"), st)
  | _ =>
      match mediaType with
      | image => stitchImages env sources onProgress st
      | video => stitchVideos env fuel sources onProgress st
      end
  end.

(** Specification vocabulary for the compositor: the natural size the
    browser reports for a source, and the sum and maximum over a list. *)
Definition naturalWidth (env : Env) (src : VideoSource) : N :=
  match env_load env src with Loaded w _ => w | _ => 0%N end.

Definition naturalHeight (env : Env) (src : VideoSource) : N :=
  match env_load env src with Loaded _ h => h | _ => 0%N end.

Definition sumWidths (env : Env) (sources : list VideoSource) : N :=
  foldr (fun src acc => (naturalWidth env src + acc)%N) 0%N sources.

Definition maxHeights (env : Env) (sources : list VideoSource) : N :=
  foldr (fun src acc => N.max (naturalHeight env src) acc) 0%N sources.

Definition allLoaded (env : Env) (sources : list VideoSource) : Prop :=
  Forall (fun src => ∃ w h, env_load env src = Loaded w h) sources.

Definition allEnded (env : Env) (videos : list Media) (n : nat) : Prop :=
  Forall (fun v => env_ended env (media_source v) n = true) videos.

(** ** App.tsx: batch export *)

(** [zip.file(name, blob)]: an entry of the same name is replaced. *)
Definition zipFile (name : string) (b : Blob) (zip : list (string * Blob))
    : list (string * Blob) :=
  filter (fun e => e.1 ≠ name) zip ++ [(name, b)].

(** [caseQueue.find(c => c.id === result.caseId)] *)
Definition findCase (caseQueue : list TestCase) (result : VoteResult) : option TestCase :=
  List.find (fun c => String.eqb (case_id c) (vote_caseId result)) caseQueue.

Definition processingMessage (i total : nat) (tc : TestCase) : string :=
  "Processing " +:+ pretty (N.of_nat (i + 1)) +:+ "/" +:+ pretty (N.of_nat total)
    +:+ ": " +:+ case_name tc.

Definition artifactName (tc : TestCase) (a : Artifact) : string :=
  getBaseName (case_name tc) +:+ "_comparison." +:+ extension a.

Inductive LoopExit :=
  | LoopDone (zip : list (string * Blob))
  | LoopThrew (e : JSError)
  | LoopStuck.                      (* an awaited promise never settles *)

(** The [for] loop of [handleBatchExportZip], from index [i] on. The
    [StitchCall] event marks the call of [stitchMedia]; the callback passed
    as [onProgress] does nothing. *)
Fixpoint batchLoop (env : Env) (fuel : nat) (caseQueue : list TestCase)
    (models : list ModelConfig) (mediaType : MediaType) (total i : nat)
    (repCases : list VoteResult) (zip : list (string * Blob)) (st : Browser)
    : LoopExit * Browser :=
  match repCases with
  | [] => (LoopDone zip, st)
  | result :: rest =>
      match findCase caseQueue result with
      | None => batchLoop env fuel caseQueue models mediaType total (S i) rest zip st
      | Some testCase =>
          let st := emit (SetZipProgress (processingMessage i total testCase)) st in
          let st := emit (StitchCall (case_name testCase)) st in
          match stitchMedia env fuel (case_sources testCase) models mediaType
                  (Some (fun _ => [])) st with
          | (Resolved a, st) =>
              let name := artifactName testCase a in
              batchLoop env fuel caseQueue models mediaType total (S i) rest
                (zipFile name (blob a) zip) (emit (ZipFile name (blob a)) st)
          | (Rejected e, st) => (LoopThrew e, st)
          | (_, st) => (LoopStuck, st)
          end
      end
  end.

Inductive BatchStatus :=
  | BatchReturned     (* the handler ran to its end *)
  | BatchStuck.       (* the handler is suspended forever in an [await] *)

Definition zipDownloadName (mediaType : MediaType) : string :=
  "Typical_Cases_" +:+ match mediaType with video => "Videos" | image => "Images" end
    +:+ ".zip".

(** [catch (e) { console.error(...); alert(...) }] *)
Definition batchCatch (st : Browser) : Browser :=
  emit (Alert "Failed to create batch export. Please try again.")
    (emit (ConsoleError "Batch export failed") st).

(** [finally { setIsProcessingZip(false); setZipProgress('') }] *)
Definition batchFinally (st : Browser) : Browser :=
  emit (SetZipProgress "") (emit (SetIsProcessingZip false) st).

Definition handleBatchExportZip (env : Env) (fuel : nat) (voteHistory : list VoteResult)
    (caseQueue : list TestCase) (models : list ModelConfig) (mediaType : MediaType)
    (st : Browser) : BatchStatus * Browser :=
  let repCases := List.filter vote_isRepresentative voteHistory in
  match repCases with
  | [] => (BatchReturned, st)
  | _ =>
      let st := emit (SetIsProcessingZip true) st in
      match batchLoop env fuel caseQueue models mediaType (length repCases) 0
              repCases [] st with
      | (LoopDone zip, st) =>
          let st := emit (SetZipProgress "Compressing archive...") st in
          let st := emit (GenerateZip zip) st in
          if env_generateAsync env zip then
            let '(url, st) := createObjectURL st in
            let st := emit (Download (zipDownloadName mediaType) zip) st in
            let st := revokeObjectURL url st in
            (BatchReturned, batchFinally st)
          else (BatchReturned, batchFinally (batchCatch st))
      | (LoopThrew _, st) => (BatchReturned, batchFinally (batchCatch st))
      | (LoopStuck, st) => (BatchStuck, st)
      end
  end.

(** The batch-level events of a log: everything except what [stitchMedia]
    itself logs (object URLs, its own progress callback). *)
Definition isBatchEvent (e : Event) : bool :=
  match e with
  | CreateObjectURL _ | RevokeObjectURL _ | OnProgress _ => false
  | _ => true
  end.

Definition batchView (evs : list Event) : list Event := List.filter isBatchEvent evs.

Definition isAlert (e : Event) : bool :=
  match e with Alert _ => true | _ => false end.

Definition isArchive (e : Event) : bool :=
  match e with GenerateZip _ | Download _ _ => true | _ => false end.

Definition stitchCalls (evs : list Event) : list string :=
  omap (fun e => match e with StitchCall n => Some n | _ => None end) evs.

(** The settlement of [stitchMedia] for a case; it does not depend on the
    browser state it starts from (lemma [stitchMedia_outcome]). *)
Definition stitchOutcome (env : Env) (fuel : nat) (models : list ModelConfig)
    (mediaType : MediaType) (tc : TestCase) : outcome Artifact :=
  (stitchMedia env fuel (case_sources tc) models mediaType (Some (fun _ => []))
     {| next_url := 0; log := [] |}).1.

(** What the batch view shows for one marked case that composites. *)
Definition caseEvents (env : Env) (fuel : nat) (caseQueue : list TestCase)
    (models : list ModelConfig) (mediaType : MediaType) (total : nat)
    (i : nat) (result : VoteResult) : list Event :=
  match findCase caseQueue result with
  | None => []
  | Some tc =>
      [SetZipProgress (processingMessage i total tc); StitchCall (case_name tc)] ++
      match stitchOutcome env fuel models mediaType tc with
      | Resolved a => [ZipFile (artifactName tc a) (blob a)]
      | _ => []
      end
  end.

(** ** ComparisonArena: the transport *)

(** A mounted [<video>]; [el_currentTime] holds the last value assigned to
    [video.currentTime]. Times are seconds, as rationals. *)
Record VideoElement := {
  el_currentTime : Q;
  el_playbackRate : Q;
  el_playing : bool;
}.

Record Arena := {
  isPlaying : bool;
  currentTime : Q;
  duration : Q;
  playbackRate : Q;
  videoRefs : list (option VideoElement);
}.

(** The state the reset effect leaves for a new case, for [n] tiles. *)
Definition arenaInit (rate : Q) (n : nat) : Arena :=
  {| isPlaying := false; currentTime := 0; duration := 0; playbackRate := rate;
     videoRefs := replicate n (Some {| el_currentTime := 0; el_playbackRate := rate;
                                       el_playing := false |}) |}.

Definition setCurrentTime (time : Q) (v : VideoElement) : VideoElement :=
  {| el_currentTime := time; el_playbackRate := el_playbackRate v;
     el_playing := el_playing v |}.

(** [handleSeek], with [time = parseFloat(e.target.value)]. *)
Definition handleSeek (mediaType : MediaType) (time : Q) (a : Arena) : Arena :=
  match mediaType with
  | image => a
  | video =>
      {| isPlaying := isPlaying a; currentTime := time; duration := duration a;
         playbackRate := playbackRate a;
         videoRefs := List.map (option_map (setCurrentTime time)) (videoRefs a) |}
  end.

(** The [max] attribute of the timeline slider: [duration || 100]. *)
Definition sliderMax (duration : Q) : Q :=
  if Qeq_bool duration 0 then 100 else duration.

(** The values the slider ([min="0"], [max={duration || 100}]) can hand to
    [handleSeek]. *)
Definition sliderValue (duration time : Q) : Prop :=
  (0 <= time)%Q ∧ (time <= sliderMax duration)%Q.

(** Specification vocabulary: [clamp(t, lo, hi)]. *)
Definition clamp (t lo hi : Q) : Q :=
  if Qlt_le_dec t lo then lo else if Qlt_le_dec hi t then hi else t.

(** ** ComparisonArena: the blind-mode shuffle *)

(** A computation whose only effect is calling the comparator
    [() => Math.random() - 0.5]: it ends with a value, or calls the
    comparator and goes on according to the sign of what it returned. *)
Inductive Rand (A : Type) :=
  | Ret (a : A)
  | Compare (neg zero pos : Rand A).
Arguments Ret {A} a.
Arguments Compare {A} neg zero pos.

Fixpoint rbind {A B} (c : Rand A) (k : A → Rand B) : Rand B :=
  match c with
  | Ret a => k a
  | Compare n z p => Compare (rbind n k) (rbind z k) (rbind p k)
  end.

(** [Array.prototype.sort] of the engine, run with that comparator. The
    language leaves the order it produces with an inconsistent comparator to
    the implementation, so the sort is a parameter. *)
Definition EngineSort := list ModelConfig → Rand (list ModelConfig).

(** The randomization branch of the reset effect:
    [isBlind ? [...models].sort(() => Math.random() - 0.5) : models]. *)
Definition displayModels (sort : EngineSort) (isBlind : bool) (models : list ModelConfig)
    : Rand (list ModelConfig) :=
  if isBlind then sort models else Ret models.

(** [Math.random()] is uniform over the [2^(S bits)] multiples of
    [2^-(S bits)] in [[0,1)]; so [Math.random() - 0.5] is negative for half
    of them, zero for one, positive for the others. *)
Definition pNeg : Q := 1 # 2.
Definition pZero (bits : nat) : Q := 1 # Pos.pow 2 (Pos.of_succ_nat bits).
Definition pPos (bits : nat) : Q := (1 # 2) - pZero bits.

(** The probability that the result satisfies [ev]. *)
Fixpoint prob {A} (bits : nat) (ev : A → bool) (c : Rand A) : Q :=
  match c with
  | Ret a => if ev a then 1 else 0
  | Compare n z p =>
      pNeg * prob bits ev n + pZero bits * prob bits ev z + pPos bits * prob bits ev p
  end.

(** The event: variant [v] is shown at position [pos]. *)
Definition shownAt (v : ModelConfig) (pos : nat) (l : list ModelConfig) : bool :=
  bool_decide (l !! pos = Some v).

(** One engine: straight insertion sort, as engines use for short arrays.
    [insertFromRight x rp] inserts [x] into the already placed prefix, held
    right to left in [rp]: while [comparefn(tmp, element) > 0] the element
    moves one place left. *)
Fixpoint insertFromRight (x : ModelConfig) (rp : list ModelConfig)
    : Rand (list ModelConfig) :=
  match rp with
  | [] => Ret [x]
  | tmp :: rp' =>
      Compare (Ret (x :: rp)) (Ret (x :: rp))
              (rbind (insertFromRight x rp') (fun r => Ret (tmp :: r)))
  end.

Fixpoint insertAll (rp : list ModelConfig) (rest : list ModelConfig)
    : Rand (list ModelConfig) :=
  match rest with
  | [] => Ret (reverse rp)
  | x :: rest' => rbind (insertFromRight x rp) (fun rp' => insertAll rp' rest')
  end.

Definition insertionSort : EngineSort := insertAll [].

(** ** SetupScreen: the model list *)

Definition initialModels : list ModelConfig :=
  [ {| model_id := "m1"; model_name := "Baseline (v1.0)"; model_color := "#6366f1" |};
    {| model_id := "m2"; model_name := "Experimental (v1.1)"; model_color := "#ec4899" |} ].

(** [addModel], with [now = Date.now()]. *)
Definition addModel (now : N) (models : list ModelConfig) : list ModelConfig :=
  if length models <? MAX_MODELS then
    let idx := length models in
    models ++
    [ {| model_id := "m" +:+ pretty now;
         model_name := "Model " +:+ String (ascii_of_nat (65 + idx)) EmptyString;
         model_color := default "" (MODEL_COLORS !! (idx mod length MODEL_COLORS)) |} ]
  else models.

(** [a.splice(index, 1)]: a negative [index] counts from the end, and an
    index past the end removes nothing. *)
Definition splice1 {A} (index : Z) (l : list A) : list A :=
  let len := Z.of_nat (length l) in
  let start := if (index <? 0)%Z then Z.max (len + index) 0 else Z.min index len in
  delete (Z.to_nat start) l.

Definition removeModel (index : Z) (models : list ModelConfig) : list ModelConfig :=
  if MIN_MODELS <? length models then splice1 index models else models.

(** [updateName]; an index outside the list raises ([newModels[index]] is
    [undefined]). *)
Definition updateName (index : nat) (name : string) (models : list ModelConfig)
    : completion (list ModelConfig) :=
  match models !! index with
  | None => Throw TypeError
  | Some m =>
      Normal (<[index := {| model_id := model_id m; model_name := name;
                            model_color := model_color m |}]> models)
  end.

Inductive SetupAction :=
  | AddModel (now : N)
  | RemoveModel (index : Z)
  | UpdateName (index : nat) (name : string).

(** One user action on the setup screen; a handler that raises leaves the
    state as it was. *)
Definition setupStep (models : list ModelConfig) (a : SetupAction) : list ModelConfig :=
  match a with
  | AddModel now => addModel now models
  | RemoveModel index => removeModel index models
  | UpdateName index name =>
      match updateName index name models with
      | Normal models' => models'
      | Throw _ => models
      end
  end.

(** The list [onComplete(models, mediaType, isBlind)] hands to the session
    after the given actions. *)
Definition configuredModels (actions : list SetupAction) : list ModelConfig :=
  fold_left setupStep actions initialModels.

(** The height the canvas gets: the [|| 720] fallback replaces a zero
    maximum. *)
Definition canvasHeight (env : Env) (sources : list VideoSource) : N :=
  if (maxHeights env sources =? 0)%N then 720%N else maxHeights env sources.

(** ** Sample data *)

Definition modelA : ModelConfig :=
  {| model_id := "a"; model_name := "A"; model_color := "#6366f1" |}.
Definition modelB : ModelConfig :=
  {| model_id := "b"; model_name := "B"; model_color := "#ec4899" |}.

Definition mkFile (name type : string) (h : nat) : File :=
  {| file_name := name; file_type := type; file_handle := h |}.

Definition fileSource (modelId : string) (f : File) : VideoSource :=
  {| src_modelId := modelId; src_file := Some f; src_url := None;
     src_name := file_name f |}.

Definition sourceA : VideoSource := fileSource "a" (mkFile "x.png" "image/png" 0).
Definition sourceB : VideoSource := fileSource "b" (mkFile "x.jpg" "image/jpeg" 1).

Definition browser0 : Browser := {| next_url := 0; log := [] |}.

(** A browser in which everything works: source [a] is 100x50 and ends
    before frame 2, every other source is 200x50 and ends before frame 4. *)
Definition sampleEnv : Env :=
  {| env_load := fun s =>
       if String.eqb (src_modelId s) "a" then Loaded 100 50 else Loaded 200 50;
     env_getContext := fun _ _ => true;
     env_toBlob := fun _ _ => true;
     env_isTypeSupported := fun _ => true;
     env_ended := fun s n => if String.eqb (src_modelId s) "a" then 2 <=? n else 4 <=? n;
     env_recorderState := fun _ _ => recording;
     env_generateAsync := fun _ => true |}.

(** The same browser with other answers for decoding. *)
Definition withLoad (load : VideoSource → LoadResult) (env : Env) : Env :=
  {| env_load := load;
     env_getContext := env_getContext env;
     env_toBlob := env_toBlob env;
     env_isTypeSupported := env_isTypeSupported env;
     env_ended := env_ended env;
     env_recorderState := env_recorderState env;
     env_generateAsync := env_generateAsync env |}.

(** Source [a] decodes to 100x0 (no intrinsic height). *)
Definition flatEnv : Env := withLoad (fun _ => Loaded 100 0) sampleEnv.

(** Source [b] fails to decode; source [a] is fine. *)
Definition brokenEnv : Env :=
  withLoad (fun s => if String.eqb (src_modelId s) "a" then Loaded 100 50
                     else LoadFailed 0) sampleEnv.

(** The same browser with a recorder that is no longer recording. *)
Definition stoppedRecorderEnv : Env :=
  {| env_load := env_load sampleEnv;
     env_getContext := env_getContext sampleEnv;
     env_toBlob := env_toBlob sampleEnv;
     env_isTypeSupported := env_isTypeSupported sampleEnv;
     env_ended := env_ended sampleEnv;
     env_recorderState := fun _ _ => inactive;
     env_generateAsync := env_generateAsync sampleEnv |}.

Definition mediaOf (src : VideoSource) (url : string) (w h : N) : Media :=
  {| media_source := src; media_src := url; media_width := w; media_height := h |}.

Definition sampleVideos : list Media :=
  [mediaOf sourceA "blob:0" 100 50; mediaOf sourceB "blob:1" 200 50].

(** [pow2 m] is [2^m]. *)
Definition pow2 (m : nat) : positive := Nat.iter m xO 1%positive.

(** A rational with a power of two as denominator. *)
Definition dyadic (q : Q) : Prop := ∃ (k : Z) (m : nat), (q == k # pow2 m)%Q.

Definition modelC : ModelConfig :=
  {| model_id := "c"; model_name := "C"; model_color := "#10b981" |}.

(** What the batch view shows for the marked cases [reps], the first of them
    at position [i]. *)
Fixpoint batchEvents (env : Env) (fuel : nat) (caseQueue : list TestCase)
    (models : list ModelConfig) (mediaType : MediaType) (total i : nat)
    (reps : list VoteResult) : list Event :=
  match reps with
  | [] => []
  | r :: rest =>
      caseEvents env fuel caseQueue models mediaType total i r ++
      batchEvents env fuel caseQueue models mediaType total (S i) rest
  end.

(** A marked case that is absent from the queue or whose composite resolves. *)
Definition composites (env : Env) (fuel : nat) (caseQueue : list TestCase)
    (models : list ModelConfig) (mediaType : MediaType) (r : VoteResult) : Prop :=
  ∀ tc, findCase caseQueue r = Some tc →
        ∃ a, stitchOutcome env fuel models mediaType tc = Resolved a.

(** The end-to-end scenario: variants [a] and [b], folder [a] holding
    [x.mp4], folder [b] holding [x.mov] and [y.mp4]. *)
Definition sampleFiles : ModelFiles :=
  handleFolderSelect video "b"
    [mkFile "x.mov" "video/quicktime" 1; mkFile "y.mp4" "video/mp4" 2]
    (handleFolderSelect video "a" [mkFile "x.mp4" "video/mp4" 0] ∅).

(** Three marked image cases; in [batchEnv] the file [y.jpg] of the second
    one does not decode. *)
Definition imageCase (idx : nat) (name : string) : TestCase :=
  {| case_id := "case-" +:+ pretty (N.of_nat idx);
     case_name := name;
     case_sources :=
       [fileSource "a" (mkFile (name +:+ ".png") "image/png" (2 * idx));
        fileSource "b" (mkFile (name +:+ ".jpg") "image/jpeg" (2 * idx + 1))] |}.

Definition sampleQueue : list TestCase :=
  [imageCase 0 "x"; imageCase 1 "y"; imageCase 2 "z"].

Definition markedVote (tc : TestCase) : VoteResult :=
  {| vote_caseId := case_id tc; vote_caseName := case_name tc;
     vote_isRepresentative := true |}.

Definition batchEnv : Env :=
  withLoad (fun s => if String.eqb (src_name s) "y.jpg" then LoadFailed 0
                     else Loaded 100 50) sampleEnv.

(** ** Further vocabulary *)

(** An extension the pattern [/\.[^/.]+$/] strips: not empty, and free of
    dots and slashes. *)
Definition plainExtension (ext : string) : Prop :=
  ext ≠ "" ∧
  Forall (fun c => c ≠ "."%char ∧ c ≠ "/"%char) (String.list_ascii_of_string ext).

Definition dotFree (s : string) : Prop :=
  Forall (fun c => c ≠ "."%char) (String.list_ascii_of_string s).

(** *** The matcher, in the words of the specification *)

(** [baseNameOf name b]: [b] is the file name [name] with its trailing
    extension removed. A trailing extension is a final dot together with
    the plain extension that follows it; a name that does not end in one is
    its own base name. Nothing here refers to [getBaseName]. *)
Inductive baseNameOf : string → string → Prop :=
  | base_stripped stem ext :
      plainExtension ext → baseNameOf (stem +:+ "." +:+ ext) stem
  | base_whole name :
      (∀ stem ext, plainExtension ext → name ≠ stem +:+ "." +:+ ext) →
      baseNameOf name name.

(** [offers mf m b]: base name [b] occurs in the list of variant [m]. *)
Definition offers (modelFiles : ModelFiles) (m : ModelConfig) (b : string) : Prop :=
  ∃ fs f, modelFiles !! model_id m = Some fs ∧ f ∈ fs ∧ baseNameOf (file_name f) b.

(** [firstOffer fs b f]: [f] is the first file of [fs] with base name [b]. *)
Definition firstOffer (fs : list File) (b : string) (f : File) : Prop :=
  ∃ pre post, fs = pre ++ f :: post ∧ baseNameOf (file_name f) b ∧
    Forall (fun g => ¬ baseNameOf (file_name g) b) pre.

(** [matchedCase mf models b tc]: the case [tc] is named [b] and assigns to
    each variant, in configuration order, the first file of that variant's
    list with base name [b], under the file's own name. *)
Definition matchedCase (modelFiles : ModelFiles) (models : list ModelConfig)
    (b : string) (tc : TestCase) : Prop :=
  case_name tc = b ∧
  Forall2 (fun m src =>
    src_modelId src = model_id m ∧
    ∃ fs f, modelFiles !! model_id m = Some fs ∧ src_file src = Some f ∧
            src_name src = file_name f ∧ firstOffer fs b f)
    models (case_sources tc).

(** The UTF-8 encoding of a code point and of a JS string given by its code
    points, against which the decoder [codeUnits] is checked. *)
Definition utf8 (cp : N) : string :=
  let byte n := String (Ascii.ascii_of_N n) in
  if (cp <? 128)%N then byte cp ""
  else if (cp <? 2048)%N then
    byte (192 + cp / 64)%N (byte (128 + cp mod 64)%N "")
  else if (cp <? 65536)%N then
    byte (224 + cp / 4096)%N
      (byte (128 + (cp / 64) mod 64)%N (byte (128 + cp mod 64)%N ""))
  else
    byte (240 + cp / 262144)%N
      (byte (128 + (cp / 4096) mod 64)%N
         (byte (128 + (cp / 64) mod 64)%N (byte (128 + cp mod 64)%N ""))).

Definition encode (cps : list N) : string :=
  foldr (fun cp s => utf8 cp +:+ s) "" cps.

(** A Unicode scalar value: at most U+10FFFF and no surrogate. *)
Definition isScalar (cp : N) : Prop := scalar 0 cp = true.

(** Lexicographic order of two names as JS strings, that is, by UTF-16 code
    units. *)
Definition codeUnitLe (s t : string) : Prop :=
  lexCompare (codeUnits s) (codeUnits t) ≠ Gt.

(** Names outside ASCII: U+1F600 (code units D83D DE00) and U+FF61 (code
    unit FF61); in bytes the former, F0 9F 98 80, is the larger, in code
    units the latter. Folder [a] holds two files of base name [z]. *)
Definition unicodeFiles : ModelFiles :=
  handleFolderSelect video "b"
    [mkFile "z.mov" "video/quicktime" 4; mkFile "｡.mov" "video/quicktime" 5;
     mkFile "😀.webm" "video/webm" 6; mkFile "only-b.mp4" "video/mp4" 7]
    (handleFolderSelect video "a"
       [mkFile "｡.mp4" "video/mp4" 0; mkFile "😀.mp4" "video/mp4" 1;
        mkFile "z.mp4" "video/mp4" 2; mkFile "z.webm" "video/webm" 3] ∅).

(** The progress notifications and the calls of [stitchMedia]: the events
    whose order the batch protocol fixes. *)
Definition isProtocolEvent (e : Event) : bool :=
  match e with SetZipProgress _ | StitchCall _ => true | _ => false end.

(** Two states of [modelFiles] that hold, folder by folder, the same files in
    some order. *)
Definition sameFolders (mf mf' : ModelFiles) : Prop :=
  ∀ k, option_Forall2 (≡ₚ) (mf !! k) (mf' !! k).

Definition createdUrls (evs : list Event) : list string :=
  omap (fun e => match e with CreateObjectURL u => Some u | _ => None end) evs.

Definition revokedUrls (evs : list Event) : list string :=
  omap (fun e => match e with RevokeObjectURL u => Some u | _ => None end) evs.

(** A progress callback that touches no object URL. *)
Definition quietCallback (onProgress : option (string → list Event)) : Prop :=
  ∀ cb msg, onProgress = Some cb → createdUrls (cb msg) = [] ∧ revokedUrls (cb msg) = [].

Definition sourcesEnded (env : Env) (sources : list VideoSource) (n : nat) : Prop :=
  Forall (fun src => env_ended env src n = true) sources.

Definition mp4Types : list string :=
  ["video/mp4"; "video/mp4;codecs=avc1"; "video/mp4;codecs=h264"].

(** The archive the loop has built after the marked cases [reps], all of
    which composite, starting from [zip]. *)
Fixpoint batchZip (env : Env) (fuel : nat) (caseQueue : list TestCase)
    (models : list ModelConfig) (mediaType : MediaType)
    (reps : list VoteResult) (zip : list (string * Blob)) : list (string * Blob) :=
  match reps with
  | [] => zip
  | r :: rest =>
      match findCase caseQueue r with
      | None => batchZip env fuel caseQueue models mediaType rest zip
      | Some tc =>
          match stitchOutcome env fuel models mediaType tc with
          | Resolved a =>
              batchZip env fuel caseQueue models mediaType rest
                (zipFile (artifactName tc a) (blob a) zip)
          | _ => zip
          end
      end
  end.

Definition isDownload (e : Event) : bool :=
  match e with Download _ _ => true | _ => false end.

Definition isProcessingEnd (e : Event) : bool :=
  match e with SetIsProcessingZip false => true | _ => false end.

(** A browser in which the archive cannot be generated. *)
Definition noZipEnv : Env :=
  {| env_load := env_load sampleEnv;
     env_getContext := env_getContext sampleEnv;
     env_toBlob := env_toBlob sampleEnv;
     env_isTypeSupported := env_isTypeSupported sampleEnv;
     env_ended := env_ended sampleEnv;
     env_recorderState := env_recorderState sampleEnv;
     env_generateAsync := fun _ => false |}.

(** A browser in which the file [y.jpg] never answers. *)
Definition stallEnv : Env :=
  withLoad (fun s => if String.eqb (src_name s) "y.jpg" then LoadStalled
                     else Loaded 100 50) sampleEnv.

(** The [Date.now()] values of the [addModel] calls among the actions. *)
Definition timestamps (actions : list SetupAction) : list N :=
  omap (fun a => match a with AddModel now => Some now | _ => None end) actions.

(** ** ComparisonArena: the other transport handlers *)

Definition setPlaying (b : bool) (v : VideoElement) : VideoElement :=
  {| el_currentTime := el_currentTime v; el_playbackRate := el_playbackRate v;
     el_playing := b |}.

Definition setPlaybackRate (rate : Q) (v : VideoElement) : VideoElement :=
  {| el_currentTime := el_currentTime v; el_playbackRate := rate;
     el_playing := el_playing v |}.

(** [togglePlay]: [video.play()] or [video.pause()] on every mounted element. *)
Definition togglePlay (mediaType : MediaType) (a : Arena) : Arena :=
  match mediaType with
  | image => a
  | video =>
      let nextState := negb (isPlaying a) in
      {| isPlaying := nextState; currentTime := currentTime a; duration := duration a;
         playbackRate := playbackRate a;
         videoRefs := List.map (option_map (setPlaying nextState)) (videoRefs a) |}
  end.

(** [changePlaybackRate] *)
Definition changePlaybackRate (mediaType : MediaType) (rate : Q) (a : Arena) : Arena :=
  match mediaType with
  | image => a
  | video =>
      {| isPlaying := isPlaying a; currentTime := currentTime a; duration := duration a;
         playbackRate := rate;
         videoRefs := List.map (option_map (setPlaybackRate rate)) (videoRefs a) |}
  end.

(** The click handler of the Reset button:
    [setIsPlaying(false); setCurrentTime(0); videoRefs.current.forEach(v => v && (v.currentTime = 0))]. *)
Definition resetPlayback (a : Arena) : Arena :=
  {| isPlaying := false; currentTime := 0; duration := duration a;
     playbackRate := playbackRate a;
     videoRefs := List.map (option_map (setCurrentTime 0)) (videoRefs a) |}.

(** The transport and its elements agree on whether the media plays. *)
Definition playSynced (a : Arena) : Prop :=
  ∀ v, Some v ∈ videoRefs a → el_playing v = isPlaying a.

(** ** ComparisonArena: what a tile shows *)

Definition BLIND_PALETTE : list string :=
  ["#3b82f6"; "#f43f5e"; "#eab308"; "#22c55e"; "#a855f7"].

(** [displayName] and [displayColor] of the tile at position [idx]. *)
Definition tileLabel (isBlind : bool) (idx : nat) (model : ModelConfig) : string * string :=
  if isBlind
  then ("Option " +:+ pretty (N.of_nat (idx + 1)),
        default "" (BLIND_PALETTE !! (idx mod length BLIND_PALETTE)))
  else (model_name model, model_color model).

Definition tileLabels (isBlind : bool) (displayed : list ModelConfig)
    : list (string * string) :=
  imap (tileLabel isBlind) displayed.

(** ** ComparisonArena: the object URLs of the displayed case *)

(** One iteration of the effect on [testCase], which fills [urls]. *)
Definition loadUrlStep (acc : gmap string string * Browser) (src : VideoSource)
    : gmap string string * Browser :=
  let '(urls, st) := acc in
  match src_file src with
  | Some _ => let '(url, st') := createObjectURL st in (<[src_modelId src := url]> urls, st')
  | None =>
      match src_url src with
      | Some u => if String.eqb u "" then (urls, st) else (<[src_modelId src := u]> urls, st)
      | None => (urls, st)
      end
  end.

(** The body of the effect: returns [urls] ([srcUrls]). *)
Definition loadUrls (sources : list VideoSource) (st : Browser)
    : gmap string string * Browser :=
  fold_left loadUrlStep sources (∅, st).

(** One iteration of the cleanup:
    [if (src.file && urls[src.modelId]) URL.revokeObjectURL(urls[src.modelId])]. *)
Definition cleanupStep (urls : gmap string string) (st : Browser) (src : VideoSource)
    : Browser :=
  match src_file src, urls !! src_modelId src with
  | Some _, Some url => if String.eqb url "" then st else revokeObjectURL url st
  | _, _ => st
  end.

(** The cleanup the effect returns. *)
Definition cleanupUrls (urls : gmap string string) (sources : list VideoSource)
    (st : Browser) : Browser :=
  fold_left (cleanupStep urls) sources st.

Definition hasFile (src : VideoSource) : bool :=
  match src_file src with Some _ => true | None => false end.

(** ** App.tsx: the session *)

Inductive AppStage := SETUP | UPLOAD | ARENA | RESULTS.

Record App := {
  stage : AppStage;
  app_models : list ModelConfig;
  app_mediaType : MediaType;
  app_isBlind : bool;
  caseQueue : list TestCase;
  currentCaseIndex : nat;
  voteHistory : list VoteResult;
}.

Definition appInit : App :=
  {| stage := SETUP; app_models := []; app_mediaType := video; app_isBlind := false;
     caseQueue := []; currentCaseIndex := 0; voteHistory := [] |}.

Definition handleSetupComplete (config : list ModelConfig) (type : MediaType)
    (blindMode : bool) (s : App) : App :=
  {| stage := UPLOAD; app_models := config; app_mediaType := type;
     app_isBlind := blindMode; caseQueue := caseQueue s;
     currentCaseIndex := currentCaseIndex s; voteHistory := voteHistory s |}.

Definition handleStartQueue (queue : list TestCase) (s : App) : App :=
  {| stage := ARENA; app_models := app_models s; app_mediaType := app_mediaType s;
     app_isBlind := app_isBlind s; caseQueue := queue; currentCaseIndex := 0;
     voteHistory := [] |}.

(** [handleNextVote]; the test is [currentCaseIndex < caseQueue.length - 1]. *)
Definition handleNextVote (result : VoteResult) (s : App) : App :=
  let newHistory := voteHistory s ++ [result] in
  if (Z.of_nat (currentCaseIndex s) <? Z.of_nat (length (caseQueue s)) - 1)%Z
  then {| stage := stage s; app_models := app_models s;
          app_mediaType := app_mediaType s; app_isBlind := app_isBlind s;
          caseQueue := caseQueue s; currentCaseIndex := currentCaseIndex s + 1;
          voteHistory := newHistory |}
  else {| stage := RESULTS; app_models := app_models s;
          app_mediaType := app_mediaType s; app_isBlind := app_isBlind s;
          caseQueue := caseQueue s; currentCaseIndex := currentCaseIndex s;
          voteHistory := newHistory |}.

(** [handleReset], with [confirmed] the answer of [window.confirm]. *)
Definition handleReset (confirmed : bool) (s : App) : App :=
  if confirmed
  then {| stage := SETUP; app_models := []; app_mediaType := app_mediaType s;
          app_isBlind := false; caseQueue := []; currentCaseIndex := currentCaseIndex s;
          voteHistory := [] |}
  else s.

(** [handleConfirm] of the arena showing [testCase]: nothing without a
    selected winner, otherwise the vote handed to [onNext]. *)
Definition handleConfirm (testCase : TestCase) (selectedWinner : option string)
    (isRepresentative : bool) : option VoteResult :=
  match selectedWinner with
  | None => None
  | Some _ =>
      Some {| vote_caseId := case_id testCase; vote_caseName := case_name testCase;
              vote_isRepresentative := isRepresentative |}
  end.

(** What the user can do, through the component each stage renders. *)
Inductive AppAction :=
  | CompleteSetup (actions : list SetupAction) (type : MediaType) (blindMode : bool)
  | StartEvaluation (modelFiles : ModelFiles)
  | ConfirmVote (selectedWinner : option string) (isRepresentative : bool)
  | Reset (confirmed : bool).

Definition stage_eqb (a b : AppStage) : bool :=
  match a, b with
  | SETUP, SETUP | UPLOAD, UPLOAD | ARENA, ARENA | RESULTS, RESULTS => true
  | _, _ => false
  end.

(** One user action. The setup screen is rendered in stage [SETUP], the
    upload zone in [UPLOAD], the arena in [ARENA] when the queue is not
    empty (it reads [caseQueue[currentCaseIndex]] and raises when that is
    [undefined]), the reset button outside [SETUP]. *)
Definition appStep (s : App) (a : AppAction) : completion App :=
  match a with
  | CompleteSetup actions type blindMode =>
      if stage_eqb (stage s) SETUP
      then Normal (handleSetupComplete (configuredModels actions) type blindMode s)
      else Normal s
  | StartEvaluation modelFiles =>
      if stage_eqb (stage s) UPLOAD
      then started ← handleStart modelFiles (app_models s);
           match started with
           | Some queue => Normal (handleStartQueue queue s)
           | None => Normal s
           end
      else Normal s
  | ConfirmVote selectedWinner isRepresentative =>
      if stage_eqb (stage s) ARENA && (0 <? length (caseQueue s))
      then match caseQueue s !! currentCaseIndex s with
           | None => Throw TypeError
           | Some testCase =>
               match handleConfirm testCase selectedWinner isRepresentative with
               | Some result => Normal (handleNextVote result s)
               | None => Normal s
               end
           end
      else Normal s
  | Reset confirmed =>
      if stage_eqb (stage s) SETUP then Normal s else Normal (handleReset confirmed s)
  end.

Fixpoint appRun (actions : list AppAction) (s : App) : completion App :=
  match actions with
  | [] => Normal s
  | a :: rest => s' ← appStep s a; appRun rest s'
  end.

(** A vote cast on a case. *)
Definition voteOf (v : VoteResult) (tc : TestCase) : Prop :=
  vote_caseId v = case_id tc ∧ vote_caseName v = case_name tc.

Definition numberedQueue (queue : list TestCase) : Prop :=
  ∀ i tc, queue !! i = Some tc → case_id tc = "case-" +:+ pretty (N.of_nat i).

(** What holds of the session in each stage. *)
Definition appInv (s : App) : Prop :=
  match stage s with
  | SETUP => caseQueue s = [] ∧ voteHistory s = []
  | UPLOAD =>
      MIN_MODELS ≤ length (app_models s) ≤ MAX_MODELS ∧
      caseQueue s = [] ∧ voteHistory s = []
  | ARENA =>
      MIN_MODELS ≤ length (app_models s) ≤ MAX_MODELS ∧
      numberedQueue (caseQueue s) ∧
      currentCaseIndex s < length (caseQueue s) ∧
      Forall2 voteOf (voteHistory s) (take (currentCaseIndex s) (caseQueue s))
  | RESULTS =>
      MIN_MODELS ≤ length (app_models s) ≤ MAX_MODELS ∧
      numberedQueue (caseQueue s) ∧
      caseQueue s ≠ [] ∧
      Forall2 voteOf (voteHistory s) (caseQueue s)
  end.

(** A session: the two initial models, image mode, one matched case [x],
    one vote. *)
Definition sessionFiles : ModelFiles :=
  handleFolderSelect image "m2" [mkFile "x.jpg" "image/jpeg" 1]
    (handleFolderSelect image "m1" [mkFile "x.png" "image/png" 0] ∅).

Definition sessionActions : list AppAction :=
  [CompleteSetup [] image false; StartEvaluation sessionFiles;
   ConfirmVote (Some "m1") true].

(** The extensions the filter of [handleFolderSelect] falls back on. *)
Definition mediaExtensions (mediaType : MediaType) : list string :=
  match mediaType with
  | video => ["mp4"; "webm"; "mov"; "mkv"; "avi"]
  | image => ["jpg"; "jpeg"; "png"; "webp"; "gif"; "bmp"]
  end.

Definition mimePrefixOf (mediaType : MediaType) : string :=
  match mediaType with video => "video/" | image => "image/" end.

(** * Properties *)

Example getBaseName_mp4 : getBaseName "x.mp4" = "x".
Proof. reflexivity. Qed.
Example getBaseName_two_dots : getBaseName "a.b.c" = "a.b".
Proof. reflexivity. Qed.
Example getBaseName_trailing_dot : getBaseName "a." = "a.".
Proof. reflexivity. Qed.
Example getBaseName_slash : getBaseName "a.b/c" = "a.b/c".
Proof. reflexivity. Qed.

(** ** The matcher *)

Lemma someHasBase_true mf m b :
  someHasBase mf (model_id m) b = true ↔ hasBase mf m b.
Proof.
  unfold someHasBase, hasBase. destruct (mf !! model_id m) as [fs|] eqn:E.
  - rewrite existsb_exists. split.
    + intros (f & Hin & Heq). exists fs, f. split_and!; [done| |].
      * by apply list_elem_of_In.
      * by apply String.eqb_eq.
    + intros (fs' & f & [= <-] & Hin & Heq). exists f. split.
      * by apply list_elem_of_In.
      * by apply String.eqb_eq.
  - split; [done|]. by intros (? & ? & ? & _).
Qed.

Lemma existsInAll_true mf models firstId b :
  existsInAll mf models firstId b = true ↔
  ∀ m, m ∈ models → model_id m = firstId ∨ hasBase mf m b.
Proof.
  unfold existsInAll. rewrite forallb_forall. split.
  - intros H m Hm. apply list_elem_of_In, H in Hm.
    destruct (String.eqb_spec (model_id m) firstId); [by left|right].
    by apply someHasBase_true.
  - intros H m Hm. apply list_elem_of_In, H in Hm.
    destruct (String.eqb_spec (model_id m) firstId); [done|].
    destruct Hm as [?|?]; [done|]. by apply someHasBase_true.
Qed.

Section match_loop.
Variables (mf : ModelFiles) (models : list ModelConfig) (firstId : string).

Let step := matchStep mf models firstId.
Let base (f : File) := getBaseName (file_name f).

Lemma matchStep_loop fs P C :
  NoDup C → (∀ b, b ∈ C → b ∈ P) →
  let '(P', C') := fold_left step fs (P, C) in
  NoDup C' ∧ (∀ b, b ∈ C' → b ∈ P') ∧
  (∀ b, b ∈ C' ↔
     b ∈ C ∨ ((b ∉ P) ∧ b ∈ (base <$> fs) ∧ existsInAll mf models firstId b = true)).
Proof.
  revert P C. induction fs as [|f fs IH]; intros P C HC HP; cbn [fold_left].
  { split_and!; [done..|]. intros b. rewrite fmap_nil, elem_of_nil. naive_solver. }
  replace (step (P, C) f) with (matchStep mf models firstId (P, C) f) by done.
  unfold matchStep. fold (base f).
  destruct (decide (base f ∈ P)) as [Hin|Hin].
  - specialize (IH P C HC HP). destruct (fold_left step fs (P, C)) as [P' C'].
    destruct IH as (? & ? & IH). split_and!; [done..|].
    intros b. rewrite IH, fmap_cons, elem_of_cons. naive_solver.
  - destruct (existsInAll mf models firstId (base f)) eqn:Hex.
    + specialize (IH (P ∪ {[base f]}) (C ++ [base f])).
      destruct (fold_left step fs _) as [P' C'].
      destruct IH as (? & ? & IH).
      { apply NoDup_app. split_and!; [done| |apply NoDup_singleton].
        intros b Hb ->%list_elem_of_singleton. by apply Hin, HP. }
      { intros b [?| ->%list_elem_of_singleton]%elem_of_app; set_solver. }
      split_and!; [done..|]. intros b.
      rewrite IH, fmap_cons, elem_of_app, list_elem_of_singleton, elem_of_cons.
      rewrite not_elem_of_union, not_elem_of_singleton. split.
      * intros [[?|?]|((? & ?) & ? & ?)]; [by left|right|right].
        -- subst b. split_and!; [done|by left|done].
        -- split_and!; auto.
      * intros [?|(? & [->|?] & Hb)]; [left; by left|left; by right|].
        destruct (decide (b = base f)) as [->|]; [left; by right|right].
        split_and!; done.
    + specialize (IH (P ∪ {[base f]}) C).
      destruct (fold_left step fs _) as [P' C'].
      destruct IH as (? & ? & IH); [done|set_solver|].
      split_and!; [done..|]. intros b. rewrite IH, fmap_cons, elem_of_cons.
      rewrite not_elem_of_union, not_elem_of_singleton. split.
      * intros [?|((? & ?) & ? & ?)]; [by left|right]. split_and!; auto.
      * intros [?|(? & [->|?] & Hb)]; [by left|congruence|right].
        split_and!; [done| |done..]. intros ->. congruence.
Qed.
End match_loop.

Lemma sortStrings_perm l : sortStrings l ≡ₚ l.
Proof. apply merge_sort_Permutation. Qed.

(** [compareStrings] is a total order on names. *)

Lemma lexCompare_refl l : lexCompare l l = Eq.
Proof. induction l as [|x l IH]; simpl; [done|]. by rewrite N.compare_refl. Qed.

Lemma lexCompare_eq l1 l2 : lexCompare l1 l2 = Eq → l1 = l2.
Proof.
  revert l2. induction l1 as [|x l1 IH]; intros [|y l2]; simpl; try done.
  destruct (N.compare_spec x y) as [->| |]; [|done..].
  intros ?. f_equal. by apply IH.
Qed.

Lemma lexCompare_antisym l1 l2 : lexCompare l2 l1 = CompOpp (lexCompare l1 l2).
Proof.
  revert l2. induction l1 as [|x l1 IH]; intros [|y l2]; simpl; try done.
  rewrite (N.compare_antisym x y). destruct (x ?= y)%N; simpl; [apply IH|done..].
Qed.

Lemma lexCompare_lt_trans l1 l2 l3 :
  lexCompare l1 l2 = Lt → lexCompare l2 l3 = Lt → lexCompare l1 l3 = Lt.
Proof.
  revert l2 l3. induction l1 as [|x l1 IH]; intros [|y l2] [|z l3]; simpl; try done.
  destruct (N.compare_spec x y) as [->|Hxy|Hxy]; [|
    destruct (N.compare_spec y z) as [->|Hyz|Hyz]; [|
    destruct (N.compare_spec x z) as [->|Hxz|Hxz] |]|]; try done; try lia.
  - destruct (y ?= z)%N; [apply IH|done..].
  - by destruct (N.compare_spec x z) as [->|Hxz|Hxz]; try lia.
Qed.

Lemma bytes_inj s t : bytes s = bytes t → s = t.
Proof.
  unfold bytes. intros H.
  rewrite <-(String.string_of_list_ascii_of_string s),
          <-(String.string_of_list_ascii_of_string t). f_equal.
  revert H. generalize (String.list_ascii_of_string s) (String.list_ascii_of_string t).
  intros l1. induction l1 as [|a l1 IH]; intros [|b l2]; try done.
  rewrite !fmap_cons. intros [= Hab Hl]. f_equal; [|by apply IH].
  by rewrite <-(Ascii.ascii_N_embedding a), <-(Ascii.ascii_N_embedding b), Hab.
Qed.

Lemma compareStrings_eq s t : compareStrings s t = Eq → s = t.
Proof.
  unfold compareStrings. destruct (lexCompare (codeUnits s) (codeUnits t)); [|done..].
  by intros ?%lexCompare_eq%bytes_inj.
Qed.

Lemma compareStrings_antisym s t : compareStrings t s = CompOpp (compareStrings s t).
Proof.
  unfold compareStrings. rewrite (lexCompare_antisym (codeUnits s) (codeUnits t)).
  destruct (lexCompare (codeUnits s) (codeUnits t)); simpl; [|done..].
  apply lexCompare_antisym.
Qed.

Lemma compareStrings_lt_trans s t u :
  compareStrings s t = Lt → compareStrings t u = Lt → compareStrings s u = Lt.
Proof.
  unfold compareStrings.
  destruct (lexCompare (codeUnits s) (codeUnits t)) eqn:Hst; [| |done].
  - apply lexCompare_eq in Hst as ->.
    destruct (lexCompare (codeUnits t) (codeUnits u)); [|done..].
    apply lexCompare_lt_trans.
  - destruct (lexCompare (codeUnits t) (codeUnits u)) eqn:Htu; [| |done]; intros _ _.
    + apply lexCompare_eq in Htu as <-. by rewrite Hst.
    + by rewrite (lexCompare_lt_trans _ _ _ Hst Htu).
Qed.

Global Instance sortLe_total : Total sortLe.
Proof.
  intros s t. unfold sortLe. rewrite (compareStrings_antisym s t).
  destruct (compareStrings s t); simpl; [by left|by left|by right].
Qed.

Global Instance sortLe_trans : Transitive sortLe.
Proof.
  intros s t u. unfold sortLe.
  destruct (compareStrings s t) eqn:Hst; [| |done].
  { by apply compareStrings_eq in Hst as ->. }
  destruct (compareStrings t u) eqn:Htu; [| |done]; intros _ _.
  - apply compareStrings_eq in Htu as <-. by rewrite Hst.
  - by rewrite (compareStrings_lt_trans _ _ _ Hst Htu).
Qed.

Global Instance sortLe_antisym : AntiSymm (=) sortLe.
Proof.
  intros s t. unfold sortLe. rewrite (compareStrings_antisym s t).
  destruct (compareStrings s t) eqn:Hst; simpl; [|intros; congruence..].
  intros _ _. by apply compareStrings_eq.
Qed.

Lemma sortLe_codeUnitLe s t : sortLe s t → codeUnitLe s t.
Proof.
  unfold sortLe, compareStrings, codeUnitLe.
  by destruct (lexCompare (codeUnits s) (codeUnits t)).
Qed.

(** The decoder against the encoder. *)

Ltac div_lia := zify; Z.to_euclidean_division_equations; lia.

Lemma scalar_spec lo cp :
  scalar lo cp = true ↔ (lo ≤ cp ∧ cp ≤ 1114111 ∧ ¬ (55296 ≤ cp ∧ cp ≤ 57343))%N.
Proof.
  unfold scalar. rewrite !andb_true_iff, negb_true_iff, andb_false_iff.
  rewrite !N.leb_le, !N.leb_gt. lia.
Qed.

Lemma continuation_byte x :
  (x < 64)%N → continuation (Ascii.ascii_of_N (128 + x)) = Some x.
Proof.
  intros Hx. unfold continuation. rewrite Ascii.N_ascii_embedding by lia.
  rewrite (proj2 (N.leb_le 128 (128 + x))), (proj2 (N.ltb_lt (128 + x) 192)) by lia.
  simpl. f_equal. lia.
Qed.

Lemma codeUnits_1 (n0 : N) r :
  (n0 < 128)%N → codeUnits (String (Ascii.ascii_of_N n0) r) = n0 :: codeUnits r.
Proof.
  intros H0. cbn [codeUnits]. rewrite Ascii.N_ascii_embedding by lia.
  by rewrite (proj2 (N.ltb_lt n0 128)) by lia.
Qed.

Lemma codeUnits_2 (n0 x1 : N) r :
  (192 ≤ n0 < 224)%N → (x1 < 64)%N → (128 ≤ (n0 - 192) * 64 + x1)%N →
  codeUnits (String (Ascii.ascii_of_N n0) (String (Ascii.ascii_of_N (128 + x1)) r))
  = ((n0 - 192) * 64 + x1)%N :: codeUnits r.
Proof.
  intros H0 H1 Hcp. cbn [codeUnits].
  rewrite (continuation_byte x1), (Ascii.N_ascii_embedding n0) by lia.
  rewrite (proj2 (N.ltb_ge n0 128)), (proj2 (N.ltb_lt n0 224)),
    (proj2 (N.leb_le 192 n0)) by lia.
  by rewrite (proj2 (scalar_spec 128 _)) by lia.
Qed.

Lemma codeUnits_3 (n0 x1 x2 : N) r :
  (224 ≤ n0 < 240)%N → (x1 < 64)%N → (x2 < 64)%N →
  scalar 2048 ((n0 - 224) * 4096 + x1 * 64 + x2) = true →
  codeUnits (String (Ascii.ascii_of_N n0) (String (Ascii.ascii_of_N (128 + x1))
              (String (Ascii.ascii_of_N (128 + x2)) r)))
  = ((n0 - 224) * 4096 + x1 * 64 + x2)%N :: codeUnits r.
Proof.
  intros H0 H1 H2 Hcp. cbn [codeUnits].
  rewrite (continuation_byte x1), (continuation_byte x2),
    (Ascii.N_ascii_embedding n0) by lia.
  rewrite (proj2 (N.ltb_ge n0 128)), (proj2 (N.ltb_ge n0 224)),
    (proj2 (N.ltb_lt n0 240)) by lia.
  by rewrite Hcp.
Qed.

Lemma codeUnits_4 (n0 x1 x2 x3 : N) r :
  (240 ≤ n0 < 248)%N → (x1 < 64)%N → (x2 < 64)%N → (x3 < 64)%N →
  scalar 65536 ((n0 - 240) * 262144 + x1 * 4096 + x2 * 64 + x3) = true →
  codeUnits (String (Ascii.ascii_of_N n0) (String (Ascii.ascii_of_N (128 + x1))
              (String (Ascii.ascii_of_N (128 + x2))
                 (String (Ascii.ascii_of_N (128 + x3)) r))))
  = utf16 ((n0 - 240) * 262144 + x1 * 4096 + x2 * 64 + x3) ++ codeUnits r.
Proof.
  intros H0 H1 H2 H3 Hcp. cbn [codeUnits].
  rewrite (continuation_byte x1), (continuation_byte x2), (continuation_byte x3),
    (Ascii.N_ascii_embedding n0) by lia.
  rewrite (proj2 (N.ltb_ge n0 128)), (proj2 (N.ltb_ge n0 224)),
    (proj2 (N.ltb_ge n0 240)) by lia.
  by rewrite Hcp.
Qed.

Lemma codeUnits_utf8 cp s :
  isScalar cp → codeUnits (utf8 cp +:+ s) = utf16 cp ++ codeUnits s.
Proof.
  intros (_ & Hmax & Hsur)%scalar_spec. unfold utf8. cbv zeta.
  destruct (N.ltb_spec cp 128) as [H1|H1].
  { change (codeUnits (String (ascii_of_N cp) s) = utf16 cp ++ codeUnits s).
    rewrite codeUnits_1 by done. unfold utf16.
    by rewrite (proj2 (N.ltb_lt cp 65536)) by lia. }
  destruct (N.ltb_spec cp 2048) as [H2|H2].
  { change (codeUnits (String (ascii_of_N (192 + cp / 64))
                        (String (ascii_of_N (128 + cp mod 64)) s))
            = utf16 cp ++ codeUnits s).
    rewrite codeUnits_2 by div_lia. unfold utf16.
    rewrite (proj2 (N.ltb_lt cp 65536)) by lia. simpl. f_equal. div_lia. }
  destruct (N.ltb_spec cp 65536) as [H3|H3].
  { change (codeUnits (String (ascii_of_N (224 + cp / 4096))
                        (String (ascii_of_N (128 + (cp / 64) mod 64))
                           (String (ascii_of_N (128 + cp mod 64)) s)))
            = utf16 cp ++ codeUnits s).
    assert ((224 + cp / 4096 - 224) * 4096 + (cp / 64) mod 64 * 64 + cp mod 64 = cp)%N
      as Hcp by div_lia.
    rewrite codeUnits_3; [|div_lia..|rewrite Hcp; apply scalar_spec; lia].
    rewrite Hcp. unfold utf16. by rewrite (proj2 (N.ltb_lt cp 65536)) by lia. }
  change (codeUnits (String (ascii_of_N (240 + cp / 262144))
                      (String (ascii_of_N (128 + (cp / 4096) mod 64))
                         (String (ascii_of_N (128 + (cp / 64) mod 64))
                            (String (ascii_of_N (128 + cp mod 64)) s))))
          = utf16 cp ++ codeUnits s).
  assert ((240 + cp / 262144 - 240) * 262144 + (cp / 4096) mod 64 * 4096
          + (cp / 64) mod 64 * 64 + cp mod 64 = cp)%N as Hcp by div_lia.
  rewrite codeUnits_4; [|div_lia..|rewrite Hcp; apply scalar_spec; lia].
  by rewrite Hcp.
Qed.

Lemma codeUnits_encode cps :
  Forall isScalar cps → codeUnits (encode cps) = cps ≫= utf16.
Proof.
  induction 1 as [|cp cps Hcp _ IH]; [done|].
  cbn [encode foldr]. fold (encode cps). by rewrite codeUnits_utf8, IH.
Qed.

Lemma utf16_inj cp1 cp2 r1 r2 :
  isScalar cp1 → isScalar cp2 → utf16 cp1 ++ r1 = utf16 cp2 ++ r2 →
  cp1 = cp2 ∧ r1 = r2.
Proof.
  intros (_ & ? & ?)%scalar_spec (_ & ? & ?)%scalar_spec. unfold utf16.
  destruct (N.ltb_spec cp1 65536), (N.ltb_spec cp2 65536); simpl;
    intros [= ? ?]; subst; try (split; [div_lia|done]); exfalso; div_lia.
Qed.

Lemma utf16_list_inj cps1 cps2 :
  Forall isScalar cps1 → Forall isScalar cps2 →
  cps1 ≫= utf16 = cps2 ≫= utf16 → cps1 = cps2.
Proof.
  intros H1. revert cps2. induction H1 as [|cp1 cps1 Hcp1 _ IH];
    intros cps2 H2; destruct H2 as [|cp2 cps2 Hcp2 H2]; csimpl.
  - done.
  - intros H. apply (f_equal length) in H. unfold utf16 in H.
    destruct (cp2 <? 65536)%N; simpl in H; lia.
  - intros H. apply (f_equal length) in H. unfold utf16 in H.
    destruct (cp1 <? 65536)%N; simpl in H; lia.
  - intros [-> ?]%utf16_inj; [|done..]. f_equal. by apply IH.
Qed.

(** On the encodings of JS strings the comparison is the comparison of
    their code units, with no part played by the bytes. *)
Lemma compareStrings_exact cps1 cps2 :
  Forall isScalar cps1 → Forall isScalar cps2 →
  compareStrings (encode cps1) (encode cps2) =
  lexCompare (cps1 ≫= utf16) (cps2 ≫= utf16).
Proof.
  intros H1 H2. unfold compareStrings. rewrite !codeUnits_encode by done.
  destruct (lexCompare _ _) eqn:E; [|done..].
  apply lexCompare_eq, utf16_list_inj in E as ->; [|done..].
  apply lexCompare_refl.
Qed.

Example encode_sample : encode [122; 128512; 65377]%N = "z😀｡".
Proof. reflexivity. Qed.

Lemma sortStrings_sorted l : StronglySorted sortLe (sortStrings l).
Proof. apply (StronglySorted_merge_sort _). Qed.

Example codeUnits_astral : codeUnits "😀" = [55357; 56832]%N.
Proof. reflexivity. Qed.
Example codeUnits_halfwidth : codeUnits "｡" = [65377]%N.
Proof. reflexivity. Qed.
Example sortStrings_code_units :
  sortStrings ["😀"; "｡"; "z"; "Z"; "é"] = ["Z"; "z"; "é"; "😀"; "｡"].
Proof. vm_compute. reflexivity. Qed.

Lemma models_le_size (mf : ModelFiles) (models : list ModelConfig) :
  NoDup (model_id <$> models) →
  (∀ m, m ∈ models → is_Some (mf !! model_id m)) →
  length models ≤ size mf.
Proof.
  intros Hnd Hall.
  rewrite <-(length_fmap model_id models), <-(size_list_to_set (C:=gset string)) by done.
  rewrite <-(size_dom (D:=gset string) mf). apply subseteq_size.
  intros i (m & -> & Hm)%elem_of_list_to_set%list_elem_of_fmap.
  by apply elem_of_dom, Hall.
Qed.

Lemma matches_spec (mf : ModelFiles) m0 rest :
  length (m0 :: rest) ≤ size mf →
  ∃ names, matches mf (m0 :: rest) = Normal names ∧
    StronglySorted sortLe names ∧ NoDup names ∧
    ∀ b, b ∈ names ↔
      b ∈ ((fun f => getBaseName (file_name f)) <$> default [] (mf !! model_id m0)) ∧
      ∀ m, m ∈ m0 :: rest → model_id m = model_id m0 ∨ hasBase mf m b.
Proof.
  intros Hsz. unfold matches.
  destruct (size mf <? length (m0 :: rest)) eqn:Hlt.
  { apply Nat.ltb_lt in Hlt. lia. }
  pose proof (matchStep_loop mf (m0 :: rest) (model_id m0)
                (default [] (mf !! model_id m0)) ∅ [] (NoDup_nil_2)) as H.
  destruct (fold_left _ _ _) as [P C]. destruct H as (Hnd & _ & Hiff).
  { intros b []%elem_of_nil. }
  eexists. split; [done|]. split_and!.
  - apply sortStrings_sorted.
  - by rewrite sortStrings_perm.
  - intros b. rewrite sortStrings_perm, Hiff, elem_of_nil, existsInAll_true.
    set_solver.
Qed.

Lemma find_first {A} (p : A → bool) (l : list A) x :
  List.find p l = Some x →
  ∃ pre post, l = pre ++ x :: post ∧ p x = true ∧ Forall (fun y => p y = false) pre.
Proof.
  induction l as [|a l IH]; [done|]. simpl. destruct (p a) eqn:Hp.
  - intros [= ->]. by exists [], l.
  - intros (pre & post & -> & ? & ?)%IH. exists (a :: pre), post.
    split_and!; [done..|]. by constructor.
Qed.

Lemma find_some_elem {A} (p : A → bool) (l : list A) x :
  x ∈ l → p x = true → is_Some (List.find p l).
Proof.
  induction 1 as [x l|x y l Hin IH]; simpl; intros Hp.
  - rewrite Hp. by eexists.
  - destruct (p y); [by eexists|]. by apply IH.
Qed.

Lemma mkSource_spec (mf : ModelFiles) b m :
  hasBase mf m b →
  ∃ src, mkSource mf b m = Normal src ∧ src_modelId src = model_id m ∧
    ∃ fs f, mf !! model_id m = Some fs ∧ src_file src = Some f ∧
            src_name src = file_name f ∧ firstWithBase fs b f.
Proof.
  intros (fs & g & Hfs & Hg & Hb). unfold mkSource. rewrite Hfs.
  destruct (find_some_elem (fun f => String.eqb (getBaseName (file_name f)) b) fs g)
    as [f Hf]; [done|by apply String.eqb_eq|].
  rewrite Hf. eexists. split_and!; [done..|]. exists fs, f. split_and!; [done..|].
  apply find_first in Hf as (pre & post & -> & ?%String.eqb_eq & Hpre).
  exists pre, post. split_and!; [done..|].
  eapply Forall_impl; [done|]. intros y Hy. by apply String.eqb_neq.
Qed.

Lemma mkCase_spec (mf : ModelFiles) models idx b :
  (∀ m, m ∈ models → hasBase mf m b) →
  ∃ tc, mkCase mf models idx b = Normal tc ∧
        case_id tc = "case-" +:+ pretty (N.of_nat idx) ∧ caseFor mf models b tc.
Proof.
  intros Hall. unfold mkCase, caseFor.
  assert (∃ srcs, mapC (mkSource mf b) models = Normal srcs ∧
    Forall2 (fun m src =>
      src_modelId src = model_id m ∧
      ∃ fs f, mf !! model_id m = Some fs ∧ src_file src = Some f ∧
              src_name src = file_name f ∧ firstWithBase fs b f) models srcs)
    as (srcs & -> & ?).
  { induction models as [|m models IH]; simpl.
    - by exists [].
    - destruct (mkSource_spec mf b m) as (src & -> & ? & ?); [apply Hall; left|].
      destruct IH as (srcs & -> & ?); [intros; apply Hall; by right|].
      exists (src :: srcs). split; [done|]. by constructor. }
  by eexists.
Qed.

Lemma mkQueue_spec (mf : ModelFiles) models names idx :
  (∀ b, b ∈ names → ∀ m, m ∈ models → hasBase mf m b) →
  ∃ queue, mkQueue mf models idx names = Normal queue ∧
    Forall2 (caseFor mf models) names queue ∧
    ∀ i tc, queue !! i = Some tc → case_id tc = "case-" +:+ pretty (N.of_nat (idx + i)).
Proof.
  revert idx. induction names as [|b names IH]; intros idx Hall; simpl.
  { exists []. split_and!; [done..|]. by intros [|?] ?. }
  destruct (mkCase_spec mf models idx b) as (tc & -> & Hid & ?); [apply Hall; by left|].
  destruct (IH (S idx)) as (queue & -> & ? & Hids); [intros b' ?; apply Hall; by right|].
  exists (tc :: queue). split_and!; [done|by constructor|].
  intros [|i] tc'; simpl.
  - intros [= <-]. by rewrite Nat.add_0_r.
  - intros ?%Hids. by rewrite Nat.add_succ_r.
Qed.

Lemma matcher_code (mf : ModelFiles) (models : list ModelConfig) :
  models ≠ [] →
  NoDup (model_id <$> models) →
  (∀ m, m ∈ models → is_Some (mf !! model_id m)) →
  ∃ names queue,
    matches mf models = Normal names ∧
    StronglySorted sortLe names ∧ NoDup names ∧
    (∀ b, b ∈ names ↔ ∀ m, m ∈ models → hasBase mf m b) ∧
    handleStart mf models = Normal (if decide (names = []) then None else Some queue) ∧
    Forall2 (caseFor mf models) names queue ∧
    (∀ i tc, queue !! i = Some tc → case_id tc = "case-" +:+ pretty (N.of_nat i)).
Proof.
  intros Hne Hnd Hall. destruct models as [|m0 rest]; [done|].
  destruct (matches_spec mf m0 rest) as (names & Hm & Hsorted & Hnodup & Hiff).
  { by apply models_le_size. }
  assert (∀ b, b ∈ names ↔ ∀ m, m ∈ m0 :: rest → hasBase mf m b) as Hnames.
  { intros b. rewrite Hiff. destruct (Hall m0) as [fs0 Hfs0]; [left|].
    rewrite Hfs0. simpl. rewrite list_elem_of_fmap.
    assert ((∃ f, b = getBaseName (file_name f) ∧ f ∈ fs0) ↔ hasBase mf m0 b) as ->.
    { unfold hasBase. rewrite Hfs0. naive_solver. }
    split.
    - intros [H0 H] m Hm'. destruct (H m Hm') as [Heq|]; [|done].
      unfold hasBase in *. by rewrite Heq.
    - intros H. split; [apply H; left|]. intros m ?. right. by apply H. }
  destruct (mkQueue_spec mf (m0 :: rest) names 0) as (queue & Hq & Hcases & Hids).
  { intros b ?. by apply Hnames. }
  exists names, queue. split_and!; [done..| |done|done].
  unfold handleStart. rewrite Hm. simpl.
  destruct names as [|b names']; [done|]. by rewrite Hq.
Qed.

(** *** The code's base name against the specification's *)

Lemma string_app_cons c (s t : string) : String c s +:+ t = String c (s +:+ t).
Proof. reflexivity. Qed.

Lemma ext_tail_plain s : ext_tail s = true ↔ plainExtension s.
Proof.
  unfold plainExtension. induction s as [|c s IH]; simpl.
  { split; [done|]. by intros [? _]. }
  rewrite andb_true_iff, andb_true_iff, !negb_true_iff, !Ascii.eqb_neq, Forall_cons.
  destruct s as [|c' s'].
  - simpl. split; [intros [[? ?] _]|intros [_ [[? ?] _]]]; by split_and!.
  - rewrite IH. split.
    + intros [[? ?] [_ ?]]. by split_and!.
    + intros [_ [[? ?] ?]]. by split_and!.
Qed.

Lemma ext_tail_dot s1 s2 : ext_tail (s1 +:+ String "."%char s2) = false.
Proof.
  induction s1 as [|c s1 IH]; simpl.
  - done.
  - change (String.app s1 (String "."%char s2)) with (s1 +:+ String "."%char s2).
    rewrite IH. destruct (s1 +:+ String "."%char s2) eqn:E; [|by rewrite andb_false_r].
    by destruct s1.
Qed.

Lemma getBaseName_cut (stem ext : string) :
  ext_tail ext = true → getBaseName (stem +:+ "." +:+ ext) = stem.
Proof.
  intros Hext. induction stem as [|c stem IH].
  - change ("" +:+ "." +:+ ext) with (String "."%char ext). simpl. by rewrite Hext.
  - rewrite string_app_cons. simpl.
    change ("." +:+ ext) with (String "."%char ext).
    rewrite ext_tail_dot, andb_false_r. f_equal. exact IH.
Qed.

Lemma getBaseName_cases (name : string) :
  (∃ stem ext, plainExtension ext ∧ name = stem +:+ "." +:+ ext ∧
               getBaseName name = stem) ∨
  ((∀ stem ext, plainExtension ext → name ≠ stem +:+ "." +:+ ext) ∧
   getBaseName name = name).
Proof.
  induction name as [|c rest IH].
  { right. split; [|done]. by intros [|? ?] ext _. }
  simpl. destruct (Ascii.eqb c "."%char && ext_tail rest) eqn:E.
  - apply andb_true_iff in E as [->%Ascii.eqb_eq Hext]. left.
    exists "", rest. split_and!; [by apply ext_tail_plain|done..].
  - destruct IH as [(stem & ext & Hext & -> & Hb)|[Hno Hb]].
    + left. exists (String c stem), ext. split_and!; [done..|]. by rewrite Hb.
    + right. split; [|by rewrite Hb]. intros [|c' stem] ext Hext.
      * change ("" +:+ "." +:+ ext) with (String "."%char ext). intros [= -> ->].
        apply ext_tail_plain in Hext. by rewrite Hext in E.
      * rewrite string_app_cons. intros [= -> ->]. by eapply Hno.
Qed.

Lemma getBaseName_baseNameOf (name b : string) :
  getBaseName name = b ↔ baseNameOf name b.
Proof.
  split.
  - intros <-. destruct (getBaseName_cases name) as [(stem & ext & ? & -> & ->)|[? ->]];
      by constructor.
  - intros [stem ext Hext|name' Hno].
    + by apply getBaseName_cut, ext_tail_plain.
    + destruct (getBaseName_cases name') as [(stem & ext & ? & ? & _)|[_ ?]]; [|done].
      by edestruct Hno.
Qed.

Lemma hasBase_offers (mf : ModelFiles) m b : hasBase mf m b ↔ offers mf m b.
Proof.
  unfold hasBase, offers.
  split; intros (fs & f & ? & ? & ?); exists fs, f; split_and!; try done;
    by apply getBaseName_baseNameOf.
Qed.

Lemma firstWithBase_firstOffer fs b f : firstWithBase fs b f → firstOffer fs b f.
Proof.
  intros (pre & post & -> & ? & Hpre). exists pre, post.
  split_and!; [done|by apply getBaseName_baseNameOf|].
  eapply Forall_impl; [done|]. intros g Hg Hb. by apply Hg, getBaseName_baseNameOf.
Qed.

Lemma caseFor_matchedCase (mf : ModelFiles) models b tc :
  caseFor mf models b tc → matchedCase mf models b tc.
Proof.
  intros [? Hsrc]. split; [done|]. eapply Forall2_impl; [done|].
  intros m src (? & fs & f & ? & ? & ? & ?). split; [done|].
  exists fs, f. split_and!; [done..|]. by apply firstWithBase_firstOffer.
Qed.

Example baseNameOf_mp4 : baseNameOf "x.mp4" "x".
Proof. by apply getBaseName_baseNameOf. Qed.
Example baseNameOf_mov : baseNameOf "x.mov" "x".
Proof. by apply getBaseName_baseNameOf. Qed.
Example baseNameOf_inner_dot : baseNameOf "take.2/clip.v1.webm" "take.2/clip.v1".
Proof. by apply getBaseName_baseNameOf. Qed.
Example baseNameOf_no_extension : baseNameOf "clips.d/README" "clips.d/README".
Proof. by apply getBaseName_baseNameOf. Qed.

(** C1. When every configured variant (non-empty list, pairwise distinct ids)
    has a loaded list, [matches] returns exactly the base names that occur in
    every variant's list, each once, sorted lexicographically by their UTF-16
    code units. The base name of a file is stated without [getBaseName]: it
    is the file name with its trailing extension (a final dot and the
    characters after it, none of them a dot or a slash) removed, and the
    whole name when there is none; names are compared by equality, so case
    matters. [handleStart] builds for each returned name, in that order, the
    case [case-i] that takes from every variant the first file of its list
    with that base name. *)
Theorem matcher_correct (mf : ModelFiles) (models : list ModelConfig) :
  models ≠ [] →
  NoDup (model_id <$> models) →
  (∀ m, m ∈ models → is_Some (mf !! model_id m)) →
  ∃ names queue,
    matches mf models = Normal names ∧
    StronglySorted codeUnitLe names ∧ NoDup names ∧
    (∀ b, b ∈ names ↔ ∀ m, m ∈ models → offers mf m b) ∧
    handleStart mf models = Normal (if decide (names = []) then None else Some queue) ∧
    Forall2 (matchedCase mf models) names queue ∧
    (∀ i tc, queue !! i = Some tc → case_id tc = "case-" +:+ pretty (N.of_nat i)).
Proof.
  intros Hne Hnd Hall.
  destruct (matcher_code mf models Hne Hnd Hall)
    as (names & queue & Hm & Hs & Hn & Hiff & Hst & Hq & Hids).
  exists names, queue. split_and!; [done| |done| |done| |done].
  - clear -Hs. induction Hs as [|b names _ IH Hb]; constructor; [done|].
    eapply Forall_impl; [done|]. intros c. apply sortLe_codeUnitLe.
  - intros b. rewrite Hiff. split; intros H m Hm'; by apply hasBase_offers, H.
  - eapply Forall2_impl; [done|]. intros b tc. apply caseFor_matchedCase.
Qed.

(** ** Readiness *)

Lemma size_list_to_set_le (l : list string) :
  size (list_to_set (C:=gset string) l) ≤ length l.
Proof.
  induction l as [|x l IH].
  - rewrite list_to_set_nil, size_empty. done.
  - rewrite list_to_set_cons, size_union_alt, size_singleton. simpl.
    assert (size (list_to_set l ∖ {[x]} : gset string) ≤ size (list_to_set (C:=gset string) l)).
    { apply subseteq_size. set_solver. }
    lia.
Qed.

Lemma reachable_dom mediaType models (mf : ModelFiles) :
  reachable mediaType models mf →
  dom mf ⊆ list_to_set (C:=gset string) (model_id <$> models).
Proof.
  induction 1 as [|mf m fileList _ IH Hm|mf m _ IH Hm].
  - set_solver.
  - unfold handleFolderSelect. rewrite dom_insert.
    assert (model_id m ∈ model_id <$> models) by by apply list_elem_of_fmap_2.
    set_solver.
  - unfold removeFiles. rewrite dom_delete. set_solver.
Qed.

Lemma reachable_size mediaType models (mf : ModelFiles) :
  reachable mediaType models mf → size mf ≤ length models.
Proof.
  intros Hr%reachable_dom%subseteq_size. rewrite size_dom in Hr.
  etrans; [done|]. etrans; [apply size_list_to_set_le|]. by rewrite length_fmap.
Qed.

Lemma matches_nonempty_loaded (mf : ModelFiles) models names b :
  matches mf models = Normal names → b ∈ names →
  ∀ m, m ∈ models → ∃ fs, mf !! model_id m = Some fs ∧ fs ≠ [].
Proof.
  intros Hm Hb. unfold matches in Hm.
  destruct (size mf <? length models) eqn:Hlt.
  { injection Hm as <-. by apply elem_of_nil in Hb. }
  destruct models as [|m0 rest]; [done|].
  destruct (matches_spec mf m0 rest) as (names' & Hm' & _ & _ & Hiff).
  { apply Nat.ltb_ge in Hlt. lia. }
  unfold matches in Hm'. rewrite Hlt in Hm'. rewrite Hm in Hm'. injection Hm' as <-.
  apply Hiff in Hb as [Hb0 Hb]. intros m Hin.
  assert (∃ fs, mf !! model_id m0 = Some fs ∧ fs ≠ []) as H0.
  { destruct (mf !! model_id m0) as [fs|]; simpl in Hb0.
    - exists fs. split; [done|]. intros ->. by apply elem_of_nil in Hb0.
    - by apply elem_of_nil in Hb0. }
  destruct (Hb m Hin) as [->|(fs & f & ? & Hf & _)]; [done|].
  exists fs. split; [done|]. intros ->. by apply elem_of_nil in Hf.
Qed.

(** C2. In every state the upload component can reach, for a non-empty model
    list, neither [matches] nor [isReady] raises; [isReady] is true exactly
    when the match list is non-empty and every configured variant has a
    loaded file set; and when some variant has no files (none loaded, or a
    folder with zero valid files) the match list is empty. *)
Theorem readiness_total mediaType (models : list ModelConfig) (mf : ModelFiles) :
  models ≠ [] →
  reachable mediaType models mf →
  ∃ names ready,
    matches mf models = Normal names ∧
    isReady mf models = Normal ready ∧
    (ready = true ↔
       names ≠ [] ∧ ∀ m, m ∈ models → is_Some (mf !! model_id m)) ∧
    ((∃ m, m ∈ models ∧ default [] (mf !! model_id m) = []) → names = []).
Proof.
  intros Hne Hreach.
  assert (∃ names, matches mf models = Normal names) as [names Hm].
  { unfold matches. destruct (size mf <? length models); [by eexists|].
    destruct models; [done|]. destruct (fold_left _ _ _). by eexists. }
  exists names, ((0 <? length names) && (size mf =? length models)).
  split_and!; [done|unfold isReady; by rewrite Hm| |].
  - rewrite andb_true_iff, Nat.ltb_lt, Nat.eqb_eq. split.
    + intros [Hlen _]. split; [by destruct names; [simpl in Hlen; lia|]|].
      destruct names as [|b names']; [simpl in Hlen; lia|].
      intros m Hin.
      destruct (matches_nonempty_loaded mf models (b :: names') b Hm) with (m := m)
        as (fs & -> & _); [left|done|done].
    + intros [Hnames Hall]. split; [destruct names; [done|simpl; lia]|].
      apply Nat.le_antisymm; [by eapply reachable_size|].
      unfold matches in Hm. destruct (size mf <? length models) eqn:Hlt.
      * by injection Hm as <-.
      * by apply Nat.ltb_ge in Hlt.
  - intros (m & Hin & Hempty). destruct names as [|b names']; [done|].
    destruct (matches_nonempty_loaded mf models (b :: names') b Hm) with (m := m)
      as (fs & Hfs & ?); [left|done|].
    rewrite Hfs in Hempty. done.
Qed.

(** ** The compositor *)

Lemma createElements_fst sources st : (createElements sources st).1.*1 = sources.
Proof.
  revert st. induction sources as [|src rest IH]; intros st; simpl; [done|].
  destruct (sourceUrl src st) as [url st1].
  specialize (IH st1). destruct (createElements rest st1) as [els st2].
  simpl in *. f_equal. exact IH.
Qed.

Lemma fold_left_width (ms : list Media) (acc : N) :
  fold_left (fun acc m => (acc + media_width m)%N) ms acc =
  (acc + foldr (fun m a => (media_width m + a)%N) 0%N ms)%N.
Proof.
  revert acc. induction ms as [|m ms IH]; intros acc; simpl; [lia|].
  rewrite IH. lia.
Qed.

Lemma loadedMedia_sizes env els ms :
  loadedMedia env els = Some ms →
  totalWidth ms = sumWidths env (els.*1) ∧
  mathMax (media_height <$> ms) = maxHeights env (els.*1) ∧
  media_source <$> ms = els.*1 ∧ media_src <$> ms = els.*2 ∧
  allLoaded env (els.*1).
Proof.
  unfold totalWidth, allLoaded. rewrite fold_left_width, N.add_0_l.
  revert ms. induction els as [|[src url] els IH]; intros ms; csimpl.
  { intros [= <-]. by split_and!. }
  unfold naturalWidth at 1, naturalHeight at 1.
  destruct (env_load env src) as [w h| |] eqn:Hl; try done.
  destruct (loadedMedia env els) as [ms'|]; [|done]. csimpl. intros [= <-].
  destruct (IH ms' eq_refl) as (Hw & Hh & Hs & Hu & ?). csimpl.
  rewrite Hw, Hh, Hs, Hu.
  split_and!; [done..|]. constructor; [by eauto|done].
Qed.

Lemma promiseAll_Resolved env what els ms :
  promiseAll env what els = Resolved ms → loadedMedia env els = Some ms.
Proof.
  unfold promiseAll. destruct (firstFailure env els) as [[? ?]|]; [done|].
  destruct (loadedMedia env els); [|done]. by intros [= ->].
Qed.

Lemma firstFailure_Some env els src t :
  src ∈ els.*1 → env_load env src = LoadFailed t → is_Some (firstFailure env els).
Proof.
  induction els as [|[s u] els IH]; csimpl; [by intros ?%elem_of_nil|].
  intros [->|Hin]%elem_of_cons Hl.
  - rewrite Hl. destruct (firstFailure env els) as [[t' s']|]; [|by eexists].
    destruct (t' <? t); by eexists.
  - destruct (IH Hin Hl) as [[t' s'] ->].
    destruct (env_load env s); try by eexists.
    destruct (t' <? _); by eexists.
Qed.

Lemma firstFailure_None env els :
  allLoaded env (els.*1) → firstFailure env els = None.
Proof.
  unfold allLoaded. induction els as [|[s u] els IH]; csimpl; [done|].
  intros [(w & h & ->) ?]%Forall_cons. by apply IH.
Qed.

Lemma loadedMedia_Some env els :
  allLoaded env (els.*1) → is_Some (loadedMedia env els).
Proof.
  unfold allLoaded. induction els as [|[s u] els IH]; csimpl; [by eexists|].
  intros [(w & h & ->) [ms ->]%IH]%Forall_cons. by eexists.
Qed.

(** C3, as the code has it. A resolved image composite is a PNG as wide as
    the sum of the sources' natural widths and as high as the largest natural
    height; when that maximum is 0 the height is 720. *)
Theorem image_composite_geometry env fuel sources models onProgress st a st' :
  stitchMedia env fuel sources models image onProgress st = (Resolved a, st') →
  blob a = ImageBlob (sumWidths env sources)
             (if (maxHeights env sources =? 0)%N then 720%N
              else maxHeights env sources) ∧
  extension a = "png".
Proof.
  unfold stitchMedia. destruct sources as [|s0 rest]; [done|].
  set (sources := s0 :: rest). unfold stitchImages.
  pose proof (createElements_fst sources (progress onProgress "Loading images..." st)) as Hfst.
  destruct (createElements sources _) as [els st1]. simpl in Hfst.
  destruct (promiseAll env "image" els) as [images| | |] eqn:Hall; try done.
  apply promiseAll_Resolved, loadedMedia_sizes in Hall as (Hw & Hh & _).
  rewrite Hfst in Hw, Hh. unfold maxHeight. rewrite Hw, Hh.
  destruct (env_getContext env _ _); simpl; [|done].
  destruct (env_toBlob env _ _); [|done]. by intros [= <- _].
Qed.

(** The example of the specification: 100x50 beside 200x50 gives 300x50. *)
Lemma image_composite_geometry_witness :
  blob {| blob := ImageBlob 300 50; extension := "png" |} =
    ImageBlob (sumWidths sampleEnv [sourceA; sourceB])
      (if (maxHeights sampleEnv [sourceA; sourceB] =? 0)%N then 720%N
       else maxHeights sampleEnv [sourceA; sourceB]) ∧
  extension {| blob := ImageBlob 300 50; extension := "png" |} = "png".
Proof.
  apply (image_composite_geometry sampleEnv 0 [sourceA; sourceB] [modelA; modelB]
           None browser0 _
           {| next_url := 2;
              log := [CreateObjectURL "blob:0"; CreateObjectURL "blob:1";
                      RevokeObjectURL "blob:0"; RevokeObjectURL "blob:1"] |}).
  vm_compute. reflexivity.
Defined.

(** C3, as stated, fails: a source of natural size 100x0 composites to a
    canvas 720 high, not 0 high. *)
Lemma image_height_counterexample :
  ¬ (∀ env fuel sources models onProgress st a st',
       stitchMedia env fuel sources models image onProgress st = (Resolved a, st') →
       blob a = ImageBlob (sumWidths env sources) (maxHeights env sources)).
Proof.
  intros H.
  specialize (H flatEnv 0 [sourceA] [modelA] None browser0
                {| blob := ImageBlob 100 720; extension := "png" |}
                {| next_url := 1;
                   log := [CreateObjectURL "blob:0"; RevokeObjectURL "blob:0"] |}).
  vm_compute in H. specialize (H eq_refl). discriminate H.
Qed.

Lemma promiseAll_rejects env what els src t :
  src ∈ els.*1 → env_load env src = LoadFailed t →
  ∃ e, promiseAll env what els = Rejected e.
Proof.
  intros Hin Hl. unfold promiseAll.
  destruct (firstFailure_Some env els src t Hin Hl) as [[t' s'] ->]. by eexists.
Qed.

Lemma promiseAll_resolves env what els :
  allLoaded env (els.*1) → ∃ ms, promiseAll env what els = Resolved ms.
Proof.
  intros Hall. unfold promiseAll. rewrite firstFailure_None by done.
  destruct (loadedMedia_Some env els Hall) as [ms ->]. by eexists.
Qed.

(** C4. [stitchMedia] rejects, in either mode, when the source list is empty,
    when some source fails to load, and when every source loads but the 2D
    context of the canvas cannot be had; no artifact comes out of such a
    call. *)
Theorem all_or_nothing env fuel sources models mediaType onProgress st :
  sources = [] ∨
  (∃ src t, src ∈ sources ∧ env_load env src = LoadFailed t) ∨
  (allLoaded env sources ∧
   env_getContext env (sumWidths env sources) (canvasHeight env sources) = false) →
  ∃ e, (stitchMedia env fuel sources models mediaType onProgress st).1 = Rejected e.
Proof.
  intros H. unfold stitchMedia. destruct sources as [|s0 rest]; [by eexists|].
  destruct H as [?|H]; [done|]. set (sources := s0 :: rest) in *.
  destruct mediaType.
  - unfold stitchVideos.
    pose proof (createElements_fst sources st) as Hfst.
    destruct (createElements sources st) as [els st1]. simpl in Hfst.
    destruct H as [(src & t & Hin & Hl)|[Hall Hctx]].
    + rewrite <-Hfst in Hin.
      destruct (promiseAll_rejects env "video" els src t Hin Hl) as [e ->]. by eexists.
    + rewrite <-Hfst in Hall.
      destruct (promiseAll_resolves env "video" els Hall) as [ms Hms]. rewrite Hms.
      apply promiseAll_Resolved, loadedMedia_sizes in Hms as (Hw & Hh & _).
      rewrite Hfst in Hw, Hh. unfold maxHeight. rewrite Hw, Hh.
      unfold canvasHeight in Hctx. rewrite Hctx. by eexists.
  - unfold stitchImages.
    pose proof (createElements_fst sources (progress onProgress "Loading images..." st)) as Hfst.
    destruct (createElements sources _) as [els st1]. simpl in Hfst.
    destruct H as [(src & t & Hin & Hl)|[Hall Hctx]].
    + rewrite <-Hfst in Hin.
      destruct (promiseAll_rejects env "image" els src t Hin Hl) as [e ->]. by eexists.
    + rewrite <-Hfst in Hall.
      destruct (promiseAll_resolves env "image" els Hall) as [ms Hms]. rewrite Hms.
      apply promiseAll_Resolved, loadedMedia_sizes in Hms as (Hw & Hh & _).
      rewrite Hfst in Hw, Hh. unfold maxHeight. rewrite Hw, Hh.
      unfold canvasHeight in Hctx. rewrite Hctx. by eexists.
Qed.

Lemma all_or_nothing_witness :
  ∃ e, (stitchMedia brokenEnv 0 [sourceA; sourceB] [modelA; modelB] image None
          browser0).1 = Rejected e.
Proof.
  apply all_or_nothing. right. left. exists sourceB, 0. split.
  - apply elem_of_cons. right. apply elem_of_cons. by left.
  - reflexivity.
Defined.

(** C5 fails on the failure paths. With two file sources of which the second
    does not decode, the call rejects after creating two object URLs and
    revokes neither. *)
Theorem object_urls_leak_on_failure :
  stitchMedia brokenEnv 0 [sourceA; sourceB] [modelA; modelB] image None browser0 =
  (Rejected (Error "Failed to load image: x.jpg"),
   {| next_url := 2;
      log := [CreateObjectURL "blob:0"; CreateObjectURL "blob:1"] |}).
Proof. vm_compute. reflexivity. Qed.

(** ** The frame loop *)

Lemma allEnded_forallb env videos n :
  forallb (fun v => env_ended env (media_source v) n) videos = true ↔
  allEnded env videos n.
Proof.
  unfold allEnded. rewrite forallb_forall, Forall_forall.
  split; intros H v Hv; apply H; by apply list_elem_of_In.
Qed.

Lemma drawFrame_recording env sources videos n :
  env_recorderState env sources n = recording →
  drawFrame env sources videos n =
    if forallb (fun v => env_ended env (media_source v) n) videos
    then StopRecorder else Reschedule.
Proof. unfold drawFrame. by intros ->. Qed.

Lemma renderLoop_stops env sources videos fuel n k :
  (∀ j, n ≤ j ≤ k → env_recorderState env sources j = recording) →
  allEnded env videos k →
  (∀ j, n ≤ j < k → ¬ allEnded env videos j) →
  n ≤ k → k - n < fuel →
  renderLoop env sources videos fuel n = Stopped k.
Proof.
  revert n. induction fuel as [|fuel IH]; intros n Hrec Hend Hnot Hle Hfuel; [lia|].
  simpl. rewrite drawFrame_recording by (apply Hrec; lia).
  destruct (forallb _ videos) eqn:Hall.
  - apply allEnded_forallb in Hall.
    destruct (decide (n = k)) as [->|]; [done|]. destruct (Hnot n); [lia|done].
  - assert (n ≠ k).
    { intros ->. apply allEnded_forallb in Hend. congruence. }
    apply IH; [intros; apply Hrec; lia|done|intros; apply Hnot; lia|lia|lia].
Qed.

Lemma renderLoop_Stopped env sources videos fuel n k :
  renderLoop env sources videos fuel n = Stopped k →
  n ≤ k ∧ allEnded env videos k ∧
  ∀ j, n ≤ j < k →
    ¬ allEnded env videos j ∧ env_recorderState env sources j = recording.
Proof.
  revert n. induction fuel as [|fuel IH]; intros n; simpl; [done|].
  unfold drawFrame. destruct (env_recorderState env sources n) eqn:Hrec; [|done].
  destruct (forallb _ videos) eqn:Hall.
  - intros [= <-]. split_and!; [done|by apply allEnded_forallb|lia].
  - intros (? & ? & Hj)%IH. split_and!; [lia|done|].
    intros j ?. destruct (decide (j = n)) as [->|]; [|apply Hj; lia].
    split; [|done]. intros ?%allEnded_forallb. congruence.
Qed.

(** C7, as the code has it. While the recorder is recording, a frame at
    which some source has not ended re-schedules the loop and a frame at
    which all have ended stops the recorder; so with the recorder recording
    throughout, the loop stops it exactly at the first frame at which every
    source has ended, and whenever the code stops the recorder every source
    has ended and no earlier frame had that. A frame that finds the recorder
    not recording ends the loop without re-scheduling and without stopping. *)
Theorem recording_termination env sources videos :
  (∀ n, env_recorderState env sources n = recording →
        ¬ allEnded env videos n → drawFrame env sources videos n = Reschedule) ∧
  (∀ n, env_recorderState env sources n = recording →
        allEnded env videos n → drawFrame env sources videos n = StopRecorder) ∧
  (∀ n, env_recorderState env sources n = inactive →
        drawFrame env sources videos n = Idle) ∧
  (∀ k fuel,
     (∀ j, j ≤ k → env_recorderState env sources j = recording) →
     allEnded env videos k → (∀ j, j < k → ¬ allEnded env videos j) →
     k < fuel → renderLoop env sources videos fuel 0 = Stopped k) ∧
  (∀ k fuel,
     renderLoop env sources videos fuel 0 = Stopped k →
     allEnded env videos k ∧
     ∀ j, j < k →
       ¬ allEnded env videos j ∧ env_recorderState env sources j = recording).
Proof.
  split_and!.
  - intros n Hrec Hnot. rewrite drawFrame_recording by done.
    destruct (forallb _ videos) eqn:Hall; [|done].
    by apply allEnded_forallb in Hall.
  - intros n Hrec Hall. rewrite drawFrame_recording by done.
    apply allEnded_forallb in Hall. by rewrite Hall.
  - intros n Hrec. unfold drawFrame. by rewrite Hrec.
  - intros k fuel Hrec Hend Hnot Hfuel.
    apply renderLoop_stops; [intros; apply Hrec; lia|done|intros; apply Hnot; lia|lia|lia].
  - intros k fuel (_ & ? & Hj)%renderLoop_Stopped. split; [done|].
    intros j ?. apply Hj. lia.
Qed.

(** In the sample browser source [a] ends at frame 2 and source [b] at
    frame 4: the recorder is stopped at frame 4. *)
Lemma recording_termination_witness :
  renderLoop sampleEnv [sourceA; sourceB] sampleVideos 10 0 = Stopped 4.
Proof.
  apply (recording_termination sampleEnv [sourceA; sourceB] sampleVideos).
  - reflexivity.
  - unfold allEnded, sampleVideos. repeat constructor.
  - intros j Hj Hall. unfold allEnded, sampleVideos in Hall.
    apply Forall_cons in Hall as [_ [Hb _]%Forall_cons].
    change ((4 <=? j) = true) in Hb. apply Nat.leb_le in Hb. lia.
  - lia.
Defined.

(** C7, as stated, fails: with the recorder not recording, a frame at which
    a source is still playing does not re-schedule the loop. *)
Lemma recording_guard_counterexample :
  ¬ (∀ env sources videos n,
       ¬ allEnded env videos n → drawFrame env sources videos n = Reschedule).
Proof.
  intros H. specialize (H stoppedRecorderEnv [sourceA; sourceB] sampleVideos 0).
  assert (¬ allEnded stoppedRecorderEnv sampleVideos 0) as Hnot.
  { intros [Ha _]%Forall_cons. discriminate Ha. }
  specialize (H Hnot). discriminate H.
Qed.

(** ** The transport: seeking *)

Lemma clamp_inside (t lo hi : Q) : (lo <= t)%Q → (t <= hi)%Q → clamp t lo hi = t.
Proof.
  intros Hlo Hhi. unfold clamp.
  destruct (Qlt_le_dec t lo) as [Hlt|_].
  { exfalso. by apply (Qlt_not_le _ _ Hlt). }
  destruct (Qlt_le_dec hi t) as [Hlt|_]; [|done].
  exfalso. by apply (Qlt_not_le _ _ Hlt).
Qed.

(** C8, as the code has it. [handleSeek] does not clamp. In video mode it
    sets the reported current time to the requested time and assigns that
    same time to every mounted element, leaving the rest of the transport as
    it was; when the requested time lies in [[0, duration]] this is
    [clamp(t, 0, duration)]. In image mode it changes nothing. *)
Theorem seek_broadcast (t : Q) (a : Arena) :
  handleSeek image t a = a ∧
  currentTime (handleSeek video t a) = t ∧
  duration (handleSeek video t a) = duration a ∧
  isPlaying (handleSeek video t a) = isPlaying a ∧
  length (videoRefs (handleSeek video t a)) = length (videoRefs a) ∧
  (∀ i v', videoRefs (handleSeek video t a) !! i = Some (Some v') →
     el_currentTime v' = t ∧
     ∃ v, videoRefs a !! i = Some (Some v) ∧
          el_playbackRate v' = el_playbackRate v ∧ el_playing v' = el_playing v) ∧
  (∀ i, videoRefs a !! i = Some None →
     videoRefs (handleSeek video t a) !! i = Some None) ∧
  ((0 <= t)%Q → (t <= duration a)%Q →
     currentTime (handleSeek video t a) = clamp t 0 (duration a)).
Proof.
  split_and!; try done.
  - simpl. by rewrite length_map.
  - intros i v'. simpl. change (List.map ?f ?l) with (f <$> l).
    rewrite list_lookup_fmap. destruct (videoRefs a !! i) as [[v|]|]; simpl; try done.
    intros [= <-]. split; [done|]. by exists v.
  - intros i Hi. simpl. change (List.map ?f ?l) with (f <$> l).
    by rewrite list_lookup_fmap, Hi.
  - intros ??. simpl. by rewrite clamp_inside.
Qed.

Lemma seek_broadcast_witness :
  currentTime (handleSeek video 3 (arenaInit 1 2)) = 3%Q.
Proof. apply (seek_broadcast 3 (arenaInit 1 2)). Defined.

(** C8, as stated, fails: on a freshly loaded case the duration is still 0,
    the slider reaches up to 100, and seeking to 50 reports and broadcasts
    50, not [clamp(50, 0, 0) = 0]. *)
Lemma seek_clamp_counterexample :
  ¬ (∀ t a, sliderValue (duration a) t →
       (currentTime (handleSeek video t a) == clamp t 0 (duration a))%Q ∧
       ∀ v, Some v ∈ videoRefs (handleSeek video t a) →
            (el_currentTime v == clamp t 0 (duration a))%Q).
Proof.
  intros H. destruct (H 50%Q (arenaInit 1 2)) as [Hc _].
  - split; vm_compute; discriminate.
  - vm_compute in Hc. discriminate Hc.
Qed.

(** ** The setup screen *)

Lemma splice1_length {A} (index : Z) (l : list A) :
  length l - 1 ≤ length (splice1 index l) ≤ length l.
Proof.
  unfold splice1. set (i := Z.to_nat _). clearbody i.
  destruct (decide (i < length l)) as [Hlt|Hge].
  - rewrite length_delete by by apply lookup_lt_is_Some. lia.
  - assert (delete i l = l) as ->; [|lia].
    revert i Hge. induction l as [|x l IH]; intros [|i] Hge; simpl in *; try done; try lia.
    f_equal. apply IH. lia.
Qed.

Lemma setupStep_bounds models a :
  MIN_MODELS ≤ length models ≤ MAX_MODELS →
  MIN_MODELS ≤ length (setupStep models a) ≤ MAX_MODELS.
Proof.
  unfold MIN_MODELS, MAX_MODELS. intros H. destruct a as [now|index|index name]; simpl.
  - unfold addModel, MAX_MODELS. destruct (length models <? 5) eqn:Hlt; [|done].
    apply Nat.ltb_lt in Hlt. rewrite length_app. simpl. lia.
  - unfold removeModel, MIN_MODELS. destruct (2 <? length models) eqn:Hlt; [|done].
    apply Nat.ltb_lt in Hlt. pose proof (splice1_length index models). lia.
  - unfold updateName. destruct (models !! index); [|done].
    by rewrite length_insert.
Qed.

(** C10. The setup screen starts with two models and, whatever the user does,
    the list it hands to the session has between [MIN_MODELS] = 2 and
    [MAX_MODELS] = 5 entries; [addModel] leaves a list of 5 as it is and
    [removeModel] leaves a list of 2 as it is. *)
Theorem variant_count_invariant :
  length initialModels = 2 ∧
  (∀ actions, MIN_MODELS ≤ length (configuredModels actions) ≤ MAX_MODELS) ∧
  (∀ now models, length models = MAX_MODELS → addModel now models = models) ∧
  (∀ index models, length models = MIN_MODELS → removeModel index models = models).
Proof.
  split_and!.
  - done.
  - intros actions. unfold configuredModels.
    assert (MIN_MODELS ≤ length initialModels ≤ MAX_MODELS) as H by (vm_compute; lia).
    revert H. generalize initialModels.
    induction actions as [|a actions IH]; intros models H; simpl; [done|].
    by apply IH, setupStep_bounds.
  - intros now models Hlen. unfold addModel. by rewrite Hlen.
  - intros index models Hlen. unfold removeModel. by rewrite Hlen.
Qed.

Lemma variant_count_invariant_witness :
  addModel 7 (configuredModels [AddModel 1; AddModel 2; AddModel 3]) =
  configuredModels [AddModel 1; AddModel 2; AddModel 3].
Proof. apply variant_count_invariant. reflexivity. Defined.

(** ** The blind-mode shuffle *)

Lemma pow2_add m1 m2 : pow2 (m1 + m2) = (pow2 m1 * pow2 m2)%positive.
Proof.
  unfold pow2. induction m1 as [|m1 IH]; simpl; [done|]. by rewrite IH.
Qed.

Lemma pow2_of_succ bits : Pos.pow 2 (Pos.of_succ_nat bits) = pow2 (S bits).
Proof.
  induction bits as [|bits IH]; [done|].
  change (Pos.of_succ_nat (S bits)) with (Pos.succ (Pos.of_succ_nat bits)).
  rewrite Pos.pow_succ_r, IH. done.
Qed.

Lemma dyadic_inject (k : Z) : dyadic (inject_Z k).
Proof. exists k, 0. reflexivity. Qed.

Lemma dyadic_plus q1 q2 : dyadic q1 → dyadic q2 → dyadic (q1 + q2).
Proof.
  intros (k1 & m1 & H1) (k2 & m2 & H2).
  exists (k1 * Zpos (pow2 m2) + k2 * Zpos (pow2 m1))%Z, (m1 + m2).
  rewrite H1, H2, pow2_add. unfold Qeq, Qplus. simpl. lia.
Qed.

Lemma dyadic_mult q1 q2 : dyadic q1 → dyadic q2 → dyadic (q1 * q2).
Proof.
  intros (k1 & m1 & H1) (k2 & m2 & H2).
  exists (k1 * k2)%Z, (m1 + m2).
  rewrite H1, H2, pow2_add. unfold Qeq, Qmult. simpl. lia.
Qed.

Lemma dyadic_opp q : dyadic q → dyadic (- q).
Proof.
  intros (k & m & H). exists (- k)%Z, m. rewrite H. unfold Qeq, Qopp. simpl. lia.
Qed.

Lemma dyadic_pNeg : dyadic pNeg.
Proof. exists 1%Z, 1. reflexivity. Qed.

Lemma dyadic_pZero bits : dyadic (pZero bits).
Proof. exists 1%Z, (S bits). unfold pZero. by rewrite pow2_of_succ. Qed.

Lemma dyadic_pPos bits : dyadic (pPos bits).
Proof.
  unfold pPos, Qminus. apply dyadic_plus; [apply dyadic_pNeg|].
  apply dyadic_opp, dyadic_pZero.
Qed.

Lemma prob_dyadic {A} bits (ev : A → bool) (c : Rand A) : dyadic (prob bits ev c).
Proof.
  induction c as [a|n IHn z IHz p IHp]; simpl.
  - destruct (ev a); [apply (dyadic_inject 1)|apply (dyadic_inject 0)].
  - auto using dyadic_plus, dyadic_mult, dyadic_pNeg, dyadic_pZero, dyadic_pPos.
Qed.

Lemma odd_divides_pow2 (n : positive) (m : nat) (k : Z) :
  (k * Zpos n~1 = Zpos (pow2 m))%Z → False.
Proof.
  revert k. induction m as [|m IH]; intros k H.
  - change (Zpos (pow2 0)) with 1%Z in H. nia.
  - change (pow2 (S m)) with ((pow2 m)~0)%positive in H.
    assert (∃ k', k = 2 * k')%Z as [k' ->].
    { exists (k / 2)%Z. apply Z.div_exact; [lia|].
      assert ((k * Zpos n~1) mod 2 = 0)%Z as Hm.
      { rewrite H. rewrite Pos2Z.inj_xO. by rewrite Z.mul_comm, Z.mod_mul. }
      rewrite Z.mul_mod in Hm by lia.
      assert (Zpos n~1 mod 2 = 1)%Z as Hn.
      { rewrite Pos2Z.inj_xI. rewrite Z.add_comm, Z.mul_comm, Z.mod_add by lia. done. }
      rewrite Hn, Z.mul_1_r, Z.mod_mod in Hm by lia. done. }
    apply (IH k'). rewrite Pos2Z.inj_xO in H. lia.
Qed.

Lemma dyadic_not_odd_fraction (q : Q) (n : positive) :
  dyadic q → ¬ (q == 1 # n~1)%Q.
Proof.
  intros (k & m & H) Hq. rewrite H in Hq. unfold Qeq in Hq. simpl in Hq.
  apply (odd_divides_pow2 n m k). lia.
Qed.

(** C9 fails on the code. Whatever sort the engine runs, the probability that
    a given variant is shown at a given position is a sum of products of the
    comparator's sign probabilities, a fraction with a power of two below the
    line; it is never one third (and never one fifth). *)
Theorem blind_shuffle_not_uniform (sort : EngineSort) (bits : nat)
    (models : list ModelConfig) (v : ModelConfig) (pos : nat) (n : positive) :
  ¬ (prob bits (shownAt v pos) (displayModels sort true models) == 1 # n~1)%Q.
Proof. apply dyadic_not_odd_fraction, prob_dyadic. Qed.

(** With three models and straight insertion sort the first model stays in
    front more often than three times out of eight. *)
Lemma insertionSort_front_bias :
  (3 # 8 < prob 52 (shownAt modelA 0)
             (displayModels insertionSort true [modelA; modelB; modelC]))%Q.
Proof. vm_compute. reflexivity. Qed.

(** ** What [stitchMedia] logs, and what its settlement depends on *)

Lemma batchView_app evs1 evs2 : batchView (evs1 ++ evs2) = batchView evs1 ++ batchView evs2.
Proof. apply List.filter_app. Qed.

Lemma createElements_log sources st :
  ∃ evs, log (createElements sources st).2 = log st ++ evs ∧ batchView evs = [].
Proof.
  revert st. induction sources as [|src rest IH]; intros st; simpl.
  { exists []. by rewrite app_nil_r. }
  unfold sourceUrl. destruct (src_file src).
  - simpl. destruct (IH {| next_url := S (next_url st);
        log := log st ++ [CreateObjectURL ("blob:" +:+ pretty (N.of_nat (next_url st)))] |})
      as (evs & Hlog & Hview).
    destruct (createElements rest _) as [els st2]. simpl in *.
    eexists. rewrite Hlog, <-app_assoc. split; [done|].
    by rewrite batchView_app, Hview.
  - destruct (IH st) as (evs & Hlog & Hview).
    destruct (createElements rest st) as [els st2]. simpl in *. by exists evs.
Qed.

Lemma revokeAll_log ms st :
  ∃ evs, log (revokeAll ms st) = log st ++ evs ∧ batchView evs = [].
Proof.
  unfold revokeAll. revert st. induction ms as [|m ms IH]; intros st; simpl.
  { exists []. by rewrite app_nil_r. }
  destruct (String.prefix "blob:" (media_src m)).
  - destruct (IH (revokeObjectURL (media_src m) st)) as (evs & -> & Hview).
    simpl. eexists. rewrite <-app_assoc. split; [done|].
    by rewrite batchView_app, Hview.
  - apply IH.
Qed.

Lemma stitchMedia_log env fuel sources models mediaType st :
  ∃ evs, log (stitchMedia env fuel sources models mediaType (Some (fun _ => [])) st).2
         = log st ++ evs ∧ batchView evs = [].
Proof.
  assert (∀ msg st, progress (Some (fun _ : string => [])) msg st = st) as Hprog.
  { intros msg [n l]. unfold progress. simpl. by rewrite app_nil_r. }
  unfold stitchMedia. destruct sources as [|s0 rest].
  { exists []. by rewrite app_nil_r. }
  set (sources := s0 :: rest). destruct mediaType.
  - unfold stitchVideos.
    destruct (createElements_log sources st) as (evs & Hlog & Hview).
    destruct (createElements sources st) as [els st1]. simpl in Hlog.
    rewrite !Hprog.
    destruct (promiseAll env "video" els) as [videos| | |]; try by exists evs.
    destruct (negb (env_getContext env _ _)); [by exists evs|].
    destruct (negb (env_isTypeSupported env _)); [by exists evs|].
    destruct (revokeAll_log videos st1) as (evs' & Hlog' & Hview').
    destruct (renderLoop env sources videos fuel 0); simpl; [| |by exists evs].
    + exists (evs ++ evs'). rewrite Hlog', Hlog, app_assoc. split; [done|].
      by rewrite batchView_app, Hview, Hview'.
    + exists (evs ++ evs'). rewrite Hlog', Hlog, app_assoc. split; [done|].
      by rewrite batchView_app, Hview, Hview'.
  - unfold stitchImages. rewrite Hprog.
    destruct (createElements_log sources st) as (evs & Hlog & Hview).
    destruct (createElements sources st) as [els st1]. simpl in Hlog.
    destruct (promiseAll env "image" els) as [images| | |]; try by exists evs.
    destruct (negb (env_getContext env _ _)); [by exists evs|].
    destruct (env_toBlob env _ _); [|by exists evs].
    destruct (revokeAll_log images st1) as (evs' & Hlog' & Hview'). simpl.
    exists (evs ++ evs'). rewrite Hlog', Hlog, app_assoc. split; [done|].
    by rewrite batchView_app, Hview, Hview'.
Qed.

Lemma firstFailure_fst env els els' :
  els.*1 = els'.*1 → firstFailure env els = firstFailure env els'.
Proof.
  revert els'. induction els as [|[s u] els IH]; intros [|[s' u'] els']; try done.
  csimpl. intros [= <- Heq]. by rewrite (IH els' Heq).
Qed.

Lemma promiseAll_fst env what els els' :
  els.*1 = els'.*1 →
  match promiseAll env what els, promiseAll env what els' with
  | Resolved ms, Resolved ms' =>
      totalWidth ms = totalWidth ms' ∧ maxHeight ms = maxHeight ms' ∧
      media_source <$> ms = media_source <$> ms'
  | Rejected e, Rejected e' => e = e'
  | Pending, Pending => True
  | _, _ => False
  end.
Proof.
  intros Heq. unfold promiseAll. rewrite (firstFailure_fst env els els' Heq).
  destruct (firstFailure env els') as [[t s]|]; [done|].
  destruct (loadedMedia env els) as [ms|] eqn:Hms;
    destruct (loadedMedia env els') as [ms'|] eqn:Hms'; try done.
  - apply loadedMedia_sizes in Hms as (Hw & Hh & Hs & _).
    apply loadedMedia_sizes in Hms' as (Hw' & Hh' & Hs' & _).
    unfold maxHeight. rewrite Hw, Hh, Hs, Hw', Hh', Hs', Heq. done.
  - apply loadedMedia_sizes in Hms as (_ & _ & _ & _ & Hall). rewrite Heq in Hall.
    apply loadedMedia_Some in Hall as [? Hall]. congruence.
  - apply loadedMedia_sizes in Hms' as (_ & _ & _ & _ & Hall). rewrite <-Heq in Hall.
    apply loadedMedia_Some in Hall as [? Hall]. congruence.
Qed.

Lemma renderLoop_sources env sources videos videos' fuel n :
  media_source <$> videos = media_source <$> videos' →
  renderLoop env sources videos fuel n = renderLoop env sources videos' fuel n.
Proof.
  intros Heq.
  assert (∀ k, forallb (fun v => env_ended env (media_source v) k) videos =
               forallb (fun v => env_ended env (media_source v) k) videos') as Hall.
  { intros k. revert videos' Heq.
    induction videos as [|v vs IH]; intros [|v' vs']; try done.
    csimpl. intros [= -> Heq]. by rewrite (IH vs' Heq). }
  revert n. induction fuel as [|fuel IH]; intros n; simpl; [done|].
  unfold drawFrame. rewrite Hall, IH. done.
Qed.

(** The settlement of [stitchMedia] does not depend on the browser state it
    starts from. *)
Lemma stitchMedia_outcome env fuel sources models mediaType onProgress st st2 :
  (stitchMedia env fuel sources models mediaType onProgress st).1 =
  (stitchMedia env fuel sources models mediaType onProgress st2).1.
Proof.
  unfold stitchMedia. destruct sources as [|s0 rest]; [done|].
  set (sources := s0 :: rest). destruct mediaType.
  - unfold stitchVideos.
    pose proof (createElements_fst sources st) as H1.
    pose proof (createElements_fst sources st2) as H2.
    destruct (createElements sources st) as [els sa].
    destruct (createElements sources st2) as [els' sb]. simpl in H1, H2.
    pose proof (promiseAll_fst env "video" els els') as H.
    rewrite H1, H2 in H. specialize (H eq_refl).
    destruct (promiseAll env "video" els) as [ms| | |];
      destruct (promiseAll env "video" els') as [ms'| | |]; try done; [|by subst].
    destruct H as (-> & -> & Hsrc).
    destruct (negb (env_getContext env _ _)); [done|].
    destruct (negb (env_isTypeSupported env _)); [done|].
    rewrite (renderLoop_sources env sources ms ms' fuel 0 Hsrc).
    by destruct (renderLoop env sources ms' fuel 0).
  - unfold stitchImages.
    pose proof (createElements_fst sources (progress onProgress "Loading images..." st)) as H1.
    pose proof (createElements_fst sources (progress onProgress "Loading images..." st2)) as H2.
    destruct (createElements sources (progress _ _ st)) as [els sa].
    destruct (createElements sources (progress _ _ st2)) as [els' sb]. simpl in H1, H2.
    pose proof (promiseAll_fst env "image" els els') as H.
    rewrite H1, H2 in H. specialize (H eq_refl).
    destruct (promiseAll env "image" els) as [ms| | |];
      destruct (promiseAll env "image" els') as [ms'| | |]; try done; [|by subst].
    destruct H as (-> & -> & _).
    destruct (negb (env_getContext env _ _)); [done|].
    by destruct (env_toBlob env _ _).
Qed.

(** ** Batch export *)

Lemma stitchMedia_batch env fuel models mediaType tc st :
  ∃ evs st',
    stitchMedia env fuel (case_sources tc) models mediaType (Some (fun _ => [])) st =
      (stitchOutcome env fuel models mediaType tc, st') ∧
    log st' = log st ++ evs ∧ batchView evs = [].
Proof.
  destruct (stitchMedia_log env fuel (case_sources tc) models mediaType st)
    as (evs & Hlog & Hview).
  pose proof (stitchMedia_outcome env fuel (case_sources tc) models mediaType
                (Some (fun _ => [])) st browser0) as Hout.
  unfold stitchOutcome. fold browser0.
  destruct (stitchMedia _ _ _ _ _ _ st) as [o st']. simpl in *.
  exists evs, st'. by rewrite Hout.
Qed.

Lemma batchLoop_rejects env fuel caseQueue models mediaType total pre r post tc e :
  Forall (composites env fuel caseQueue models mediaType) pre →
  findCase caseQueue r = Some tc →
  stitchOutcome env fuel models mediaType tc = Rejected e →
  ∀ i zip st, ∃ evs st',
    batchLoop env fuel caseQueue models mediaType total i (pre ++ r :: post) zip st
      = (LoopThrew e, st') ∧
    log st' = log st ++ evs ∧
    batchView evs =
      batchEvents env fuel caseQueue models mediaType total i (pre ++ [r]).
Proof.
  intros Hpre Hr He. induction Hpre as [|v pre Hv _ IH]; intros i zip st; simpl.
  - rewrite Hr. unfold caseEvents. rewrite Hr, He.
    destruct (stitchMedia_batch env fuel models mediaType tc
                (emit (StitchCall (case_name tc))
                   (emit (SetZipProgress (processingMessage i total tc)) st)))
      as (evs & st' & -> & Hlog & Hview).
    rewrite He. eexists _, st'. split; [done|]. simpl in Hlog.
    rewrite Hlog, <-!app_assoc. split; [done|].
    rewrite !batchView_app, Hview. done.
  - unfold caseEvents. destruct (findCase caseQueue v) as [tcv|] eqn:Hfind.
    + destruct (Hv tcv Hfind) as [a Ha]. rewrite Ha.
      destruct (stitchMedia_batch env fuel models mediaType tcv
                  (emit (StitchCall (case_name tcv))
                     (emit (SetZipProgress (processingMessage i total tcv)) st)))
        as (evs & st1 & -> & Hlog & Hview).
      rewrite Ha.
      destruct (IH (S i) (zipFile (artifactName tcv a) (blob a) zip)
                  (emit (ZipFile (artifactName tcv a) (blob a)) st1))
        as (evs2 & st' & -> & Hlog2 & Hview2).
      eexists _, st'. split; [done|]. simpl in Hlog, Hlog2.
      rewrite Hlog2, Hlog, <-!app_assoc. split; [done|].
      rewrite !batchView_app, Hview, Hview2. done.
    + apply IH.
Qed.

Lemma filter_batchView (p : Event → bool) evs :
  (∀ e, p e = true → isBatchEvent e = true) →
  List.filter p evs = List.filter p (batchView evs).
Proof.
  intros Hp. unfold batchView. induction evs as [|e evs IH]; simpl; [done|].
  destruct (isBatchEvent e) eqn:Hb; simpl; destruct (p e) eqn:He; try by rewrite IH.
  apply Hp in He. congruence.
Qed.

Lemma stitchCalls_batchView evs : stitchCalls evs = stitchCalls (batchView evs).
Proof.
  unfold stitchCalls, batchView. induction evs as [|e evs IH]; [done|].
  destruct e; csimpl; by rewrite ?IH.
Qed.

Lemma stitchCalls_app evs1 evs2 :
  stitchCalls (evs1 ++ evs2) = stitchCalls evs1 ++ stitchCalls evs2.
Proof. apply omap_app. Qed.

Lemma batchEvents_facts env fuel caseQueue models mediaType total i reps :
  let evs := batchEvents env fuel caseQueue models mediaType total i reps in
  stitchCalls evs = case_name <$> omap (findCase caseQueue) reps ∧
  List.filter isAlert evs = [] ∧ List.filter isArchive evs = [].
Proof.
  revert i. induction reps as [|r reps IH]; intros i; simpl; [done|].
  destruct (IH (S i)) as (Hc & Ha & Hz).
  rewrite stitchCalls_app, !List.filter_app, Hc, Ha, Hz, !app_nil_r.
  unfold caseEvents. destruct (findCase caseQueue r) as [tc|]; [|done].
  by destruct (stitchOutcome env fuel models mediaType tc).
Qed.

Lemma filter_protocol_batchEvents env fuel caseQueue models mediaType total i reps :
  List.filter isProtocolEvent
    (batchEvents env fuel caseQueue models mediaType total i reps) =
  concat (imap (fun j v =>
            match findCase caseQueue v with
            | Some tc =>
                [SetZipProgress ("Processing " +:+ pretty (N.of_nat (i + j + 1)) +:+ "/"
                                 +:+ pretty (N.of_nat total) +:+ ": " +:+ case_name tc);
                 StitchCall (case_name tc)]
            | None => []
            end) reps).
Proof.
  revert i. induction reps as [|r reps IH]; intros i; [done|].
  cbn [batchEvents imap concat]. rewrite List.filter_app, IH. f_equal.
  - unfold caseEvents, processingMessage. rewrite Nat.add_0_r.
    destruct (findCase caseQueue r) as [tc|]; [|done].
    by destruct (stitchOutcome env fuel models mediaType tc).
  - f_equal. apply imap_ext. intros j v _. unfold compose.
    by replace (i + S j + 1) with (S i + j + 1) by lia.
Qed.

(** C6. When the marked cases before some case all composite and that case's
    [stitchMedia] rejects, the handler returns after logging: the start of
    processing; for each case up to and including the failing one, in order,
    its progress notification and then its composite; one console error and
    one alert; the end of processing. The notification of the case at
    position [i] (counted from 1) of [total] marked cases, named [name], is
    the text ["Processing i/total: name"], and it comes immediately before
    that case's call of [stitchMedia]; the cases are taken one after the
    other in the order they were marked. No case after the failing one is
    composited, exactly one alert is shown, and no archive is generated or
    offered for download. *)
Theorem batch_atomicity env fuel voteHistory caseQueue models mediaType st
    pre r post tc e :
  List.filter vote_isRepresentative voteHistory = pre ++ r :: post →
  Forall (composites env fuel caseQueue models mediaType) pre →
  findCase caseQueue r = Some tc →
  stitchOutcome env fuel models mediaType tc = Rejected e →
  ∃ evs st',
    handleBatchExportZip env fuel voteHistory caseQueue models mediaType st
      = (BatchReturned, st') ∧
    log st' = log st ++ evs ∧
    batchView evs =
      [SetIsProcessingZip true] ++
      batchEvents env fuel caseQueue models mediaType
        (length (pre ++ r :: post)) 0 (pre ++ [r]) ++
      [ConsoleError "Batch export failed";
       Alert "Failed to create batch export. Please try again.";
       SetIsProcessingZip false; SetZipProgress ""] ∧
    List.filter isProtocolEvent evs =
      concat (imap (fun i v =>
                match findCase caseQueue v with
                | Some c =>
                    [SetZipProgress
                       ("Processing " +:+ pretty (N.of_nat (i + 1)) +:+ "/" +:+
                        pretty (N.of_nat (length (pre ++ r :: post))) +:+ ": " +:+
                        case_name c);
                     StitchCall (case_name c)]
                | None => []
                end) (pre ++ [r])) ++
      [SetZipProgress ""] ∧
    stitchCalls evs = case_name <$> omap (findCase caseQueue) (pre ++ [r]) ∧
    length (List.filter isAlert evs) = 1 ∧
    List.filter isArchive evs = [].
Proof.
  intros Hreps Hpre Hr He. unfold handleBatchExportZip. rewrite Hreps.
  remember (pre ++ r :: post) as reps eqn:Hl. cbv zeta.
  destruct reps as [|r0 reps0]; [by destruct pre|]. rewrite Hl. clear Hreps.
  destruct (batchLoop_rejects env fuel caseQueue models mediaType
              (length (pre ++ r :: post)) pre r post tc e Hpre Hr He
              0 [] (emit (SetIsProcessingZip true) st))
    as (evs & st1 & -> & Hlog & Hview).
  set (tail := [ConsoleError "Batch export failed";
                Alert "Failed to create batch export. Please try again.";
                SetIsProcessingZip false; SetZipProgress ""]).
  exists ([SetIsProcessingZip true] ++ evs ++ tail), (batchFinally (batchCatch st1)).
  assert (batchView ([SetIsProcessingZip true] ++ evs ++ tail) =
          [SetIsProcessingZip true] ++
          batchEvents env fuel caseQueue models mediaType
            (length (pre ++ r :: post)) 0 (pre ++ [r]) ++ tail) as Hbv.
  { rewrite !batchView_app, Hview. done. }
  pose proof (batchEvents_facts env fuel caseQueue models mediaType
                (length (pre ++ r :: post)) 0 (pre ++ [r])) as (Hc & Ha & Hz).
  split_and!.
  - done.
  - simpl in *. rewrite Hlog, <-!app_assoc. done.
  - done.
  - rewrite (filter_batchView isProtocolEvent) by (by intros []).
    rewrite Hbv, !List.filter_app, filter_protocol_batchEvents. done.
  - rewrite stitchCalls_batchView, Hbv, !stitchCalls_app, Hc. simpl.
    by rewrite app_nil_r.
  - rewrite (filter_batchView isAlert) by (by intros []).
    rewrite Hbv, !List.filter_app, Ha. done.
  - rewrite (filter_batchView isArchive) by (by intros []).
    rewrite Hbv, !List.filter_app, Hz. done.
Qed.

(** ** The theorems at sample inputs *)

(** Two variants with names outside ASCII, a repeated base name in the
    first folder and a file without a partner in the second. *)
Lemma matcher_correct_witness :
  ∃ queue,
    matches unicodeFiles [modelA; modelB] = Normal ["z"; "😀"; "｡"] ∧
    StronglySorted codeUnitLe ["z"; "😀"; "｡"] ∧ NoDup ["z"; "😀"; "｡"] ∧
    (∀ b, b ∈ ["z"; "😀"; "｡"] ↔
          ∀ m, m ∈ [modelA; modelB] → offers unicodeFiles m b) ∧
    handleStart unicodeFiles [modelA; modelB] = Normal (Some queue) ∧
    Forall2 (matchedCase unicodeFiles [modelA; modelB]) ["z"; "😀"; "｡"] queue ∧
    (∀ i tc, queue !! i = Some tc → case_id tc = "case-" +:+ pretty (N.of_nat i)).
Proof.
  destruct (matcher_correct unicodeFiles [modelA; modelB])
    as (names & queue & Hm & H).
  - discriminate.
  - apply (bool_decide_unpack _). vm_compute. exact I.
  - intros m Hm. apply elem_of_cons in Hm as [->|Hm].
    { vm_compute. by eexists. }
    apply elem_of_cons in Hm as [->|Hm]; [|by apply elem_of_nil in Hm].
    vm_compute. by eexists.
  - vm_compute in Hm. injection Hm as <-. exists queue. split; [|exact H].
    vm_compute. reflexivity.
Defined.

Lemma readiness_total_witness :
  ∃ names ready,
    matches sampleFiles [modelA; modelB] = Normal names ∧
    isReady sampleFiles [modelA; modelB] = Normal ready ∧
    (ready = true ↔
       names ≠ [] ∧ ∀ m, m ∈ [modelA; modelB] → is_Some (sampleFiles !! model_id m)) ∧
    ((∃ m, m ∈ [modelA; modelB] ∧ default [] (sampleFiles !! model_id m) = []) →
     names = []).
Proof.
  apply (readiness_total video).
  - discriminate.
  - unfold sampleFiles.
    apply (reach_select video [modelA; modelB] _ modelB).
    + apply (reach_select video [modelA; modelB] _ modelA); [constructor|].
      apply elem_of_cons. by left.
    + apply elem_of_cons. right. apply elem_of_cons. by left.
Defined.

(** The example of the specification: three marked cases, the second fails. *)
Lemma batch_atomicity_witness :
  ∃ evs st',
    handleBatchExportZip batchEnv 0 (markedVote <$> sampleQueue) sampleQueue
      [modelA; modelB] image browser0 = (BatchReturned, st') ∧
    log st' = log browser0 ++ evs ∧
    batchView evs =
      [SetIsProcessingZip true] ++
      batchEvents batchEnv 0 sampleQueue [modelA; modelB] image
        (length ([markedVote (imageCase 0 "x")] ++
                 markedVote (imageCase 1 "y") :: [markedVote (imageCase 2 "z")])) 0
        ([markedVote (imageCase 0 "x")] ++ [markedVote (imageCase 1 "y")]) ++
      [ConsoleError "Batch export failed";
       Alert "Failed to create batch export. Please try again.";
       SetIsProcessingZip false; SetZipProgress ""] ∧
    List.filter isProtocolEvent evs =
      [SetZipProgress "Processing 1/3: x"; StitchCall "x";
       SetZipProgress "Processing 2/3: y"; StitchCall "y";
       SetZipProgress ""] ∧
    stitchCalls evs = ["x"; "y"] ∧
    length (List.filter isAlert evs) = 1 ∧
    List.filter isArchive evs = [].
Proof.
  destruct (batch_atomicity batchEnv 0 (markedVote <$> sampleQueue) sampleQueue
              [modelA; modelB] image browser0
              [markedVote (imageCase 0 "x")] (markedVote (imageCase 1 "y"))
              [markedVote (imageCase 2 "z")] (imageCase 1 "y")
              (Error "Failed to load image: y.jpg"))
    as (evs & st' & Hret & Hlog & Hview & Hprotocol & Hcalls & Halert & Harchive).
  - reflexivity.
  - constructor; [|constructor]. intros tc Htc.
    vm_compute in Htc. injection Htc as <-. eexists. vm_compute. reflexivity.
  - vm_compute. reflexivity.
  - vm_compute. reflexivity.
  - exists evs, st'. split_and!; [done..| | |done|done].
    + rewrite Hprotocol. vm_compute. reflexivity.
    + rewrite Hcalls. vm_compute. reflexivity.
Defined.

Example sample_matches : matches sampleFiles [modelA; modelB] = Normal ["x"].
Proof. vm_compute. reflexivity. Qed.

Example sample_batch_stitchCalls :
  stitchCalls (log (handleBatchExportZip batchEnv 0 (markedVote <$> sampleQueue)
                      sampleQueue [modelA; modelB] image browser0).2) = ["x"; "y"].
Proof. vm_compute. reflexivity. Qed.

(** * Further properties of the code *)

(** ** [getBaseName] *)

(** X1. Appending a dot and a plain extension to any name is undone by
    [getBaseName], whatever dots or slashes the name itself holds. *)
Theorem getBaseName_strips_extension (stem ext : string) :
  plainExtension ext → getBaseName (stem +:+ "." +:+ ext) = stem.
Proof.
  intros Hext%ext_tail_plain. induction stem as [|c stem IH]; simpl.
  - change (String.app "." ext) with (String "."%char ext). simpl.
    change (String.app "" ext) with ext. by rewrite Hext.
  - change (String.app stem (String.app "." ext)) with (stem +:+ String "."%char ext).
    rewrite ext_tail_dot, andb_false_r. f_equal. exact IH.
Qed.

Lemma getBaseName_strips_extension_witness :
  getBaseName ("clip.v2/take" +:+ "." +:+ "webm") = "clip.v2/take".
Proof.
  apply getBaseName_strips_extension. split; [discriminate|].
  repeat constructor; discriminate.
Defined.

(** X2. [getBaseName] only ever cuts a suffix off, and a name without a dot
    comes back unchanged. *)
Theorem getBaseName_prefix (filename : string) :
  String.prefix (getBaseName filename) filename = true ∧
  (dotFree filename → getBaseName filename = filename).
Proof.
  split.
  - induction filename as [|c s IH]; simpl; [done|].
    destruct (Ascii.eqb c "."%char && ext_tail s); simpl; [done|].
    destruct (Ascii.ascii_dec c c); [done|congruence].
  - unfold dotFree. induction filename as [|c s IH]; simpl; [done|].
    intros [Hc Hs]%Forall_cons. apply Ascii.eqb_neq in Hc. rewrite Hc. simpl.
    f_equal. by apply IH.
Qed.

Lemma getBaseName_prefix_witness : getBaseName "README" = "README".
Proof. apply getBaseName_prefix. repeat constructor; discriminate. Defined.

(** ** The matcher beyond the claims *)

Lemma sameFolders_dom (mf mf' : ModelFiles) : sameFolders mf mf' → dom mf = dom mf'.
Proof.
  intros H. apply set_eq. intros k. rewrite !elem_of_dom.
  specialize (H k). destruct H; split; intros [? ?]; by eauto.
Qed.

Lemma sameFolders_hasBase (mf mf' : ModelFiles) m b :
  sameFolders mf mf' → hasBase mf m b → hasBase mf' m b.
Proof.
  intros H (fs & f & Hfs & Hf & Hb). specialize (H (model_id m)).
  rewrite Hfs in H. inversion H as [? fs' Hperm|]; subst.
  exists fs', f. split_and!; [done| |done]. by rewrite <-Hperm.
Qed.

Lemma sameFolders_sym (mf mf' : ModelFiles) : sameFolders mf mf' → sameFolders mf' mf.
Proof.
  intros H k. specialize (H k). destruct H; constructor. by symmetry.
Qed.

Lemma sameFolders_first (mf mf' : ModelFiles) k b :
  sameFolders mf mf' →
  b ∈ ((fun f => getBaseName (file_name f)) <$> default [] (mf !! k)) →
  b ∈ ((fun f => getBaseName (file_name f)) <$> default [] (mf' !! k)).
Proof.
  intros H. specialize (H k). destruct H as [fs fs' Hperm|]; simpl; [|done].
  by rewrite Hperm.
Qed.

(** X3. The match list does not depend on the order of the files inside the
    selected folders. *)
Theorem matches_folder_order (mf mf' : ModelFiles) (models : list ModelConfig) :
  sameFolders mf mf' → matches mf models = matches mf' models.
Proof.
  intros Hsame.
  assert (size mf = size mf') as Hsize.
  { by rewrite <-!(size_dom (D:=gset string)), (sameFolders_dom mf mf' Hsame). }
  destruct (decide (size mf < length models)) as [Hlt|Hge].
  { unfold matches. rewrite <-Hsize. apply Nat.ltb_lt in Hlt. by rewrite Hlt. }
  destruct models as [|m0 rest].
  { unfold matches. rewrite <-Hsize. by destruct (size mf <? length []). }
  destruct (matches_spec mf m0 rest) as (names & -> & Hs & Hnd & Hiff); [lia|].
  destruct (matches_spec mf' m0 rest) as (names' & -> & Hs' & Hnd' & Hiff'); [lia|].
  f_equal. apply (StronglySorted_unique sortLe); [done..|].
  apply NoDup_Permutation; [done..|]. intros b. rewrite Hiff, Hiff'.
  pose proof (sameFolders_sym mf mf' Hsame) as Hsame'.
  split; intros [H0 Hall]; (split; [by eapply sameFolders_first|]);
    intros m Hm; destruct (Hall m Hm) as [?|?]; [by left|right|by left|right];
    by eapply sameFolders_hasBase.
Qed.

Lemma matches_folder_order_witness :
  matches sampleFiles [modelA; modelB] =
  matches (handleFolderSelect video "b"
             [mkFile "y.mp4" "video/mp4" 2; mkFile "x.mov" "video/quicktime" 1]
             (handleFolderSelect video "a" [mkFile "x.mp4" "video/mp4" 0] ∅))
    [modelA; modelB].
Proof.
  apply matches_folder_order. intros k. unfold sampleFiles, handleFolderSelect.
  destruct (decide (k = "b")) as [->|Hb].
  { rewrite !lookup_insert_eq. constructor. vm_compute. apply perm_swap. }
  rewrite !(lookup_insert_ne _ "b") by done.
  destruct (lookup _ _); by constructor.
Defined.

Lemma matches_all_have (mf : ModelFiles) models names :
  matches mf models = Normal names →
  ∀ b, b ∈ names → ∀ m, m ∈ models → hasBase mf m b.
Proof.
  intros Hm b Hb m Hin. unfold matches in Hm.
  destruct (size mf <? length models) eqn:Hlt.
  { injection Hm as <-. by apply elem_of_nil in Hb. }
  destruct models as [|m0 rest]; [done|].
  destruct (matches_spec mf m0 rest) as (names' & Hm' & _ & _ & Hiff).
  { apply Nat.ltb_ge in Hlt. lia. }
  unfold matches in Hm'. rewrite Hlt, Hm in Hm'. injection Hm' as <-.
  apply Hiff in Hb as [Hb0 Hb].
  destruct (Hb m Hin) as [Heq|?]; [|done].
  unfold hasBase. rewrite Heq.
  destruct (mf !! model_id m0) as [fs|]; simpl in Hb0; [|by apply elem_of_nil in Hb0].
  apply list_elem_of_fmap in Hb0 as (f & -> & ?). by exists fs, f.
Qed.

Lemma caseFor_sources (mf : ModelFiles) models b tc :
  caseFor mf models b tc →
  src_modelId <$> case_sources tc = model_id <$> models ∧
  Forall (fun s => is_Some (src_file s)) (case_sources tc).
Proof.
  intros [_ Hsrc]. destruct tc as [i n srcs]. simpl in Hsrc |- *.
  induction Hsrc as [|m s ms ss (Hid & fs & f & _ & Hf & _) _ [IH1 IH2]]; csimpl.
  - done.
  - split; [by rewrite Hid, IH1|]. constructor; [|done]. rewrite Hf. by eexists.
Qed.

(** X4. For a non-empty model list [handleStart] never raises, whatever is
    loaded: it hands nothing on when there is no match, and otherwise a
    queue with one case per match, in order, each holding for every model a
    source with a file. *)
Theorem handleStart_safe (mf : ModelFiles) (models : list ModelConfig) :
  models ≠ [] →
  ∃ names, matches mf models = Normal names ∧
    match names with
    | [] => handleStart mf models = Normal None
    | _ => ∃ queue, handleStart mf models = Normal (Some queue) ∧
             case_name <$> queue = names ∧
             Forall (fun tc =>
               src_modelId <$> case_sources tc = model_id <$> models ∧
               Forall (fun s => is_Some (src_file s)) (case_sources tc)) queue
    end.
Proof.
  intros Hne.
  assert (∃ names, matches mf models = Normal names) as [names Hm].
  { unfold matches. destruct (size mf <? length models); [by eexists|].
    destruct models; [done|]. destruct (fold_left _ _ _). by eexists. }
  exists names. split; [done|]. unfold handleStart. rewrite Hm. simpl.
  destruct names as [|b0 names0]; [done|]. set (names := b0 :: names0) in *.
  destruct (mkQueue_spec mf models names 0) as (queue & -> & Hcases & _).
  { by apply matches_all_have. }
  exists queue. split_and!; [done| |].
  - clear Hm. induction Hcases as [|b tc ?? [Hn _] _ IH]; csimpl; [done|].
    by rewrite Hn, IH.
  - clear Hm. induction Hcases as [|b tc ?? Hcase _ IH]; constructor; [|done].
    by eapply caseFor_sources.
Qed.

Lemma handleStart_safe_witness :
  ∃ names, matches sampleFiles [modelA; modelB] = Normal names ∧
    match names with
    | [] => handleStart sampleFiles [modelA; modelB] = Normal None
    | _ => ∃ queue, handleStart sampleFiles [modelA; modelB] = Normal (Some queue) ∧
             case_name <$> queue = names ∧
             Forall (fun tc =>
               src_modelId <$> case_sources tc = model_id <$> [modelA; modelB] ∧
               Forall (fun s => is_Some (src_file s)) (case_sources tc)) queue
    end.
Proof. apply handleStart_safe. discriminate. Defined.

(** X5. Removing the folder of a configured model makes the upload screen
    not ready, whatever else is loaded. *)
Theorem removeFiles_not_ready (mf : ModelFiles) (models : list ModelConfig) m :
  m ∈ models → isReady (removeFiles (model_id m) mf) models = Normal false.
Proof.
  intros Hin. unfold isReady.
  assert (∃ names, matches (removeFiles (model_id m) mf) models = Normal names)
    as [names Hm].
  { unfold matches. destruct (size _ <? length models); [by eexists|].
    destruct models; [by apply elem_of_nil in Hin|].
    destruct (fold_left _ _ _). by eexists. }
  rewrite Hm. simpl. destruct names as [|b names]; [done|]. exfalso.
  destruct (matches_nonempty_loaded _ models (b :: names) b Hm) with (m := m)
    as (fs & Hfs & _); [by left|done|].
  unfold removeFiles in Hfs. by rewrite lookup_delete_eq in Hfs.
Qed.

Lemma removeFiles_not_ready_witness :
  isReady (removeFiles (model_id modelB) sampleFiles) [modelA; modelB] = Normal false.
Proof. apply removeFiles_not_ready. apply elem_of_cons. right. apply elem_of_cons. by left. Defined.

(** X6. Selecting a folder again replaces the earlier selection of that
    model, removing after selecting is removing, and a selection keeps, in
    their order, exactly the files that pass the media-type filter and leaves
    the other models' folders alone. *)
Theorem handleFolderSelect_replaces mediaType modelId fileList fileList2 (mf : ModelFiles) :
  handleFolderSelect mediaType modelId fileList2
    (handleFolderSelect mediaType modelId fileList mf)
  = handleFolderSelect mediaType modelId fileList2 mf ∧
  removeFiles modelId (handleFolderSelect mediaType modelId fileList mf)
  = removeFiles modelId mf ∧
  (∃ kept, handleFolderSelect mediaType modelId fileList mf !! modelId = Some kept ∧
           kept `sublist_of` fileList ∧
           ∀ f, f ∈ kept ↔ f ∈ fileList ∧ validFile mediaType f = true) ∧
  (∀ other, other ≠ modelId →
     handleFolderSelect mediaType modelId fileList mf !! other = mf !! other).
Proof.
  unfold handleFolderSelect, removeFiles. split_and!.
  - apply insert_insert_eq.
  - apply delete_insert_eq.
  - eexists. rewrite lookup_insert_eq. split_and!; [done|apply sublist_filter|].
    intros f. rewrite list_elem_of_filter. naive_solver.
  - intros other Hne. by rewrite lookup_insert_ne.
Qed.

(** ** The compositor beyond the claims *)

Lemma selectMimeType_in env : selectMimeType env ∈ mimeTypes.
Proof.
  unfold selectMimeType. destruct (List.find _ mimeTypes) as [t|] eqn:Hf; simpl.
  - apply find_first in Hf as (pre & post & -> & _). set_solver.
  - unfold mimeTypes. set_solver.
Qed.

(** X7. The recording type is the first supported entry of the preference
    list, and ["video/webm"] when the browser supports none of them; the file
    extension is [mp4] exactly for the three MP4 entries and [webm] for the
    rest. *)
Theorem selectMimeType_first_supported env :
  ((∃ pre post, mimeTypes = pre ++ selectMimeType env :: post ∧
                env_isTypeSupported env (selectMimeType env) = true ∧
                Forall (fun t => env_isTypeSupported env t = false) pre) ∨
   (Forall (fun t => env_isTypeSupported env t = false) mimeTypes ∧
    selectMimeType env = "video/webm")) ∧
  (extensionOf (selectMimeType env) = "mp4" ↔ selectMimeType env ∈ mp4Types) ∧
  (extensionOf (selectMimeType env) = "webm" ↔ selectMimeType env ∉ mp4Types).
Proof.
  split.
  - unfold selectMimeType. destruct (List.find _ mimeTypes) as [t|] eqn:Hf; simpl.
    + left. apply find_first in Hf as (pre & post & ? & ? & ?). by exists pre, post.
    + right. split; [|done]. apply Forall_forall. intros t Ht.
      apply list_elem_of_In in Ht.
      by apply (List.find_none _ _ Hf t).
  - pose proof (selectMimeType_in env) as Hin. unfold mimeTypes in Hin.
    repeat (apply elem_of_cons in Hin as [->|Hin]);
      [..|by apply elem_of_nil in Hin];
      (split; (split; [intros H; vm_compute in H; try discriminate H;
                       unfold mp4Types; set_solver
                      |intros H; try (vm_compute; reflexivity);
                       exfalso; unfold mp4Types in H; set_solver])).
Qed.

Lemma maxHeight_canvas env els ms :
  loadedMedia env els = Some ms →
  totalWidth ms = sumWidths env (els.*1) ∧ maxHeight ms = canvasHeight env (els.*1).
Proof.
  intros (Hw & Hh & _)%loadedMedia_sizes. unfold maxHeight, canvasHeight.
  by rewrite Hw, Hh.
Qed.

(** X8. A resolved video composite is recorded in the selected type, which
    the browser supports, from a canvas as wide as the sum of the sources'
    video widths and as high as the largest video height (720 when that is
    0); every source had loaded; its extension is [mp4] or [webm]. *)
Theorem video_composite_geometry env fuel sources models onProgress st a st' :
  stitchMedia env fuel sources models video onProgress st = (Resolved a, st') →
  (∃ frames, blob a = VideoBlob (selectMimeType env) (sumWidths env sources)
                        (canvasHeight env sources) frames) ∧
  extension a = extensionOf (selectMimeType env) ∧
  (extension a = "mp4" ∨ extension a = "webm") ∧
  env_isTypeSupported env (selectMimeType env) = true ∧
  allLoaded env sources.
Proof.
  unfold stitchMedia. destruct sources as [|s0 rest]; [done|].
  set (sources := s0 :: rest). unfold stitchVideos.
  pose proof (createElements_fst sources st) as Hfst.
  destruct (createElements sources st) as [els st1]. simpl in Hfst.
  destruct (promiseAll env "video" els) as [videos| | |] eqn:Hall; try done.
  apply promiseAll_Resolved in Hall.
  pose proof (maxHeight_canvas env els videos Hall) as [Hw Hh].
  apply loadedMedia_sizes in Hall as (_ & _ & _ & _ & Hloaded).
  rewrite Hfst in Hw, Hh, Hloaded. rewrite Hw, Hh.
  destruct (env_getContext env _ _); simpl; [|done].
  destruct (env_isTypeSupported env (selectMimeType env)) eqn:Hsup; simpl; [|done].
  assert (extensionOf (selectMimeType env) = "mp4" ∨
          extensionOf (selectMimeType env) = "webm") as Hext.
  { unfold extensionOf. destruct (includes _ _); [by left|by right]. }
  destruct (renderLoop env sources videos fuel 0); simpl; [| |done];
    intros [= <- _]; simpl; split_and!; try done; by eexists.
Qed.

Lemma video_composite_geometry_witness :
  (∃ frames, VideoBlob "video/mp4" 300 50 5 =
     VideoBlob (selectMimeType sampleEnv) (sumWidths sampleEnv [sourceA; sourceB])
       (canvasHeight sampleEnv [sourceA; sourceB]) frames) ∧
  "mp4" = extensionOf (selectMimeType sampleEnv) ∧
  ("mp4" = "mp4" ∨ "mp4" = "webm") ∧
  env_isTypeSupported sampleEnv (selectMimeType sampleEnv) = true ∧
  allLoaded sampleEnv [sourceA; sourceB].
Proof.
  apply (video_composite_geometry sampleEnv 10 [sourceA; sourceB] [modelA; modelB]
           None browser0 {| blob := VideoBlob "video/mp4" 300 50 5; extension := "mp4" |}
           {| next_url := 2;
              log := [CreateObjectURL "blob:0"; CreateObjectURL "blob:1";
                      RevokeObjectURL "blob:0"; RevokeObjectURL "blob:1"] |}).
  vm_compute. reflexivity.
Defined.

Lemma createdUrls_app evs1 evs2 :
  createdUrls (evs1 ++ evs2) = createdUrls evs1 ++ createdUrls evs2.
Proof. apply omap_app. Qed.

Lemma revokedUrls_app evs1 evs2 :
  revokedUrls (evs1 ++ evs2) = revokedUrls evs1 ++ revokedUrls evs2.
Proof. apply omap_app. Qed.

Lemma blob_prefix (s : string) : String.prefix "blob:" ("blob:" +:+ s) = true.
Proof.
  change ("blob:" +:+ s)
    with (String "b" (String "l" (String "o" (String "b" (String ":" s)))))%char.
  simpl. by destruct s.
Qed.

Lemma createElements_urls sources st :
  ∃ evs, log (createElements sources st).2 = log st ++ evs ∧
         revokedUrls evs = [] ∧
         ∀ u, u ∈ createdUrls evs →
              u ∈ (createElements sources st).1.*2 ∧ String.prefix "blob:" u = true.
Proof.
  revert st. induction sources as [|src rest IH]; intros st; simpl.
  { exists []. rewrite app_nil_r. split_and!; [done..|]. by intros u ?%elem_of_nil. }
  unfold sourceUrl. destruct (src_file src).
  - simpl. destruct (IH {| next_url := S (next_url st);
        log := log st ++ [CreateObjectURL ("blob:" +:+ pretty (N.of_nat (next_url st)))] |})
      as (evs & Hlog & Hrev & Hurls).
    destruct (createElements rest _) as [els st2]. simpl in *.
    eexists. rewrite Hlog, <-app_assoc. split; [done|].
    rewrite revokedUrls_app, createdUrls_app, Hrev. split; [done|].
    intros u [->%list_elem_of_singleton|Hu]%elem_of_app.
    + split; [by left|apply blob_prefix].
    + destruct (Hurls u Hu). split; [by right|done].
  - destruct (IH st) as (evs & Hlog & Hrev & Hurls).
    destruct (createElements rest st) as [els st2]. simpl in *. exists evs.
    split_and!; [done..|]. intros u Hu. destruct (Hurls u Hu). split; [by right|done].
Qed.

Lemma revokeAll_urls ms st :
  ∃ evs, log (revokeAll ms st) = log st ++ evs ∧
         createdUrls evs = [] ∧
         ∀ u, u ∈ media_src <$> ms → String.prefix "blob:" u = true →
              u ∈ revokedUrls evs.
Proof.
  unfold revokeAll. revert st. induction ms as [|m ms IH]; intros st; simpl.
  { exists []. rewrite app_nil_r. split_and!; [done..|]. by intros u ?%elem_of_nil. }
  destruct (String.prefix "blob:" (media_src m)) eqn:Hp.
  - destruct (IH (revokeObjectURL (media_src m) st)) as (evs & -> & Hc & Hr).
    simpl. eexists. rewrite <-app_assoc. split; [done|].
    rewrite createdUrls_app, revokedUrls_app, Hc. split; [done|].
    intros u [->|Hu]%elem_of_cons Hpu; apply elem_of_app; [left; by left|right; auto].
  - destruct (IH st) as (evs & -> & Hc & Hr). exists evs. split_and!; [done..|].
    intros u [->|Hu]%elem_of_cons Hpu; [congruence|auto].
Qed.

Lemma progress_urls onProgress msg st :
  quietCallback onProgress →
  ∃ evs, log (progress onProgress msg st) = log st ++ evs ∧
         createdUrls evs = [] ∧ revokedUrls evs = [].
Proof.
  intros Hq. unfold progress. destruct onProgress as [cb|].
  - destruct (Hq cb msg eq_refl). by exists (cb msg).
  - exists []. by rewrite app_nil_r.
Qed.

(** X9. On the success path the bookkeeping is complete: when [stitchMedia]
    resolves, in either mode, every object URL it created has been revoked
    after all of them were created. *)
Theorem resolved_revokes_urls env fuel sources models mediaType onProgress st a st' :
  quietCallback onProgress →
  stitchMedia env fuel sources models mediaType onProgress st = (Resolved a, st') →
  ∃ before after,
    log st' = log st ++ before ++ after ∧
    revokedUrls before = [] ∧ createdUrls after = [] ∧
    ∀ u, u ∈ createdUrls before → u ∈ revokedUrls after.
Proof.
  intros Hq. unfold stitchMedia. destruct sources as [|s0 rest]; [done|].
  set (sources := s0 :: rest). destruct mediaType.
  - unfold stitchVideos.
    destruct (createElements_urls sources st) as (evs & Hlog & Hrev & Hurls).
    destruct (createElements sources st) as [els st1]. simpl in Hlog, Hurls.
    destruct (progress_urls onProgress "Loading videos..." st1 Hq)
      as (p1 & Hp1 & Hc1 & Hr1).
    destruct (promiseAll env "video" els) as [videos| | |] eqn:Hall; try done.
    apply promiseAll_Resolved, loadedMedia_sizes in Hall as (_ & _ & _ & Hsrc & _).
    destruct (negb (env_getContext env _ _)); [done|].
    destruct (negb (env_isTypeSupported env _)); [done|].
    destruct (progress_urls onProgress "Rendering video..."
                (progress onProgress "Loading videos..." st1) Hq)
      as (p2 & Hp2 & Hc2 & Hr2).
    destruct (revokeAll_urls videos
                (progress onProgress "Rendering video..."
                   (progress onProgress "Loading videos..." st1)))
      as (evs' & Hlog' & Hc' & Hr').
    assert (log (revokeAll videos
                   (progress onProgress "Rendering video..."
                      (progress onProgress "Loading videos..." st1)))
            = log st ++ (evs ++ p1 ++ p2) ++ evs') as Hfull.
    { rewrite Hlog', Hp2, Hp1, Hlog, <-!app_assoc. done. }
    assert (revokedUrls (evs ++ p1 ++ p2) = []) as Hrb.
    { by rewrite !revokedUrls_app, Hrev, Hr1, Hr2. }
    assert (∀ u, u ∈ createdUrls (evs ++ p1 ++ p2) → u ∈ revokedUrls evs') as Hall.
    { intros u. rewrite !createdUrls_app, Hc1, Hc2, !app_nil_r. intros Hu.
      destruct (Hurls u Hu) as [Hin Hpre]. apply Hr'; [|done]. by rewrite Hsrc. }
    destruct (renderLoop env sources videos fuel 0); simpl; [| |done];
      intros [= _ <-]; by exists (evs ++ p1 ++ p2), evs'.
  - unfold stitchImages.
    destruct (progress_urls onProgress "Loading images..." st Hq)
      as (p1 & Hp1 & Hc1 & Hr1).
    destruct (createElements_urls sources (progress onProgress "Loading images..." st))
      as (evs & Hlog & Hrev & Hurls).
    destruct (createElements sources _) as [els st1]. simpl in Hlog, Hurls.
    destruct (promiseAll env "image" els) as [images| | |] eqn:Hall; try done.
    apply promiseAll_Resolved, loadedMedia_sizes in Hall as (_ & _ & _ & Hsrc & _).
    destruct (negb (env_getContext env _ _)); [done|].
    destruct (env_toBlob env _ _); [|done].
    destruct (revokeAll_urls images st1) as (evs' & Hlog' & Hc' & Hr').
    intros [= _ <-]. exists (p1 ++ evs), evs'. split_and!.
    + rewrite Hlog', Hlog, Hp1, <-!app_assoc. done.
    + by rewrite revokedUrls_app, Hrev, Hr1.
    + done.
    + intros u. rewrite createdUrls_app, Hc1. simpl. intros Hu.
      destruct (Hurls u Hu) as [Hin Hpre]. apply Hr'; [|done]. by rewrite Hsrc.
Qed.

Lemma resolved_revokes_urls_witness :
  ∃ before after,
    [CreateObjectURL "blob:0"; CreateObjectURL "blob:1";
     RevokeObjectURL "blob:0"; RevokeObjectURL "blob:1"]
      = log browser0 ++ before ++ after ∧
    revokedUrls before = [] ∧ createdUrls after = [] ∧
    ∀ u, u ∈ createdUrls before → u ∈ revokedUrls after.
Proof.
  apply (resolved_revokes_urls sampleEnv 0 [sourceA; sourceB] [modelA; modelB] image
           None browser0 {| blob := ImageBlob 300 50; extension := "png" |}
           {| next_url := 2;
              log := [CreateObjectURL "blob:0"; CreateObjectURL "blob:1";
                      RevokeObjectURL "blob:0"; RevokeObjectURL "blob:1"] |}).
  - intros cb msg H. discriminate H.
  - vm_compute. reflexivity.
Defined.

(** X10. For a non-empty source list the image composite resolves exactly
    when every source decodes, the canvas yields a 2D context and the canvas
    encodes to a blob. *)
Theorem image_composite_resolves_iff env fuel sources models onProgress st :
  sources ≠ [] →
  (∃ a, (stitchMedia env fuel sources models image onProgress st).1 = Resolved a) ↔
  allLoaded env sources ∧
  env_getContext env (sumWidths env sources) (canvasHeight env sources) = true ∧
  env_toBlob env (sumWidths env sources) (canvasHeight env sources) = true.
Proof.
  intros Hne. unfold stitchMedia. destruct sources as [|s0 rest]; [done|].
  set (sources := s0 :: rest). unfold stitchImages.
  pose proof (createElements_fst sources (progress onProgress "Loading images..." st)) as Hfst.
  destruct (createElements sources _) as [els st1]. simpl in Hfst. split.
  - intros [a Ha]. destruct (promiseAll env "image" els) as [images| | |] eqn:Hall;
      try done.
    apply promiseAll_Resolved in Hall.
    pose proof (maxHeight_canvas env els images Hall) as [Hw Hh].
    apply loadedMedia_sizes in Hall as (_ & _ & _ & _ & Hloaded).
    rewrite Hfst in Hw, Hh, Hloaded. rewrite Hw, Hh in Ha.
    destruct (env_getContext env _ _); simpl in Ha; [|done].
    by destruct (env_toBlob env _ _).
  - intros (Hloaded & Hctx & Hblob). rewrite <-Hfst in Hloaded.
    destruct (promiseAll_resolves env "image" els Hloaded) as [images Hall].
    rewrite Hall. apply promiseAll_Resolved in Hall.
    pose proof (maxHeight_canvas env els images Hall) as [Hw Hh].
    rewrite Hfst in Hw, Hh. rewrite Hw, Hh, Hctx, Hblob. simpl. by eexists.
Qed.

Lemma image_composite_resolves_iff_witness :
  (∃ a, (stitchMedia sampleEnv 0 [sourceA; sourceB] [modelA; modelB] image None
           browser0).1 = Resolved a) ↔
  allLoaded sampleEnv [sourceA; sourceB] ∧
  env_getContext sampleEnv (sumWidths sampleEnv [sourceA; sourceB])
    (canvasHeight sampleEnv [sourceA; sourceB]) = true ∧
  env_toBlob sampleEnv (sumWidths sampleEnv [sourceA; sourceB])
    (canvasHeight sampleEnv [sourceA; sourceB]) = true.
Proof. apply image_composite_resolves_iff. discriminate. Defined.

Lemma loadedMedia_None env els src :
  src ∈ els.*1 → env_load env src = LoadStalled → loadedMedia env els = None.
Proof.
  induction els as [|[s u] els IH]; csimpl; [by intros ?%elem_of_nil|].
  intros [->|Hin]%elem_of_cons Hl.
  - by rewrite Hl.
  - rewrite (IH Hin Hl). by destruct (env_load env s).
Qed.

Lemma firstFailure_none_failed env els :
  (∀ src t, src ∈ els.*1 → env_load env src ≠ LoadFailed t) →
  firstFailure env els = None.
Proof.
  induction els as [|[s u] els IH]; csimpl; [done|]. intros H.
  rewrite IH by (intros src t ?; apply H; by right).
  destruct (env_load env s) as [| t |] eqn:Hl; try done.
  destruct (H s t); [by left|done].
Qed.

(** X11. There is no timeout: when no source fails but one never answers,
    the promise of [stitchMedia] is never settled, in either mode. *)
Theorem stalled_source_never_settles env fuel sources models mediaType onProgress st src :
  src ∈ sources → env_load env src = LoadStalled →
  (∀ s t, s ∈ sources → env_load env s ≠ LoadFailed t) →
  (stitchMedia env fuel sources models mediaType onProgress st).1 = Pending.
Proof.
  intros Hin Hstall Hnofail. unfold stitchMedia.
  destruct sources as [|s0 rest]; [by apply elem_of_nil in Hin|].
  set (sources := s0 :: rest) in *.
  assert (∀ what els, els.*1 = sources → promiseAll env what els = Pending) as Hp.
  { intros what els Hfst. unfold promiseAll. rewrite <-Hfst in Hin, Hnofail.
    rewrite (firstFailure_none_failed env els Hnofail).
    by rewrite (loadedMedia_None env els src Hin Hstall). }
  destruct mediaType.
  - unfold stitchVideos. pose proof (createElements_fst sources st) as Hfst.
    destruct (createElements sources st) as [els st1]. simpl in Hfst.
    by rewrite (Hp "video" els Hfst).
  - unfold stitchImages.
    pose proof (createElements_fst sources (progress onProgress "Loading images..." st)) as Hfst.
    destruct (createElements sources _) as [els st1]. simpl in Hfst.
    by rewrite (Hp "image" els Hfst).
Qed.

Lemma stalled_source_never_settles_witness :
  (stitchMedia (withLoad (fun _ => LoadStalled) sampleEnv) 0 [sourceA] [modelA]
     image None browser0).1 = Pending.
Proof.
  apply (stalled_source_never_settles _ _ _ _ _ _ _ sourceA).
  - by left.
  - reflexivity.
  - intros s t _ H. discriminate H.
Defined.

Lemma firstFailure_earliest env els t src :
  firstFailure env els = Some (t, src) →
  src ∈ els.*1 ∧ env_load env src = LoadFailed t ∧
  ∀ s' t', s' ∈ els.*1 → env_load env s' = LoadFailed t' → t ≤ t'.
Proof.
  revert t src. induction els as [|[s u] els IH]; intros t src; csimpl; [done|].
  destruct (env_load env s) as [w h|ts|] eqn:Hl.
  - intros (Hin & ? & Hmin)%IH. split_and!; [by right|done|].
    intros s' t' [->|?]%elem_of_cons ?; [congruence|by eapply Hmin].
  - destruct (firstFailure env els) as [[t1 s1]|] eqn:Hff.
    + destruct (IH t1 s1 eq_refl) as (Hin & ? & Hmin).
      destruct (t1 <? ts) eqn:Hlt; intros [= <- <-].
      * apply Nat.ltb_lt in Hlt. split_and!; [by right|done|].
        intros s' t' [->|?]%elem_of_cons Hs'; [|by eapply Hmin].
        rewrite Hl in Hs'. injection Hs' as <-. lia.
      * apply Nat.ltb_ge in Hlt. split_and!; [by left|done|].
        intros s' t' [->|?]%elem_of_cons Hs'.
        -- rewrite Hl in Hs'. by injection Hs' as <-.
        -- etrans; [done|]. by eapply Hmin.
    + intros [= <- <-]. split_and!; [by left|done|].
      intros s' t' [->|Hin']%elem_of_cons Hs'.
      * rewrite Hl in Hs'. by injection Hs' as <-.
      * destruct (firstFailure_Some env els s' t' Hin' Hs') as [? ?]. congruence.
  - intros (Hin & ? & Hmin)%IH. split_and!; [by right|done|].
    intros s' t' [->|?]%elem_of_cons ?; [congruence|by eapply Hmin].
Qed.

(** X12. When a source fails to load, the composite rejects with the message
    that names a failed source, namely one whose failure came first; this
    holds even if other sources never answer. *)
Theorem load_failure_names_source env fuel sources models mediaType onProgress st src0 t0 :
  src0 ∈ sources → env_load env src0 = LoadFailed t0 →
  ∃ src t,
    src ∈ sources ∧ env_load env src = LoadFailed t ∧
    (∀ s' t', s' ∈ sources → env_load env s' = LoadFailed t' → t ≤ t') ∧
    (stitchMedia env fuel sources models mediaType onProgress st).1 =
      Rejected (Error ("Failed to load " +:+
                       match mediaType with video => "video" | image => "image" end
                       +:+ ": " +:+ src_name src)).
Proof.
  intros Hin Hfail. unfold stitchMedia.
  destruct sources as [|s0 rest]; [by apply elem_of_nil in Hin|].
  set (sources := s0 :: rest) in *.
  assert (∀ what els, els.*1 = sources →
            ∃ src t, src ∈ sources ∧ env_load env src = LoadFailed t ∧
              (∀ s' t', s' ∈ sources → env_load env s' = LoadFailed t' → t ≤ t') ∧
              promiseAll env what els =
                Rejected (Error ("Failed to load " +:+ what +:+ ": " +:+ src_name src)))
    as Hp.
  { intros what els Hfst. unfold promiseAll. rewrite <-Hfst in Hin |- *.
    destruct (firstFailure_Some env els src0 t0 Hin Hfail) as [[t src] Hff].
    rewrite Hff. destruct (firstFailure_earliest env els t src Hff) as (? & ? & ?).
    by exists src, t. }
  destruct mediaType.
  - unfold stitchVideos. pose proof (createElements_fst sources st) as Hfst.
    destruct (createElements sources st) as [els st1]. simpl in Hfst.
    destruct (Hp "video" els Hfst) as (src & t & ? & ? & ? & ->). by exists src, t.
  - unfold stitchImages.
    pose proof (createElements_fst sources (progress onProgress "Loading images..." st)) as Hfst.
    destruct (createElements sources _) as [els st1]. simpl in Hfst.
    destruct (Hp "image" els Hfst) as (src & t & ? & ? & ? & ->). by exists src, t.
Qed.

Lemma load_failure_names_source_witness :
  ∃ src t,
    src ∈ [sourceA; sourceB] ∧ env_load brokenEnv src = LoadFailed t ∧
    (∀ s' t', s' ∈ [sourceA; sourceB] → env_load brokenEnv s' = LoadFailed t' → t ≤ t') ∧
    (stitchMedia brokenEnv 0 [sourceA; sourceB] [modelA; modelB] image None browser0).1 =
      Rejected (Error ("Failed to load " +:+ "image" +:+ ": " +:+ src_name src)).
Proof.
  apply (load_failure_names_source brokenEnv 0 [sourceA; sourceB] [modelA; modelB]
           image None browser0 sourceB 0).
  - right. by left.
  - reflexivity.
Defined.

Lemma allEnded_sources env videos sources n :
  media_source <$> videos = sources →
  allEnded env videos n ↔ sourcesEnded env sources n.
Proof.
  intros <-. unfold allEnded, sourcesEnded. by rewrite Forall_fmap.
Qed.

(** X13. The video composite does finish: when every source loads, the
    context and the selected type are available, the recorder keeps recording
    and frame [k] is the first at which every source has ended, then with
    fuel for more than [k] frames the call resolves with a recording of
    [k + 1] frames and the geometry of the canvas. *)
Theorem video_composite_resolves env fuel sources models onProgress st k :
  sources ≠ [] →
  allLoaded env sources →
  env_getContext env (sumWidths env sources) (canvasHeight env sources) = true →
  env_isTypeSupported env (selectMimeType env) = true →
  (∀ j, j ≤ k → env_recorderState env sources j = recording) →
  sourcesEnded env sources k →
  (∀ j, j < k → ¬ sourcesEnded env sources j) →
  k < fuel →
  (stitchMedia env fuel sources models video onProgress st).1 =
    Resolved {| blob := VideoBlob (selectMimeType env) (sumWidths env sources)
                          (canvasHeight env sources) (S k);
                extension := extensionOf (selectMimeType env) |}.
Proof.
  intros Hne Hloaded Hctx Hsup Hrec Hend Hfirst Hfuel. unfold stitchMedia.
  destruct sources as [|s0 rest]; [done|]. set (sources := s0 :: rest) in *.
  unfold stitchVideos. pose proof (createElements_fst sources st) as Hfst.
  destruct (createElements sources st) as [els st1]. simpl in Hfst.
  rewrite <-Hfst in Hloaded.
  destruct (promiseAll_resolves env "video" els Hloaded) as [videos Hall].
  rewrite Hall. apply promiseAll_Resolved in Hall.
  pose proof (maxHeight_canvas env els videos Hall) as [Hw Hh].
  apply loadedMedia_sizes in Hall as (_ & _ & Hsrc & _).
  rewrite Hfst in Hw, Hh, Hsrc. rewrite Hw, Hh, Hctx, Hsup. simpl.
  rewrite (renderLoop_stops env sources videos fuel 0 k); [done|..].
  - intros j ?. apply Hrec. lia.
  - by apply (allEnded_sources env videos sources k Hsrc).
  - intros j ? ?%(allEnded_sources env videos sources j Hsrc). apply (Hfirst j); [lia|done].
  - lia.
  - lia.
Qed.

Lemma video_composite_resolves_witness :
  (stitchMedia sampleEnv 10 [sourceA; sourceB] [modelA; modelB] video None browser0).1 =
    Resolved {| blob := VideoBlob (selectMimeType sampleEnv)
                          (sumWidths sampleEnv [sourceA; sourceB])
                          (canvasHeight sampleEnv [sourceA; sourceB]) 5;
                extension := extensionOf (selectMimeType sampleEnv) |}.
Proof.
  apply (video_composite_resolves sampleEnv 10 [sourceA; sourceB] [modelA; modelB]
           None browser0 4).
  - discriminate.
  - repeat constructor; by eexists _, _.
  - reflexivity.
  - reflexivity.
  - reflexivity.
  - repeat constructor.
  - intros j Hj [_ [Hb _]%Forall_cons]%Forall_cons.
    change ((4 <=? j) = true) in Hb. apply Nat.leb_le in Hb. lia.
  - lia.
Defined.

(** ** Batch export beyond the claims *)

Lemma batchLoop_done env fuel caseQueue models mediaType total reps :
  Forall (composites env fuel caseQueue models mediaType) reps →
  ∀ i zip st, ∃ evs st',
    batchLoop env fuel caseQueue models mediaType total i reps zip st
      = (LoopDone (batchZip env fuel caseQueue models mediaType reps zip), st') ∧
    log st' = log st ++ evs ∧
    batchView evs = batchEvents env fuel caseQueue models mediaType total i reps.
Proof.
  induction 1 as [|v reps Hv _ IH]; intros i zip st; simpl.
  - exists [], st. by rewrite app_nil_r.
  - unfold caseEvents. destruct (findCase caseQueue v) as [tcv|] eqn:Hfind.
    + destruct (Hv tcv Hfind) as [a Ha]. rewrite Ha.
      destruct (stitchMedia_batch env fuel models mediaType tcv
                  (emit (StitchCall (case_name tcv))
                     (emit (SetZipProgress (processingMessage i total tcv)) st)))
        as (evs & st1 & -> & Hlog & Hview).
      rewrite Ha.
      destruct (IH (S i) (zipFile (artifactName tcv a) (blob a) zip)
                  (emit (ZipFile (artifactName tcv a) (blob a)) st1))
        as (evs2 & st' & -> & Hlog2 & Hview2).
      eexists _, st'. split; [done|]. simpl in Hlog, Hlog2.
      rewrite Hlog2, Hlog, <-!app_assoc. split; [done|].
      rewrite !batchView_app, Hview, Hview2. done.
    + apply IH.
Qed.

Lemma batchLoop_stuck env fuel caseQueue models mediaType total pre r post tc :
  Forall (composites env fuel caseQueue models mediaType) pre →
  findCase caseQueue r = Some tc →
  stitchOutcome env fuel models mediaType tc = Pending →
  ∀ i zip st, ∃ evs st',
    batchLoop env fuel caseQueue models mediaType total i (pre ++ r :: post) zip st
      = (LoopStuck, st') ∧
    log st' = log st ++ evs ∧
    batchView evs =
      batchEvents env fuel caseQueue models mediaType total i (pre ++ [r]).
Proof.
  intros Hpre Hr He. induction Hpre as [|v pre Hv _ IH]; intros i zip st; simpl.
  - rewrite Hr. unfold caseEvents. rewrite Hr, He.
    destruct (stitchMedia_batch env fuel models mediaType tc
                (emit (StitchCall (case_name tc))
                   (emit (SetZipProgress (processingMessage i total tc)) st)))
      as (evs & st' & -> & Hlog & Hview).
    rewrite He. eexists _, st'. split; [done|]. simpl in Hlog.
    rewrite Hlog, <-!app_assoc. split; [done|].
    rewrite !batchView_app, Hview. done.
  - unfold caseEvents. destruct (findCase caseQueue v) as [tcv|] eqn:Hfind.
    + destruct (Hv tcv Hfind) as [a Ha]. rewrite Ha.
      destruct (stitchMedia_batch env fuel models mediaType tcv
                  (emit (StitchCall (case_name tcv))
                     (emit (SetZipProgress (processingMessage i total tcv)) st)))
        as (evs & st1 & -> & Hlog & Hview).
      rewrite Ha.
      destruct (IH (S i) (zipFile (artifactName tcv a) (blob a) zip)
                  (emit (ZipFile (artifactName tcv a) (blob a)) st1))
        as (evs2 & st' & -> & Hlog2 & Hview2).
      eexists _, st'. split; [done|]. simpl in Hlog, Hlog2.
      rewrite Hlog2, Hlog, <-!app_assoc. split; [done|].
      rewrite !batchView_app, Hview, Hview2. done.
    + apply IH.
Qed.

Lemma batchEvents_quiet env fuel caseQueue models mediaType total i reps :
  let evs := batchEvents env fuel caseQueue models mediaType total i reps in
  List.filter isDownload evs = [] ∧ List.filter isProcessingEnd evs = [].
Proof.
  revert i. induction reps as [|r reps IH]; intros i; simpl; [done|].
  destruct (IH (S i)) as (Hd & Hp).
  rewrite !List.filter_app, Hd, Hp, !app_nil_r.
  unfold caseEvents. destruct (findCase caseQueue r) as [tc|]; [|done].
  by destruct (stitchOutcome env fuel models mediaType tc).
Qed.

Lemma batch_loop_done_split env fuel voteHistory caseQueue models mediaType st :
  let reps := List.filter vote_isRepresentative voteHistory in
  let zip := batchZip env fuel caseQueue models mediaType reps [] in
  reps ≠ [] →
  Forall (composites env fuel caseQueue models mediaType) reps →
  ∃ evs st1,
    log st1 = log st ++ [SetIsProcessingZip true] ++ evs ∧
    batchView evs =
      batchEvents env fuel caseQueue models mediaType (length reps) 0 reps ∧
    handleBatchExportZip env fuel voteHistory caseQueue models mediaType st =
      let st2 := emit (GenerateZip zip)
                   (emit (SetZipProgress "Compressing archive...") st1) in
      if env_generateAsync env zip then
        let '(url, st3) := createObjectURL st2 in
        (BatchReturned,
         batchFinally (revokeObjectURL url
                         (emit (Download (zipDownloadName mediaType) zip) st3)))
      else (BatchReturned, batchFinally (batchCatch st2)).
Proof.
  intros reps zip Hne Hall. unfold handleBatchExportZip. fold reps.
  destruct (batchLoop_done env fuel caseQueue models mediaType (length reps) reps Hall
              0 [] (emit (SetIsProcessingZip true) st))
    as (evs & st1 & Hloop & Hlog & Hview).
  exists evs, st1. split_and!.
  - simpl in Hlog. by rewrite Hlog, <-app_assoc.
  - done.
  - destruct reps as [|r0 reps0] eqn:Hr; [done|]. rewrite Hloop. fold zip. done.
Qed.


(** X15. When every marked case composites but generating the archive fails,
    nothing is offered for download and the failure is reported once. *)
Theorem batch_generate_failure env fuel voteHistory caseQueue models mediaType st :
  let reps := List.filter vote_isRepresentative voteHistory in
  let zip := batchZip env fuel caseQueue models mediaType reps [] in
  reps ≠ [] →
  Forall (composites env fuel caseQueue models mediaType) reps →
  env_generateAsync env zip = false →
  ∃ evs st',
    handleBatchExportZip env fuel voteHistory caseQueue models mediaType st
      = (BatchReturned, st') ∧
    log st' = log st ++ [SetIsProcessingZip true] ++ evs ++
      [SetZipProgress "Compressing archive..."; GenerateZip zip;
       ConsoleError "Batch export failed";
       Alert "Failed to create batch export. Please try again.";
       SetIsProcessingZip false; SetZipProgress ""] ∧
    batchView evs =
      batchEvents env fuel caseQueue models mediaType (length reps) 0 reps ∧
    List.filter isAlert evs = [] ∧ List.filter isDownload evs = [].
Proof.
  intros reps zip Hne Hall Hgen.
  destruct (batch_loop_done_split env fuel voteHistory caseQueue models mediaType st
              Hne Hall) as (evs & st1 & Hlog & Hview & ->).
  fold reps zip. rewrite Hgen. simpl.
  eexists evs, _. split; [done|]. simpl. rewrite Hlog, <-!app_assoc. simpl.
  split; [done|]. split; [done|].
  pose proof (batchEvents_facts env fuel caseQueue models mediaType
                (length reps) 0 reps) as (_ & Ha & _).
  pose proof (batchEvents_quiet env fuel caseQueue models mediaType
                (length reps) 0 reps) as (Hd & _).
  rewrite (filter_batchView isAlert) by (by intros []).
  rewrite (filter_batchView isDownload) by (by intros []).
  by rewrite Hview.
Qed.

(** X16. There is no timeout in the batch either: when a marked case's
    composite never settles, the handler stays suspended after that case's
    progress message; processing is never marked as ended, no alert is shown
    and no archive is generated. *)
Theorem batch_never_settles env fuel voteHistory caseQueue models mediaType st
    pre r post tc :
  List.filter vote_isRepresentative voteHistory = pre ++ r :: post →
  Forall (composites env fuel caseQueue models mediaType) pre →
  findCase caseQueue r = Some tc →
  stitchOutcome env fuel models mediaType tc = Pending →
  ∃ evs st',
    handleBatchExportZip env fuel voteHistory caseQueue models mediaType st
      = (BatchStuck, st') ∧
    log st' = log st ++ evs ∧
    batchView evs =
      [SetIsProcessingZip true] ++
      batchEvents env fuel caseQueue models mediaType
        (length (pre ++ r :: post)) 0 (pre ++ [r]) ∧
    List.filter isProcessingEnd evs = [] ∧
    List.filter isAlert evs = [] ∧
    List.filter isArchive evs = [].
Proof.
  intros Hreps Hpre Hr He. unfold handleBatchExportZip. rewrite Hreps.
  remember (pre ++ r :: post) as reps eqn:Hl. cbv zeta.
  destruct reps as [|r0 reps0]; [by destruct pre|]. rewrite Hl. clear Hreps.
  destruct (batchLoop_stuck env fuel caseQueue models mediaType
              (length (pre ++ r :: post)) pre r post tc Hpre Hr He
              0 [] (emit (SetIsProcessingZip true) st))
    as (evs & st1 & -> & Hlog & Hview).
  exists ([SetIsProcessingZip true] ++ evs), st1.
  assert (batchView ([SetIsProcessingZip true] ++ evs) =
          [SetIsProcessingZip true] ++
          batchEvents env fuel caseQueue models mediaType
            (length (pre ++ r :: post)) 0 (pre ++ [r])) as Hbv.
  { rewrite batchView_app, Hview. done. }
  pose proof (batchEvents_facts env fuel caseQueue models mediaType
                (length (pre ++ r :: post)) 0 (pre ++ [r])) as (_ & Ha & Hz).
  pose proof (batchEvents_quiet env fuel caseQueue models mediaType
                (length (pre ++ r :: post)) 0 (pre ++ [r])) as (_ & Hp).
  split_and!.
  - done.
  - simpl in *. by rewrite Hlog, <-app_assoc.
  - done.
  - rewrite (filter_batchView isProcessingEnd) by (by intros [| | |[]| | | | | | |]).
    rewrite Hbv, List.filter_app, Hp. done.
  - rewrite (filter_batchView isAlert) by (by intros []).
    rewrite Hbv, List.filter_app, Ha. done.
  - rewrite (filter_batchView isArchive) by (by intros []).
    rewrite Hbv, List.filter_app, Hz. done.
Qed.

Ltac solve_composites :=
  repeat (first [apply Forall_nil_2 | apply Forall_cons_2]);
  intros tc Htc; vm_compute in Htc; injection Htc as <-;
  eexists; vm_compute; reflexivity.


Lemma batch_generate_failure_witness :
  ∃ st', handleBatchExportZip noZipEnv 0 (markedVote <$> sampleQueue) sampleQueue
           [modelA; modelB] image browser0 = (BatchReturned, st') ∧
         List.filter isDownload (log st') = [].
Proof.
  destruct (batch_generate_failure noZipEnv 0 (markedVote <$> sampleQueue) sampleQueue
              [modelA; modelB] image browser0) as (evs & st' & H & Hlog & _ & _ & Hd).
  - discriminate.
  - solve_composites.
  - reflexivity.
  - exists st'. split; [done|]. rewrite Hlog. simpl.
    rewrite List.filter_app, Hd. reflexivity.
Defined.

Lemma batch_never_settles_witness :
  ∃ st', handleBatchExportZip stallEnv 0 (markedVote <$> sampleQueue) sampleQueue
           [modelA; modelB] image browser0 = (BatchStuck, st').
Proof.
  destruct (batch_never_settles stallEnv 0 (markedVote <$> sampleQueue) sampleQueue
              [modelA; modelB] image browser0
              [markedVote (imageCase 0 "x")] (markedVote (imageCase 1 "y"))
              [markedVote (imageCase 2 "z")] (imageCase 1 "y"))
    as (evs & st' & H & _).
  - reflexivity.
  - constructor; [|constructor]. intros tc Htc.
    vm_compute in Htc. injection Htc as <-. eexists. vm_compute. reflexivity.
  - vm_compute. reflexivity.
  - vm_compute. reflexivity.
  - by exists st'.
Defined.

(** ** The setup screen beyond the claims *)

Lemma palette_lookup (idx : nat) :
  default "" (MODEL_COLORS !! (idx mod length MODEL_COLORS)) ∈ MODEL_COLORS.
Proof.
  assert (idx mod length MODEL_COLORS < length MODEL_COLORS) as Hlt.
  { apply Nat.mod_upper_bound. discriminate. }
  destruct (lookup_lt_is_Some_2 _ _ Hlt) as [c Hc]. rewrite Hc. simpl.
  by eapply list_elem_of_lookup_2.
Qed.

Lemma setupStep_colors models a :
  Forall (fun m => model_color m ∈ MODEL_COLORS) models →
  Forall (fun m => model_color m ∈ MODEL_COLORS) (setupStep models a).
Proof.
  intros H. destruct a as [now|index|index name]; simpl.
  - unfold addModel. destruct (length models <? MAX_MODELS); [|done].
    apply Forall_app. split; [done|]. constructor; [|done]. apply palette_lookup.
  - unfold removeModel. destruct (MIN_MODELS <? length models); [|done].
    unfold splice1. by apply Forall_delete.
  - unfold updateName. destruct (models !! index) as [m|] eqn:Hm; [|done].
    apply Forall_insert; [done|]. simpl.
    by apply (Forall_lookup_1 _ _ _ _ H Hm).
Qed.

(** X17. Whatever the user does on the setup screen, every configured model
    carries one of the five palette colours: the colour lookup of [addModel]
    is never out of range. *)
Theorem configured_colors_in_palette (actions : list SetupAction) :
  Forall (fun m => model_color m ∈ MODEL_COLORS) (configuredModels actions).
Proof.
  unfold configuredModels.
  assert (Forall (fun m => model_color m ∈ MODEL_COLORS) initialModels) as H.
  { repeat constructor; unfold MODEL_COLORS; set_solver. }
  revert H. generalize initialModels.
  induction actions as [|a actions IH]; intros models H; simpl; [done|].
  by apply IH, setupStep_colors.
Qed.

Lemma model_id_inj (t t' : N) : "m" +:+ pretty t = "m" +:+ pretty t' → t = t'.
Proof. intros H. by apply (inj pretty), (inj (String.app "m")). Qed.

Lemma setupStep_ids models a (rest : list N) :
  NoDup (model_id <$> models) →
  (∀ t, a = AddModel t → "m" +:+ pretty t ∉ model_id <$> models) →
  (∀ t, t ∈ rest → "m" +:+ pretty t ∉ model_id <$> models) →
  (∀ t, a = AddModel t → t ∉ rest) →
  NoDup (model_id <$> setupStep models a) ∧
  ∀ t, t ∈ rest → "m" +:+ pretty t ∉ model_id <$> setupStep models a.
Proof.
  intros Hnd Hnew Hrest Hfresh. destruct a as [now|index|index name]; simpl.
  - unfold addModel. destruct (length models <? MAX_MODELS); [|done].
    rewrite fmap_app. simpl. split.
    + apply NoDup_app. split_and!; [done| |apply NoDup_singleton].
      intros x Hx ->%list_elem_of_singleton. by apply (Hnew now).
    + intros t Ht [?|Heq%list_elem_of_singleton]%elem_of_app; [by apply (Hrest t)|].
      apply model_id_inj in Heq as ->. by apply (Hfresh now).
  - unfold removeModel. destruct (MIN_MODELS <? length models); [|done].
    unfold splice1. rewrite list_fmap_delete. split.
    + eapply sublist_NoDup; [done|apply sublist_delete].
    + intros t Ht Hin%list_elem_of_delete_inv. by apply (Hrest t).
  - unfold updateName. destruct (models !! index) as [m|] eqn:Hm; [|done].
    rewrite list_fmap_insert. simpl.
    rewrite list_insert_id by by rewrite list_lookup_fmap, Hm. done.
Qed.

(** X18. Model ids stay pairwise distinct as long as the clock gives each
    [addModel] call its own value (and none of them is 1 or 2, the numbers of
    the two initial ids). *)
Theorem configured_ids_distinct (actions : list SetupAction) :
  NoDup (timestamps actions) →
  1%N ∉ timestamps actions → 2%N ∉ timestamps actions →
  NoDup (model_id <$> configuredModels actions).
Proof.
  intros Hnd H1 H2. unfold configuredModels.
  assert (NoDup (model_id <$> initialModels)) as Hinit.
  { apply (bool_decide_unpack _). vm_compute. exact I. }
  assert (∀ t, t ∈ timestamps actions →
               "m" +:+ pretty t ∉ model_id <$> initialModels) as Hfresh.
  { intros t Ht Hin. simpl in Hin.
    apply elem_of_cons in Hin as [Heq|Hin].
    { apply (model_id_inj t 1) in Heq as ->. done. }
    apply elem_of_cons in Hin as [Heq|Hin]; [|by apply elem_of_nil in Hin].
    apply (model_id_inj t 2) in Heq as ->. done. }
  clear H1 H2. revert Hinit Hfresh. generalize initialModels.
  induction actions as [|a actions IH]; intros models Hinit Hfresh; simpl; [done|].
  destruct (setupStep_ids models a (timestamps actions)) as [Hnd' Hfresh']; [done|..].
  - intros t ->. apply Hfresh. simpl. by left.
  - intros t Ht. apply Hfresh. destruct a; simpl; [by right|done|done].
  - intros t -> Ht. simpl in Hnd. by apply NoDup_cons in Hnd as [? _].
  - apply IH; [|done..]. destruct a; simpl in Hnd; [by apply NoDup_cons in Hnd as [_ ?]|done|done].
Qed.

Lemma configured_ids_distinct_witness :
  NoDup (model_id <$> configuredModels [AddModel 1762128000000; RemoveModel 0;
                                        AddModel 1762128000417]).
Proof.
  apply configured_ids_distinct.
  - apply (bool_decide_unpack _). vm_compute. exact I.
  - intros H. apply (bool_decide_pack _) in H. vm_compute in H. exact H.
  - intros H. apply (bool_decide_pack _) in H. vm_compute in H. exact H.
Defined.

(** ** The transport beyond the claims *)

Lemma refs_map_elem (f : VideoElement → VideoElement) (refs : list (option VideoElement)) v' :
  Some v' ∈ List.map (option_map f) refs → ∃ v, Some v ∈ refs ∧ v' = f v.
Proof.
  change (List.map ?g ?l) with (g <$> l).
  intros ([v|] & Heq & Hin)%list_elem_of_fmap; simpl in Heq; [|done].
  injection Heq as ->. by exists v.
Qed.

(** X19. Play and pause keep the tiles together: after [togglePlay] every
    mounted video plays exactly when the transport says so, whatever the
    state before, and seeking or changing the rate keeps that agreement;
    toggling twice restores the play state. *)
Theorem togglePlay_synced (a : Arena) :
  playSynced (togglePlay video a) ∧
  isPlaying (togglePlay video (togglePlay video a)) = isPlaying a ∧
  togglePlay image a = a ∧
  (∀ t, playSynced a → playSynced (handleSeek video t a)) ∧
  (∀ rate, playSynced a → playSynced (changePlaybackRate video rate a)).
Proof.
  split_and!.
  - intros v' (v & _ & ->)%refs_map_elem. done.
  - simpl. by destruct (isPlaying a).
  - done.
  - intros t Hs v' (v & Hv & ->)%refs_map_elem. simpl. by apply Hs.
  - intros rate Hs v' (v & Hv & ->)%refs_map_elem. simpl. by apply Hs.
Qed.

(** X20. The Reset button rewinds but does not pause: it clears the play
    state and zeroes every playhead, and leaves each video playing or paused
    as it was. So after a reset during playback the transport says "paused"
    while the mounted videos still play. *)
Theorem resetPlayback_keeps_playing (a : Arena) :
  isPlaying (resetPlayback a) = false ∧
  currentTime (resetPlayback a) = 0%Q ∧
  (∀ i v', videoRefs (resetPlayback a) !! i = Some (Some v') →
     el_currentTime v' = 0%Q ∧
     ∃ v, videoRefs a !! i = Some (Some v) ∧ el_playing v' = el_playing v) ∧
  (isPlaying a = true → playSynced a → (∃ v, Some v ∈ videoRefs a) →
   ¬ playSynced (resetPlayback a)).
Proof.
  split_and!; try done.
  - intros i v'. simpl. change (List.map ?f ?l) with (f <$> l).
    rewrite list_lookup_fmap. destruct (videoRefs a !! i) as [[v|]|]; simpl; try done.
    intros [= <-]. split; [done|]. by exists v.
  - intros Hplay Hs [v Hv] Hs'.
    assert (Some (setCurrentTime 0 v) ∈ videoRefs (resetPlayback a)) as Hin.
    { simpl. change (List.map ?f ?l) with (f <$> l).
      apply list_elem_of_fmap. by exists (Some v). }
    apply Hs' in Hin. simpl in Hin. rewrite (Hs v Hv) in Hin. congruence.
Qed.

Lemma resetPlayback_keeps_playing_witness :
  ¬ playSynced (resetPlayback (togglePlay video (arenaInit 1 2))).
Proof.
  apply resetPlayback_keeps_playing.
  - reflexivity.
  - intros v' (v & _ & ->)%refs_map_elem. done.
  - eexists. simpl. by left.
Defined.

(** ** The tiles *)

Lemma imap_positions {A B} (g : nat → B) (l l' : list A) :
  length l = length l' → imap (fun i _ => g i) l = imap (fun i _ => g i) l'.
Proof.
  revert g l'. induction l as [|x l IH]; intros g [|x' l'] Hlen; try done.
  simpl. f_equal. apply (IH (g ∘ S)). simpl in Hlen. lia.
Qed.

(** X21. In blind mode a tile's label and colour depend on its position
    only: any two orders of any models of the same number are labelled
    alike, and for up to five tiles the labels are pairwise different, as are
    the colours. Outside blind mode a tile shows the model's own name and
    colour. *)
Theorem blind_labels_by_position (displayed : list ModelConfig) :
  (∀ others, length others = length displayed →
             tileLabels true others = tileLabels true displayed) ∧
  (length displayed ≤ 5 →
   NoDup (tileLabels true displayed).*1 ∧ NoDup (tileLabels true displayed).*2) ∧
  tileLabels false displayed = (fun m => (model_name m, model_color m)) <$> displayed.
Proof.
  split_and!.
  - intros others Hlen.
    apply (imap_positions (fun i => tileLabel true i modelA) others displayed Hlen).
  - intros Hlen.
    destruct displayed as [|m0 [|m1 [|m2 [|m3 [|m4 [|m5 rest]]]]]];
      [..|simpl in Hlen; lia];
      (split; apply (bool_decide_unpack _); vm_compute; exact I).
  - exact (imap_const (fun m => (model_name m, model_color m)) displayed).
Qed.

Lemma blind_labels_by_position_witness :
  tileLabels true [modelB; modelA] = tileLabels true [modelA; modelB].
Proof. apply blind_labels_by_position. reflexivity. Defined.

(** ** The object URLs of the displayed case *)

Lemma loadUrls_fold sources (urls : gmap string string) st :
  NoDup (src_modelId <$> sources) →
  ∃ created urls' st',
    fold_left loadUrlStep sources (urls, st) = (urls', st') ∧
    log st' = log st ++ (CreateObjectURL <$> created) ∧
    Forall2 (fun src u => urls' !! src_modelId src = Some u ∧ u ≠ "")
      (List.filter hasFile sources) created ∧
    ∀ k, k ∉ src_modelId <$> sources → urls' !! k = urls !! k.
Proof.
  revert urls st. induction sources as [|s rest IH]; intros urls st Hnd.
  { exists [], urls, st. simpl. rewrite app_nil_r. by split_and!. }
  rewrite fmap_cons in Hnd. apply NoDup_cons in Hnd as [Hs Hnd].
  cbn [fold_left List.filter]. unfold loadUrlStep at 2, hasFile at 1.
  destruct (src_file s) as [f|] eqn:Hf.
  - unfold createObjectURL.
    destruct (IH (<[src_modelId s := "blob:" +:+ pretty (N.of_nat (next_url st))]> urls)
                {| next_url := S (next_url st);
                   log := log st ++
                     [CreateObjectURL ("blob:" +:+ pretty (N.of_nat (next_url st)))] |} Hnd)
      as (created & urls' & st' & -> & Hlog & Hall & Hout).
    eexists (_ :: created), urls', st'. split; [done|]. simpl in Hlog.
    rewrite Hlog, <-app_assoc. split; [done|]. split.
    + constructor; [|done]. rewrite (Hout _ Hs), lookup_insert_eq. split; [done|].
      intros H. pose proof (blob_prefix (pretty (N.of_nat (next_url st)))) as Hp.
      rewrite H in Hp. discriminate Hp.
    + intros k Hk. rewrite fmap_cons in Hk. apply not_elem_of_cons in Hk as [Hne Hk].
      rewrite (Hout k Hk). by rewrite lookup_insert_ne.
  - assert (∀ urls1, (∀ k, k ≠ src_modelId s → urls1 !! k = urls !! k) →
      ∃ created urls' st',
        fold_left loadUrlStep rest (urls1, st) = (urls', st') ∧
        log st' = log st ++ (CreateObjectURL <$> created) ∧
        Forall2 (fun src u => urls' !! src_modelId src = Some u ∧ u ≠ "")
          (List.filter hasFile rest) created ∧
        ∀ k, k ∉ src_modelId <$> s :: rest → urls' !! k = urls !! k) as Hstep.
    { intros urls1 H1.
      destruct (IH urls1 st Hnd) as (created & urls' & st' & Hfold & Hlog & Hall & Hout).
      exists created, urls', st'. split_and!; [done..|].
      intros k Hk. rewrite fmap_cons in Hk. apply not_elem_of_cons in Hk as [Hne Hk].
      rewrite (Hout k Hk). by apply H1. }
    destruct (src_url s) as [u|]; [destruct (String.eqb u "")|].
    + by apply Hstep.
    + apply Hstep. intros k Hk. by rewrite lookup_insert_ne.
    + by apply Hstep.
Qed.

Lemma cleanupUrls_log (urls : gmap string string) sources created st :
  Forall2 (fun src u => urls !! src_modelId src = Some u ∧ u ≠ "")
    (List.filter hasFile sources) created →
  log (cleanupUrls urls sources st) = log st ++ (RevokeObjectURL <$> created).
Proof.
  unfold cleanupUrls. revert created st.
  induction sources as [|s rest IH]; intros created st; cbn [fold_left List.filter].
  { intros ->%Forall2_nil_inv_l. simpl. by rewrite app_nil_r. }
  unfold cleanupStep at 2, hasFile at 1. destruct (src_file s) as [f|].
  - intros (u & created' & [Hu Hne] & Hall & ->)%Forall2_cons_inv_l.
    rewrite Hu. apply String.eqb_neq in Hne. rewrite Hne.
    rewrite (IH created' _ Hall). simpl. by rewrite <-app_assoc.
  - intros Hall. by apply IH.
Qed.

(** X22. The arena keeps its object URLs balanced: for a case whose sources
    belong to pairwise different models, the cleanup of the effect revokes
    exactly the URLs the effect created, in the same order. *)
Theorem arena_urls_balanced (sources : list VideoSource) (st : Browser) :
  NoDup (src_modelId <$> sources) →
  ∃ created,
    log (loadUrls sources st).2 = log st ++ (CreateObjectURL <$> created) ∧
    length created = length (List.filter hasFile sources) ∧
    log (cleanupUrls (loadUrls sources st).1 sources (loadUrls sources st).2) =
      log (loadUrls sources st).2 ++ (RevokeObjectURL <$> created).
Proof.
  intros Hnd. unfold loadUrls.
  destruct (loadUrls_fold sources ∅ st Hnd) as (created & urls' & st' & -> & Hlog & Hall & _).
  exists created. simpl. split_and!; [done| |by apply cleanupUrls_log].
  symmetry. by eapply Forall2_length.
Qed.

Lemma arena_urls_balanced_witness :
  ∃ created,
    log (loadUrls [sourceA; sourceB] browser0).2
      = log browser0 ++ (CreateObjectURL <$> created) ∧
    length created = length (List.filter hasFile [sourceA; sourceB]) ∧
    log (cleanupUrls (loadUrls [sourceA; sourceB] browser0).1 [sourceA; sourceB]
           (loadUrls [sourceA; sourceB] browser0).2) =
      log (loadUrls [sourceA; sourceB] browser0).2 ++ (RevokeObjectURL <$> created).
Proof.
  apply arena_urls_balanced. apply (bool_decide_unpack _). vm_compute. exact I.
Defined.

(** ** The session *)

Lemma configuredModels_bounds actions :
  MIN_MODELS ≤ length (configuredModels actions) ≤ MAX_MODELS.
Proof.
  unfold configuredModels.
  assert (MIN_MODELS ≤ length initialModels ≤ MAX_MODELS) as H by (vm_compute; lia).
  revert H. generalize initialModels.
  induction actions as [|a actions IH]; intros models H; simpl; [done|].
  by apply IH, setupStep_bounds.
Qed.

Lemma handleStart_queue (mf : ModelFiles) models :
  models ≠ [] →
  ∃ started, handleStart mf models = Normal started ∧
    ∀ queue, started = Some queue → queue ≠ [] ∧ numberedQueue queue.
Proof.
  intros Hne.
  assert (∃ names, matches mf models = Normal names) as [names Hm].
  { unfold matches. destruct (size mf <? length models); [by eexists|].
    destruct models; [done|]. destruct (fold_left _ _ _). by eexists. }
  unfold handleStart. rewrite Hm. simpl.
  destruct names as [|b0 names0]; [by eexists|]. set (names := b0 :: names0) in *.
  destruct (mkQueue_spec mf models names 0) as (queue & -> & Hcases & Hids).
  { by apply matches_all_have. }
  eexists. split; [done|]. intros ? [= <-]. split; [|done].
  intros ->. by apply Forall2_nil_inv_r in Hcases.
Qed.

Lemma appStep_inv s a : appInv s → ∃ s', appStep s a = Normal s' ∧ appInv s'.
Proof.
  intros Hinv. destruct a as [actions type blind|mf|winner rep|confirmed]; simpl.
  - destruct (stage s) eqn:Hst; simpl; try by (eexists; split; [done|]).
    eexists. split; [done|]. unfold appInv in *. rewrite Hst in Hinv. simpl.
    destruct Hinv as [-> ->]. split_and!; try done; apply configuredModels_bounds.
  - destruct (stage s) eqn:Hst; simpl; try by (eexists; split; [done|]).
    unfold appInv in Hinv. rewrite Hst in Hinv. destruct Hinv as (Hb & Hq & Hh).
    destruct (handleStart_queue mf (app_models s)) as (started & -> & Hstarted).
    { intros Hnil. rewrite Hnil in Hb. unfold MIN_MODELS in Hb. simpl in Hb. lia. }
    simpl. destruct started as [queue|].
    + destruct (Hstarted queue eq_refl) as [Hne Hnum].
      eexists. split; [done|]. unfold appInv. simpl.
      destruct Hb. split_and!; try done.
      destruct queue; [done|simpl; lia].
    + eexists. split; [done|]. unfold appInv. rewrite Hst. done.
  - destruct (stage s) eqn:Hst; simpl; try by (eexists; split; [done|]).
    unfold appInv in Hinv. rewrite Hst in Hinv.
    destruct Hinv as ([Hb1 Hb2] & Hnum & Hidx & Hvotes).
    assert ((0 <? length (caseQueue s)) = true) as -> by (apply Nat.ltb_lt; lia).
    destruct (lookup_lt_is_Some_2 _ _ Hidx) as [tc Htc]. rewrite Htc.
    destruct winner as [w|]; simpl; [|by (eexists; split; [done|]; unfold appInv; rewrite Hst)].
    eexists. split; [done|]. unfold handleNextVote.
    destruct (Z.of_nat (currentCaseIndex s) <? Z.of_nat (length (caseQueue s)) - 1)%Z
      eqn:Hlt; unfold appInv; simpl.
    + apply Z.ltb_lt in Hlt. rewrite Hst. split_and!; [done..|lia|].
      rewrite Nat.add_1_r, (take_S_r _ _ _ Htc).
      apply Forall2_app; [done|]. by repeat constructor.
    + apply Z.ltb_ge in Hlt. split_and!; [done..| |].
      * intros Hnil. rewrite Hnil in Hidx. simpl in Hidx. lia.
      * assert (caseQueue s = take (currentCaseIndex s) (caseQueue s) ++ [tc]) as Hq.
        { rewrite <-(take_S_r _ _ _ Htc). rewrite take_ge; [done|lia]. }
        rewrite Hq at 1. apply Forall2_app; [done|]. by repeat constructor.
  - destruct (stage s) eqn:Hst; simpl; [by (eexists; split; [done|])|..];
      (destruct confirmed; simpl; (eexists; split; [done|]); [by unfold appInv|done]).
Qed.

Lemma appRun_inv actions s : appInv s → ∃ s', appRun actions s = Normal s' ∧ appInv s'.
Proof.
  revert s. induction actions as [|a actions IH]; intros s Hinv; simpl.
  - by exists s.
  - destruct (appStep_inv s a Hinv) as (s1 & -> & Hinv1). simpl. by apply IH.
Qed.

(** X23. Whatever the user does, no handler of the session raises, and: past
    the setup stage there are between 2 and 5 models; in the arena the
    current index points into a non-empty queue and the history holds one
    vote for each case before it, in queue order; in the results stage the
    history holds exactly one vote per case of the queue, in queue order. *)
Theorem session_invariant (actions : list AppAction) :
  ∃ s, appRun actions appInit = Normal s ∧
    (stage s ≠ SETUP → MIN_MODELS ≤ length (app_models s) ≤ MAX_MODELS) ∧
    (stage s = ARENA →
       is_Some (caseQueue s !! currentCaseIndex s) ∧
       Forall2 voteOf (voteHistory s) (take (currentCaseIndex s) (caseQueue s))) ∧
    (stage s = RESULTS →
       caseQueue s ≠ [] ∧ Forall2 voteOf (voteHistory s) (caseQueue s)) ∧
    (stage s = SETUP ∨ stage s = UPLOAD → caseQueue s = [] ∧ voteHistory s = []).
Proof.
  destruct (appRun_inv actions appInit) as (s & Hrun & Hinv); [done|].
  exists s. split; [done|]. unfold appInv in Hinv.
  destruct (stage s) eqn:Hst.
  - destruct Hinv as [? ?]. split_and!; try done; by intros _.
  - destruct Hinv as (? & ? & ?). split_and!; try done; by intros _.
  - destruct Hinv as (? & ? & Hidx & ?).
    split_and!; try done; try (by intros [?|?]).
    intros _. split; [|done]. by apply lookup_lt_is_Some_2.
  - destruct Hinv as (? & ? & ? & ?). split_and!; try done; by intros [?|?].
Qed.

Lemma find_numbered (queue : list TestCase) i tc v :
  numberedQueue queue → queue !! i = Some tc → vote_caseId v = case_id tc →
  findCase queue v = Some tc.
Proof.
  intros Hnum Hi Hv. unfold findCase. rewrite Hv.
  assert (∀ pre post, queue = pre ++ tc :: post → length pre = i →
            Forall (fun c => String.eqb (case_id c) (case_id tc) = false) pre) as Hpre.
  { intros pre post -> Hlen. apply Forall_forall. intros c Hc.
    apply list_elem_of_lookup in Hc as [j Hj].
    pose proof (lookup_lt_Some _ _ _ Hj) as Hjlt.
    apply String.eqb_neq. rewrite (Hnum j c), (Hnum i tc); [|done|].
    - intros Heq. apply (inj (String.app "case-")), (inj pretty), Nat2N.inj in Heq. lia.
    - by rewrite lookup_app_l. }
  apply list_elem_of_split_length in Hi as (pre & post & -> & Hlen).
  specialize (Hpre pre post eq_refl (eq_sym Hlen)). clear Hnum Hlen.
  induction pre as [|c pre IH]; simpl.
  - by rewrite String.eqb_refl.
  - apply Forall_cons in Hpre as [-> ?]. by apply IH.
Qed.

(** X24. Every vote leads back to its own case: in any state the session can
    be in, the lookup [caseQueue.find(c => c.id === result.caseId)] of the
    batch export finds, for the i-th vote of the history, the i-th case of
    the queue. *)
Theorem votes_find_their_case (actions : list AppAction) (s : App) i v :
  appRun actions appInit = Normal s →
  voteHistory s !! i = Some v →
  ∃ tc, caseQueue s !! i = Some tc ∧ voteOf v tc ∧ findCase (caseQueue s) v = Some tc.
Proof.
  intros Hrun Hv. destruct (appRun_inv actions appInit) as (s' & Hrun' & Hinv); [done|].
  rewrite Hrun in Hrun'. injection Hrun' as <-. unfold appInv in Hinv.
  destruct (stage s).
  - destruct Hinv as [_ Hh]. by rewrite Hh in Hv.
  - destruct Hinv as (_ & _ & Hh). by rewrite Hh in Hv.
  - destruct Hinv as (_ & Hnum & _ & Hvotes).
    destruct (Forall2_lookup_l _ _ _ _ _ Hvotes Hv) as (tc & Htc & Hof).
    apply lookup_take_Some in Htc as [Htc _].
    exists tc. split_and!; [done..|]. eapply find_numbered; [done..|apply Hof].
  - destruct Hinv as (_ & Hnum & _ & Hvotes).
    destruct (Forall2_lookup_l _ _ _ _ _ Hvotes Hv) as (tc & Htc & Hof).
    exists tc. split_and!; [done..|]. eapply find_numbered; [done..|apply Hof].
Qed.

Lemma votes_find_their_case_witness :
  ∃ s v tc,
    appRun sessionActions appInit = Normal s ∧ voteHistory s !! 0 = Some v ∧
    findCase (caseQueue s) v = Some tc.
Proof.
  assert (∃ s, appRun sessionActions appInit = Normal s ∧
               ∃ v, voteHistory s !! 0 = Some v) as (s & Hrun & v & Hv).
  { vm_compute. eexists. split; [reflexivity|]. eexists. reflexivity. }
  destruct (votes_find_their_case sessionActions s 0 v Hrun Hv) as (tc & _ & _ & Hfind).
  by exists s, v, tc.
Defined.

(** ** The media-type filter *)

Lemma string_app_assoc (s1 s2 s3 : string) : (s1 +:+ s2) +:+ s3 = s1 +:+ (s2 +:+ s3).
Proof.
  induction s1 as [|c s1 IH]; [done|]. rewrite !string_app_cons. f_equal. exact IH.
Qed.

Lemma string_app_nil_r (s : string) : s +:+ "" = s.
Proof.
  induction s as [|c s IH]; [done|]. rewrite string_app_cons. f_equal. exact IH.
Qed.

Lemma rev_app_append (s1 s2 : string) : String.rev_app s1 s2 = String.rev s1 +:+ s2.
Proof.
  unfold String.rev. revert s2. induction s1 as [|c s1 IH]; intros s2; simpl; [done|].
  rewrite (IH (String c s2)), (IH (String c "")), string_app_assoc. done.
Qed.

Lemma rev_append (s t : string) : String.rev (s +:+ t) = String.rev t +:+ String.rev s.
Proof.
  induction s as [|c s IH].
  - change ("" +:+ t) with t. by rewrite string_app_nil_r.
  - rewrite string_app_cons. unfold String.rev at 1 3. simpl.
    rewrite !rev_app_append, IH, string_app_assoc. done.
Qed.

Lemma rev_involutive (s : string) : String.rev (String.rev s) = s.
Proof.
  induction s as [|c s IH]; [done|].
  unfold String.rev at 2. simpl. rewrite rev_app_append, rev_append, IH. done.
Qed.

Lemma prefix_append (p s : string) :
  String.prefix p s = true ↔ ∃ x, s = p +:+ x.
Proof.
  revert s. induction p as [|c p IH]; intros s.
  - simpl. destruct s; (split; [intros _; by eexists|done]).
  - destruct s as [|c' s]; simpl.
    + split; [done|]. intros [x Hx]. by rewrite string_app_cons in Hx.
    + destruct (Ascii.ascii_dec c c') as [->|Hne].
      * rewrite IH. split; intros [x Hx]; exists x.
        -- by rewrite Hx.
        -- rewrite string_app_cons in Hx. by injection Hx.
      * split; [done|]. intros [x Hx].
        rewrite string_app_cons in Hx. by injection Hx.
Qed.

Lemma endsWith_append (s suffix : string) :
  endsWith s suffix = true ↔ ∃ stem, s = stem +:+ suffix.
Proof.
  unfold endsWith. rewrite prefix_append. split.
  - intros [x Hx]. exists (String.rev x).
    by rewrite <-(rev_involutive s), Hx, rev_append, rev_involutive.
  - intros [stem ->]. exists (String.rev stem). by rewrite rev_append.
Qed.

(** X25. What the folder filter lets through: exactly the files whose MIME
    type starts with the prefix of the media kind, and the files whose name
    ends, in any letter case, in a dot and one of the listed extensions,
    whatever their MIME type is. *)
Theorem validFile_spec (mediaType : MediaType) (f : File) :
  validFile mediaType f = true ↔
  (∃ rest, file_type f = mimePrefixOf mediaType +:+ rest) ∨
  (∃ e stem, e ∈ mediaExtensions mediaType ∧
             lowercase (file_name f) = stem +:+ "." +:+ e).
Proof.
  assert (∀ exts name, has_extension exts name = true ↔
            ∃ e stem, e ∈ exts ∧ lowercase name = stem +:+ "." +:+ e) as Hext.
  { intros exts name. unfold has_extension. rewrite existsb_exists. split.
    - intros (e & He & [stem Hs]%endsWith_append). exists e, stem.
      split; [by apply list_elem_of_In|done].
    - intros (e & stem & He & Hs). exists e. split; [by apply list_elem_of_In|].
      apply endsWith_append. by exists stem. }
  assert (String.prefix (mimePrefixOf mediaType) (file_type f) = true →
          negb (String.eqb (file_type f) "") = true) as Hne.
  { intros [rest Hr]%prefix_append. rewrite Hr. by destruct mediaType. }
  unfold validFile. fold (mimePrefixOf mediaType).
  destruct (String.prefix (mimePrefixOf mediaType) (file_type f)) eqn:Hp.
  - rewrite (Hne eq_refl). simpl. split; [|done]. intros _. left.
    by apply prefix_append.
  - rewrite andb_false_r.
    assert (¬ ∃ rest, file_type f = mimePrefixOf mediaType +:+ rest) as Hno.
    { intros H%prefix_append. congruence. }
    destruct mediaType; rewrite Hext; simpl; naive_solver.
Qed.

(** ** Readiness and start *)

(** X26. An enabled Start button works: whenever [isReady] is true,
    [handleStart] hands on a queue with one case per match. *)
Theorem ready_start (mf : ModelFiles) (models : list ModelConfig) :
  isReady mf models = Normal true →
  ∃ names queue,
    matches mf models = Normal names ∧ names ≠ [] ∧
    handleStart mf models = Normal (Some queue) ∧
    case_name <$> queue = names.
Proof.
  unfold isReady, handleStart.
  destruct (matches mf models) as [names|e] eqn:Hm; simpl; [|done].
  intros [= [Hlen _]%andb_true_iff]. apply Nat.ltb_lt in Hlen.
  destruct names as [|b0 names0]; [simpl in Hlen; lia|].
  set (names := b0 :: names0) in *.
  destruct (mkQueue_spec mf models names 0) as (queue & -> & Hcases & _).
  { by apply matches_all_have. }
  exists names, queue. split_and!; [done..|].
  clear Hm Hlen. induction Hcases as [|b tc ?? [Hn _] _ IH]; csimpl; [done|].
  by rewrite Hn, IH.
Qed.

Lemma ready_start_witness :
  ∃ names queue,
    matches sampleFiles [modelA; modelB] = Normal names ∧ names ≠ [] ∧
    handleStart sampleFiles [modelA; modelB] = Normal (Some queue) ∧
    case_name <$> queue = names.
Proof. apply ready_start. vm_compute. reflexivity. Defined.
